(** * JSON Formatter Pro: structural diff, JSONPath-lite queries and
      path-to-line resolution

    A shallow embedding of [src/utils/formatter.js] (diffJSON,
    calculateSimilarity), of the JSONPath utilities (tokenize, applyToken,
    evaluateFilter, queryJSONPath) and of [src/popup.js]
    (stringifyWithPathMap, getParentPath, resolvePathLine), followed by the
    properties of the specification that concern them.

    Conventions of the embedding.
    - A JavaScript string is a [string]: a sequence of code units, here the
      8-bit ones (U+0000 to U+00FF).
    - A JavaScript number is an IEEE 754 binary64 value, [spec_float] with
      [prec = 53] and [emax = 1024].  Quantities that the code only ever uses
      as integers (array lengths, indices, node counts) are [Z] or [nat];
      JavaScript represents them exactly below 2^53.
    - A mutable array that a function fills and returns is threaded as a
      list; an exception is the [Throw] case of [result]. *)

From Stdlib Require Import ZArith List String Ascii Bool Lia QArith Qround Qpower Permutation Sorted.
From Stdlib Require Import Floats.SpecFloat DecimalString.
From stdpp Require Import gmap strings.
Import ListNotations.

Local Open Scope string_scope.
Local Open Scope list_scope.
Local Set Warnings "-register-all".

(** ** Code units and strings *)

Definition code (c : ascii) : nat := nat_of_ascii c.

(** [\d] *)
Definition is_digit (c : ascii) : bool :=
  Nat.leb 48 (code c) && Nat.leb (code c) 57.

(** [\w] *)
Definition is_word (c : ascii) : bool :=
  is_digit c
  || (Nat.leb 65 (code c) && Nat.leb (code c) 90)
  || (Nat.leb 97 (code c) && Nat.leb (code c) 122)
  || Nat.eqb (code c) 95.

(** LineTerminator: LF and CR (U+2028 and U+2029 lie outside the 8-bit
    code units). *)
Definition is_line_terminator (c : ascii) : bool :=
  Nat.eqb (code c) 10 || Nat.eqb (code c) 13.

(** [\s], also StrWhiteSpaceChar: TAB, LF, VT, FF, CR, SP and NBSP. *)
Definition is_space (c : ascii) : bool :=
  (Nat.leb 9 (code c) && Nat.leb (code c) 13)
  || Nat.eqb (code c) 32 || Nat.eqb (code c) 160.

(** [.] of a regular expression without the [s] flag. *)
Definition is_dot (c : ascii) : bool := negb (is_line_terminator c).

Definition is_hex_digit (c : ascii) : bool :=
  is_digit c
  || (Nat.leb 65 (code c) && Nat.leb (code c) 70)
  || (Nat.leb 97 (code c) && Nat.leb (code c) 102).

(** The quotation mark, U+0022. *)
Definition double_quote : string := String (ascii_of_nat 34) EmptyString.

(** [s[i]]; [None] is [undefined]. *)
Definition char_at (s : string) (i : nat) : option ascii := String.get i s.

Definition char_is (o : option ascii) (c : ascii) : bool :=
  match o with
  | Some d => Ascii.eqb d c
  | None => false
  end.

(** The longest prefix of [s] whose code units satisfy [p], and the rest. *)
Fixpoint span (p : ascii -> bool) (s : string) : string * string :=
  match s with
  | EmptyString => (EmptyString, EmptyString)
  | String c s' =>
      if p c then let '(a, b) := span p s' in (String c a, b)
      else (EmptyString, s)
  end.

(** [s.substring(i)] for [0 <= i]. *)
Definition drop (i : nat) (s : string) : string :=
  substring i (String.length s - i) s.

Definition startsWith (s p : string) : bool := String.prefix p s.

(** A relative index of [slice], resolved against the length. *)
Definition relative_index (len : nat) (k : Z) : nat :=
  if (k <? 0)%Z then Z.to_nat (Z.max (Z.of_nat len + k) 0)
  else Nat.min (Z.to_nat k) len.

(** [s.slice(start, stop)]; [stop = None] is an omitted second argument. *)
Definition slice (s : string) (start : Z) (stop : option Z) : string :=
  let len := String.length s in
  let from := relative_index len start in
  let to := match stop with
            | Some e => relative_index len e
            | None => len
            end in
  substring from (to - from) s.

(** [s.includes(c)] for a one-character [c]. *)
Fixpoint includes (s : string) (c : ascii) : bool :=
  match s with
  | EmptyString => false
  | String d s' => Ascii.eqb d c || includes s' c
  end.

(** [s.split(sep)] for a one-character separator. *)
Fixpoint split (sep : ascii) (s : string) : list string :=
  match s with
  | EmptyString => [EmptyString]
  | String c s' =>
      if Ascii.eqb c sep then EmptyString :: split sep s'
      else match split sep s' with
           | piece :: rest => String c piece :: rest
           | [] => [String c EmptyString]
           end
  end.

(** [s.lastIndexOf(c)]; [None] is [-1]. *)
Fixpoint lastIndexOf (s : string) (c : ascii) : option nat :=
  match s with
  | EmptyString => None
  | String d s' =>
      match lastIndexOf s' c with
      | Some i => Some (S i)
      | None => if Ascii.eqb d c then Some 0 else None
      end
  end.

(** The relational comparison of two strings: code unit by code unit, a
    proper prefix being smaller. *)
Fixpoint string_ltb (a b : string) : bool :=
  match a, b with
  | _, EmptyString => false
  | EmptyString, String _ _ => true
  | String c a', String d b' =>
      if Nat.ltb (code c) (code d) then true
      else if Nat.ltb (code d) (code c) then false
      else string_ltb a' b'
  end.

Definition join (sep : string) (l : list string) : string :=
  match l with
  | [] => EmptyString
  | x :: l' => fold_left (fun acc y => acc +:+ sep +:+ y) l' x
  end.

(** The decimal numeral of an integer, as [String(n)] prints it. *)
Definition string_of_Z (n : Z) : string := NilZero.string_of_int (Z.to_int n).
Definition string_of_nat (n : nat) : string := string_of_Z (Z.of_nat n).

(** ** Numbers: IEEE 754 binary64 *)

Definition number : Type := spec_float.
Definition prec : Z := 53.
Definition emax : Z := 1024.

(** The number nearest to an integer; exact when [|n| < 2^53]. *)
Definition Z2F (n : Z) : number := binary_normalize prec emax n 0 false.

(** The exact value of a finite number (0 for the values that have none). *)
Definition F2Q (x : number) : Q :=
  match x with
  | S754_finite s m e => (inject_Z (cond_Zopp s (Zpos m)) * Qpower 2 e)%Q
  | _ => 0%Q
  end.

Definition is_nan (x : number) : bool :=
  match x with
  | S754_nan => true
  | _ => false
  end.

Definition is_neg_zero (x : number) : bool :=
  match x with
  | S754_zero true => true
  | _ => false
  end.

(** Comparison by value; [None] when an operand is NaN.  The two zeros are
    equal. *)
Definition num_compare (x y : number) : option comparison :=
  match x, y with
  | S754_nan, _ | _, S754_nan => None
  | S754_infinity s1, S754_infinity s2 =>
      Some (match s1, s2 with
            | true, true | false, false => Eq
            | true, false => Lt
            | false, true => Gt
            end)
  | S754_infinity s, _ => Some (if s then Lt else Gt)
  | _, S754_infinity s => Some (if s then Gt else Lt)
  | _, _ => Some (F2Q x ?= F2Q y)%Q
  end.

(** Number::equal and Number::lessThan. *)
Definition num_eqb (x y : number) : bool :=
  match num_compare x y with
  | Some Eq => true
  | _ => false
  end.

Definition num_ltb (x y : number) : option bool :=
  match num_compare x y with
  | Some Lt => Some true
  | Some _ => Some false
  | None => None
  end.

Definition Math_min (a b : number) : number :=
  match num_compare a b with
  | None => S754_nan
  | Some Lt => a
  | Some Gt => b
  | Some Eq => if is_neg_zero b then b else a
  end.

Definition Math_max (a b : number) : number :=
  match num_compare a b with
  | None => S754_nan
  | Some Gt => a
  | Some Lt => b
  | Some Eq => if is_neg_zero a then b else a
  end.

(** [Math.round]: the nearest integer, a tie going up. *)
Definition Math_round (x : number) : number :=
  match x with
  | S754_finite s _ _ =>
      let n := Qfloor (F2Q x + (1 # 2)) in
      if (n =? 0)%Z then S754_zero s else Z2F n
  | _ => x
  end.

(** The integer a number denotes, when it denotes one. *)
Definition integral_value (x : number) : option Z :=
  match x with
  | S754_zero _ => Some 0%Z
  | S754_finite s m e =>
      if (0 <=? e)%Z then Some (cond_Zopp s (Zpos m * 2 ^ e))
      else if (Zpos m mod 2 ^ (- e) =? 0)%Z
           then Some (cond_Zopp s (Zpos m / 2 ^ (- e)))
           else None
  | _ => None
  end.

(** Literals: the value of a run of digits in a radix. *)
Definition digit_value (c : ascii) : Z :=
  if is_digit c then Z.of_nat (code c - 48)
  else if Nat.leb 97 (code c) then Z.of_nat (code c - 87)
  else Z.of_nat (code c - 55).

Fixpoint digits_value_from (radix : Z) (acc : Z) (s : string) : Z :=
  match s with
  | EmptyString => acc
  | String c s' => digits_value_from radix (acc * radix + digit_value c) s'
  end.

Definition digits_value (radix : Z) (s : string) : Z :=
  digits_value_from radix 0 s.

(** The number nearest to [m * 10^e], for [0 <= m]. *)
Definition decimal_to_number (neg : bool) (m e : Z) : number :=
  match m with
  | Zpos p =>
      if (0 <=? e)%Z
      then binary_normalize prec emax (cond_Zopp neg (Zpos p * 10 ^ e)) 0 false
      else SFdiv prec emax (S754_finite neg p 0)
                           (S754_finite false (Z.to_pos (10 ^ (- e))) 0)
  | _ => S754_zero neg
  end.

(** An optional sign. *)
Definition take_sign (s : string) : bool * string :=
  match s with
  | String "-" s' => (true, s')
  | String "+" s' => (false, s')
  | _ => (false, s)
  end.

(** The longest prefix of [s] that is a StrUnsignedDecimalLiteral other than
    [Infinity], with its value as mantissa and decimal exponent, and the
    rest of [s]. *)
Definition unsigned_decimal_prefix (s : string) : option (Z * Z * string) :=
  let '(int_digits, r1) := span is_digit s in
  let '(frac_digits, r2) :=
    match r1 with
    | String "." r => span is_digit r
    | _ => (EmptyString, r1)
    end in
  match int_digits, frac_digits, r1 with
  | EmptyString, EmptyString, _ => None
  | _, _, _ =>
      let m := digits_value 10 (int_digits +:+ frac_digits) in
      let e := (- Z.of_nat (String.length frac_digits))%Z in
      match r2 with
      | String c r3 =>
          if Ascii.eqb c "e" || Ascii.eqb c "E" then
            let '(eneg, r4) := take_sign r3 in
            let '(exp_digits, r5) := span is_digit r4 in
            match exp_digits with
            | EmptyString => Some (m, e, r2)
            | _ => Some (m, (e + cond_Zopp eneg (digits_value 10 exp_digits))%Z, r5)
            end
          else Some (m, e, r2)
      | EmptyString => Some (m, e, r2)
      end
  end.

(** The longest prefix of [s] that is a StrDecimalLiteral. *)
Definition decimal_prefix (s : string) : option (number * string) :=
  let '(neg, r) := take_sign s in
  if startsWith r "Infinity" then Some (S754_infinity neg, drop 8 r)
  else match unsigned_decimal_prefix r with
       | Some (m, e, rest) => Some (decimal_to_number neg m e, rest)
       | None => None
       end.

Definition trim_start (s : string) : string := snd (span is_space s).

Definition all_space (s : string) : bool :=
  match snd (span is_space s) with
  | EmptyString => true
  | _ => false
  end.

(** A NonDecimalIntegerLiteral: [0x], [0o] or [0b] and digits of the radix,
    up to trailing white space. *)
Definition radix_literal (radix : Z) (p : ascii -> bool) (digits : string) : number :=
  let '(ds, rest) := span p digits in
  match ds with
  | EmptyString => S754_nan
  | _ => if all_space rest then Z2F (digits_value radix ds) else S754_nan
  end.

Definition is_octal_digit (c : ascii) : bool := Nat.leb 48 (code c) && Nat.leb (code c) 55.
Definition is_binary_digit (c : ascii) : bool := Nat.leb 48 (code c) && Nat.leb (code c) 49.

(** StringToNumber, which is [Number(s)] and the conversion of a string
    operand. *)
Definition StringToNumber (s : string) : number :=
  let t := trim_start s in
  match t with
  | EmptyString => S754_zero false
  | String "0" (String "x" ds) | String "0" (String "X" ds) => radix_literal 16 is_hex_digit ds
  | String "0" (String "o" ds) | String "0" (String "O" ds) => radix_literal 8 is_octal_digit ds
  | String "0" (String "b" ds) | String "0" (String "B" ds) => radix_literal 2 is_binary_digit ds
  | _ =>
      match decimal_prefix t with
      | Some (x, rest) => if all_space rest then x else S754_nan
      | None => S754_nan
      end
  end.

(** [isNaN(s)] and [parseFloat(s)] on a string. *)
Definition isNaN (s : string) : bool := is_nan (StringToNumber s).

Definition parseFloat (s : string) : number :=
  match decimal_prefix (trim_start s) with
  | Some (x, _) => x
  | None => S754_nan
  end.

(** [parseInt(s)] without a radix: [None] is NaN, otherwise the integer it
    denotes. *)
Definition parseInt (s : string) : option Z :=
  let '(neg, r) := take_sign (trim_start s) in
  let '(radix, p, r) :=
    match r with
    | String "0" (String "x" ds) | String "0" (String "X" ds) => (16%Z, is_hex_digit, ds)
    | _ => (10%Z, is_digit, r)
    end in
  match fst (span p r) with
  | EmptyString => None
  | ds => Some (cond_Zopp neg (digits_value radix ds))
  end.

(** ** Values *)

(** What the code can hold in a variable: the values of a parsed JSON
    document, [undefined], and the two kinds of built-in object that a
    property name can reach from a JSON object, namely [Object.prototype]
    and its methods.  The [entries] of an object are its own properties in
    the order of [Object.keys]. *)
Inductive value : Type :=
| VUndefined
| VNull
| VBool (b : bool)
| VNum (x : number)
| VStr (s : string)
| VArr (items : list value)
| VObj (entries : list (string * value))
| VFunction (name : string)
| VObjectPrototype.

(** Exceptions; the three of them are TypeErrors. *)
Inductive exn : Type :=
| NotIterable
| CannotReadProperty (property : string)
| CannotConvertToPrimitive.

(** A computation that returns or throws. *)
Inductive result (A : Type) : Type :=
| Ok (a : A)
| Throw (e : exn).
Arguments Ok {A} a.
Arguments Throw {A} e.

Definition bind {A B : Type} (r : result A) (k : A -> result B) : result B :=
  match r with
  | Ok a => k a
  | Throw e => Throw e
  end.

Notation "x <- r ;; k" := (bind r (fun x => k))
  (at level 100, r at next level, right associativity).

(** A loop whose body can throw. *)
Fixpoint foldM {A B : Type} (f : A -> B -> result A) (l : list B) (a : A) : result A :=
  match l with
  | [] => Ok a
  | b :: l' => a' <- f a b ;; foldM f l' a'
  end.

Definition is_null (v : value) : bool :=
  match v with
  | VNull => true
  | _ => false
  end.

Definition typeof (v : value) : string :=
  match v with
  | VUndefined => "undefined"
  | VBool _ => "boolean"
  | VNum _ => "number"
  | VStr _ => "string"
  | VFunction _ => "function"
  | VNull | VArr _ | VObj _ | VObjectPrototype => "object"
  end.

Definition isArray (v : value) : bool :=
  match v with
  | VArr _ => true
  | _ => false
  end.

(** [a.length] and [a[i]] of an array. *)
Definition array_length (v : value) : nat :=
  match v with
  | VArr items => length items
  | _ => 0
  end.

Definition array_get (v : value) (i : nat) : value :=
  match v with
  | VArr items => nth i items VUndefined
  | _ => VUndefined
  end.

(** [a[i]] for an integer [i] of either sign. *)
Definition array_get_Z (v : value) (i : Z) : value :=
  if (i <? 0)%Z then VUndefined else array_get v (Z.to_nat i).

(** The own property [k] among [entries]. *)
Fixpoint own (entries : list (string * value)) (k : string) : option value :=
  match entries with
  | [] => None
  | (k', v) :: rest => if String.eqb k' k then Some v else own rest k
  end.

(** The property names of [Object.prototype]: those of the language and the
    legacy ones every browser has. *)
Definition object_prototype_names : list string :=
  [ "constructor"; "__defineGetter__"; "__defineSetter__"; "hasOwnProperty";
    "__lookupGetter__"; "__lookupSetter__"; "isPrototypeOf";
    "propertyIsEnumerable"; "toString"; "valueOf"; "__proto__";
    "toLocaleString" ].

Definition in_object_prototype (k : string) : bool :=
  existsb (String.eqb k) object_prototype_names.

(** [Object.keys(o)] of a non-array object. *)
Definition keys (o : value) : list string :=
  match o with
  | VObj entries => map fst entries
  | _ => []
  end.

(** [k in o] for a non-array object [o]: an own property or one of the
    prototype chain. *)
Definition has_property (o : value) (k : string) : bool :=
  match o with
  | VObj entries =>
      match own entries k with
      | Some _ => true
      | None => in_object_prototype k
      end
  | VObjectPrototype => in_object_prototype k
  | _ => false
  end.

(** [o[k]] for a non-array object [o].  [__proto__] is an accessor that
    answers the prototype of the receiver. *)
Definition get (o : value) (k : string) : value :=
  match o with
  | VObj entries =>
      match own entries k with
      | Some v => v
      | None =>
          if String.eqb k "__proto__" then VObjectPrototype
          else if in_object_prototype k then VFunction k
          else VUndefined
      end
  | VObjectPrototype =>
      if String.eqb k "__proto__" then VNull
      else if in_object_prototype k then VFunction k
      else VUndefined
  | _ => VUndefined
  end.

(** [a === b] where the code applies it: to values that are not containers
    (the identity of two arrays or of two objects is not part of a value). *)
Definition strict_equal (a b : value) : bool :=
  match a, b with
  | VUndefined, VUndefined => true
  | VNull, VNull => true
  | VBool x, VBool y => Bool.eqb x y
  | VNum x, VNum y => num_eqb x y
  | VStr x, VStr y => String.eqb x y
  | VFunction f, VFunction g => String.eqb f g
  | VObjectPrototype, VObjectPrototype => true
  | _, _ => false
  end.

(** The insertion order of [new Set(l)]: first occurrences. *)
Fixpoint set_of (l : list string) : list string :=
  match l with
  | [] => []
  | k :: l' => k :: List.filter (fun k' => negb (String.eqb k' k)) (set_of l')
  end.

(** ** The host *)

(** What the code observes of the JavaScript engine beyond the language
    core: the decimal rendering of a number that is not an integer below
    10^21, the source text [String(f)] shows for a built-in function, and
    the member [v[p]] that an array, a string, a number, a boolean or a
    function [v] inherits under a name [p] that is not an own property
    ([VUndefined] when there is none; an inherited object is given by the
    value a comparison converts it to). *)
Record Host : Type := {
  number_to_string : number -> string;
  function_source : string -> string;
  builtin_member : value -> string -> value
}.

(** A host for closed instances.  It prints a built-in function as V8 does;
    the instances never ask it for the rendering of a fraction nor for an
    inherited member. *)
Definition plain_host : Host := {|
  number_to_string := fun _ => EmptyString;
  function_source := fun name => "function " +:+ name +:+ "() { [native code] }";
  builtin_member := fun _ _ => VUndefined
|}.

(** U+2192 RIGHTWARDS ARROW, spelled in UTF-8. *)
Definition arrow : string := "→".

Section WithHost.

Context (host : Host).

(** Number::toString. *)
Definition Number_toString (x : number) : string :=
  match x with
  | S754_nan => "NaN"
  | S754_infinity false => "Infinity"
  | S754_infinity true => "-Infinity"
  | _ =>
      match integral_value x with
      | Some n =>
          if (Z.abs n <? 10 ^ 21)%Z then string_of_Z n
          else number_to_string host x
      | None => number_to_string host x
      end
  end.

(** ** formatter.js: the diff engine *)

Inductive change_type : Type := added | removed | changed.

Record change : Type := {
  change_type_of : change_type;
  change_path : string;
  change_old : option value;
  change_new : option value;
  change_message : string
}.

Definition getTypeName (v : value) : string :=
  if is_null v then "null"
  else if isArray v then "array"
  else typeof v.

Definition formatValue (v : value) : string :=
  if is_null v then "null"
  else match v with
       | VStr s => double_quote +:+ s +:+ double_quote
       | VArr items => "[array(" +:+ string_of_nat (length items) +:+ ")]"
       | VObj _ | VObjectPrototype =>
           "{object(" +:+ string_of_nat (length (keys v)) +:+ ")}"
       | VUndefined => "undefined"
       | VBool true => "true"
       | VBool false => "false"
       | VNum x => Number_toString x
       | VFunction name => function_source host name
       | VNull => "null"
       end.

(** [path || 'root'] *)
Definition path_or_root (path : string) : string :=
  match path with
  | EmptyString => "root"
  | _ => path
  end.

(** The body of [compare], [self] standing for the recursive calls and
    [changes] for the array the closure pushes to. *)
Definition compare_body (self : value -> value -> string -> list change -> list change)
    (o1 o2 : value) (path : string) (changes : list change) : list change :=
  if is_null o1 && is_null o2 then changes
  else if is_null o1 || is_null o2 then
    changes ++ [ {| change_type_of := changed; change_path := path;
                    change_old := Some o1; change_new := Some o2;
                    change_message := path_or_root path +:+ ": " +:+ formatValue o1
                                      +:+ " " +:+ arrow +:+ " " +:+ formatValue o2 |} ]
  else if negb (String.eqb (typeof o1) (typeof o2)) then
    changes ++ [ {| change_type_of := changed; change_path := path;
                    change_old := Some o1; change_new := Some o2;
                    change_message := path_or_root path +:+ ": type changed from "
                                      +:+ getTypeName o1 +:+ " to " +:+ getTypeName o2 |} ]
  else if negb (String.eqb (typeof o1) "object") then
    if negb (strict_equal o1 o2) then
      changes ++ [ {| change_type_of := changed; change_path := path;
                      change_old := Some o1; change_new := Some o2;
                      change_message := path_or_root path +:+ ": " +:+ formatValue o1
                                        +:+ " " +:+ arrow +:+ " " +:+ formatValue o2 |} ]
    else changes
  else if negb (Bool.eqb (isArray o1) (isArray o2)) then
    changes ++ [ {| change_type_of := changed; change_path := path;
                    change_old := Some o1; change_new := Some o2;
                    change_message := path_or_root path
                                      +:+ ": changed from array to object or vice versa" |} ]
  else if isArray o1 then
    let maxLen := Nat.max (array_length o1) (array_length o2) in
    fold_left
      (fun changes i =>
         let newPath := path +:+ "[" +:+ string_of_nat i +:+ "]" in
         if Nat.leb (array_length o1) i then
           changes ++ [ {| change_type_of := added; change_path := newPath;
                           change_old := None; change_new := Some (array_get o2 i);
                           change_message := newPath +:+ ": +" +:+ formatValue (array_get o2 i) |} ]
         else if Nat.leb (array_length o2) i then
           changes ++ [ {| change_type_of := removed; change_path := newPath;
                           change_old := Some (array_get o1 i); change_new := None;
                           change_message := newPath +:+ ": -" +:+ formatValue (array_get o1 i) |} ]
         else self (array_get o1 i) (array_get o2 i) newPath changes)
      (seq 0 maxLen) changes
  else
    let keys1 := keys o1 in
    let keys2 := keys o2 in
    let allKeys := set_of (keys1 ++ keys2) in
    fold_left
      (fun changes key =>
         let newPath := match path with
                        | EmptyString => key
                        | _ => path +:+ "." +:+ key
                        end in
         if negb (has_property o1 key) then
           changes ++ [ {| change_type_of := added; change_path := newPath;
                           change_old := None; change_new := Some (get o2 key);
                           change_message := newPath +:+ ": +" +:+ formatValue (get o2 key) |} ]
         else if negb (has_property o2 key) then
           changes ++ [ {| change_type_of := removed; change_path := newPath;
                           change_old := Some (get o1 key); change_new := None;
                           change_message := newPath +:+ ": -" +:+ formatValue (get o1 key) |} ]
         else self (get o1 key) (get o2 key) newPath changes)
      allKeys changes.

(** A bound on the depth of the recursion of [compare] on [v]. *)
Fixpoint rank (v : value) : nat :=
  match v with
  | VArr items => S (S (list_sum (map rank items)))
  | VObj entries => S (S (list_sum (map (fun kv => rank (snd kv)) entries)))
  | VObjectPrototype => 1
  | _ => 0
  end.

Fixpoint compare_fuel (fuel : nat) (o1 o2 : value) (path : string)
    (changes : list change) : list change :=
  match fuel with
  | O => changes
  | S fuel' => compare_body (compare_fuel fuel') o1 o2 path changes
  end.

(** [compare]: the recursion is unfolded as deep as the two values go;
    [compare_unfold] below shows that it satisfies the equation of the
    source. *)
Definition compare (o1 o2 : value) (path : string) (changes : list change) : list change :=
  compare_fuel (S (rank o1 + rank o2)) o1 o2 path changes.

Definition diffJSON (json1 json2 : value) : list change :=
  compare json1 json2 EmptyString [].

(** ** formatter.js: the similarity score *)

Fixpoint countNodes (obj : value) : Z :=
  match obj with
  | VArr items => fold_left (fun sum item => (sum + countNodes item)%Z) items 1%Z
  | VObj entries =>
      fold_left (fun sum kv => (sum + countNodes (snd kv))%Z) entries
                (Z.of_nat (length (keys obj)))
  | VObjectPrototype => 0%Z
  | _ => 1%Z
  end.

Definition calculateSimilarity (json1 json2 : value) : number :=
  let changes := diffJSON json1 json2 in
  let totalNodes := (countNodes json1 + countNodes json2)%Z in
  let changeCount := Z.of_nat (length changes) in
  if (totalNodes =? 0)%Z then Z2F 100
  else
    let similarity :=
      Math_max (Z2F 0)
        (Math_min (Z2F 100)
           (SFmul prec emax
              (SFdiv prec emax (Z2F (totalNodes - changeCount * 2)) (Z2F totalNodes))
              (Z2F 100))) in
    Math_round similarity.

(** ** JSONPath utilities: the tokenizer *)

(** A bound of a slice: [null] for an empty piece, otherwise what
    [parseInt] makes of it ([None] is NaN). *)
Inductive bound : Type :=
| Null
| Parsed (n : option Z).

Inductive token : Type :=
| TKey (value : string)
| TIndex (value : option Z)
| TWildcard
| TSlice (start stop : bound)
| TRecursive
| TFilter (expression : string).

(** [/^\d+$/.test(s)] *)
Definition all_digits (s : string) : bool :=
  match span is_digit s with
  | (String _ _, EmptyString) => true
  | _ => false
  end.

(** [s => s ? parseInt(s) : null] *)
Definition parse_bound (s : string) : bound :=
  match s with
  | EmptyString => Null
  | _ => Parsed (parseInt s)
  end.

(** The token that the content of a pair of brackets adds, if any. *)
Definition classify_bracket (bracket : string) (tokens : list token) : list token :=
  if String.eqb bracket "*" then tokens ++ [TWildcard]
  else if startsWith bracket "'" || startsWith bracket double_quote then
    tokens ++ [TKey (slice bracket 1 (Some (-1)%Z))]
  else if all_digits bracket then tokens ++ [TIndex (parseInt bracket)]
  else if includes bracket ":" then
    match map parse_bound (split ":" bracket) with
    | start :: stop :: _ => tokens ++ [TSlice start stop]
    | _ => tokens
    end
  else if startsWith bracket "?" then tokens ++ [TFilter (slice bracket 1 None)]
  else tokens.

Definition not_bracket_end (c : ascii) : bool := negb (Ascii.eqb c "]").
Definition identifier_char (c : ascii) : bool :=
  negb (Ascii.eqb c ".") && negb (Ascii.eqb c "[").

(** The [while (i < path.length)] loop; one unit of [fuel] per iteration. *)
Fixpoint tokenize_loop (fuel : nat) (path : string) (i : nat) (tokens : list token)
    : option (list token) :=
  match fuel with
  | O => None
  | S fuel' =>
      if negb (Nat.ltb i (String.length path)) then Some tokens
      else if char_is (char_at path i) "." then
        tokenize_loop fuel' path (i + 1) tokens
      else if char_is (char_at path i) "[" then
        let i := i + 1 in
        let bracket := fst (span not_bracket_end (drop i path)) in
        let i := i + String.length bracket in
        let i := i + 1 in
        tokenize_loop fuel' path i (classify_bracket bracket tokens)
      else if char_is (char_at path i) "." && char_is (char_at path (i + 1)) "." then
        tokenize_loop fuel' path (i + 2) (tokens ++ [TRecursive])
      else if char_is (char_at path i) "*" then
        tokenize_loop fuel' path (i + 1) (tokens ++ [TWildcard])
      else
        let identifier := fst (span identifier_char (drop i path)) in
        let i := i + String.length identifier in
        tokenize_loop fuel' path i
          (match identifier with
           | EmptyString => tokens
           | _ => tokens ++ [TKey identifier]
           end)
  end.

(** [tokenize]: every iteration advances [i], so the length of [path] and
    one is fuel enough ([tokenize_loop_total] below). *)
Definition tokenize (path : string) : list token :=
  if String.eqb path EmptyString || String.eqb path "$" then []
  else
    let i := if char_is (char_at path 0) "$" then 1 else 0 in
    match tokenize_loop (S (String.length path)) path i [] with
    | Some tokens => tokens
    | None => []
    end.

(** ** JSONPath utilities: the filter evaluator *)

(** The ways of cutting [s] after a run of code units that satisfy [p],
    longest run first: the order in which a greedy quantifier tries them. *)
Fixpoint greedy (p : ascii -> bool) (s : string) : list (string * string) :=
  match s with
  | EmptyString => [(EmptyString, EmptyString)]
  | String c s' =>
      if p c
      then map (fun ab => (String c (fst ab), snd ab)) (greedy p s') ++ [(EmptyString, s)]
      else [(EmptyString, s)]
  end.

Definition nonempty_run (ab : string * string) : bool :=
  match fst ab with
  | EmptyString => false
  | _ => true
  end.

(** The first alternative that matches. *)
Fixpoint first_match {A B : Type} (f : A -> option B) (l : list A) : option B :=
  match l with
  | [] => None
  | a :: l' =>
      match f a with
      | Some b => Some b
      | None => first_match f l'
      end
  end.

(** [s] without the prefix [p]. *)
Definition strip_prefix (p s : string) : option string :=
  if startsWith s p then Some (drop (String.length p) s) else None.

Definition operators : list string := ["=="; "!="; ">"; "<"; ">="; "<="].

(** A match of [@\.(\w+)\s*(==|!=|>|<|>=|<=)\s*(.+)] at the start of [s]:
    the three groups. *)
Definition filter_match_here (s : string) : option (string * string * string) :=
  match strip_prefix "@." s with
  | None => None
  | Some r0 =>
      first_match (fun '(property, r1) =>
        first_match (fun '(_, r2) =>
          first_match (fun operator =>
            match strip_prefix operator r2 with
            | None => None
            | Some r3 =>
                first_match (fun '(_, r4) =>
                  first_match (fun '(valueStr, _) => Some (property, operator, valueStr))
                    (List.filter nonempty_run (greedy is_dot r4)))
                  (greedy is_space r3)
            end)
            operators)
          (greedy is_space r1))
        (List.filter nonempty_run (greedy is_word r0))
  end.

(** [expression.match(...)]: the leftmost match. *)
Fixpoint filter_match (s : string) : option (string * string * string) :=
  match filter_match_here s with
  | Some groups => Some groups
  | None =>
      match s with
      | EmptyString => None
      | String _ s' => filter_match s'
      end
  end.

(** The value parsed from the text after the operator. *)
Inductive literal : Type :=
| LString (s : string)
| LBool (b : bool)
| LNull
| LNumber (x : number).

Definition literal_value (l : literal) : value :=
  match l with
  | LString s => VStr s
  | LBool b => VBool b
  | LNull => VNull
  | LNumber x => VNum x
  end.

Definition parse_literal (valueStr : string) : literal :=
  if startsWith valueStr "'" || startsWith valueStr double_quote then
    LString (slice valueStr 1 (Some (-1)%Z))
  else if String.eqb valueStr "true" then LBool true
  else if String.eqb valueStr "false" then LBool false
  else if String.eqb valueStr "null" then LNull
  else if negb (isNaN valueStr) then LNumber (parseFloat valueStr)
  else LString valueStr.

(** A canonical array index: [0] or digits without a leading zero. *)
Definition array_index (p : string) : option nat :=
  if all_digits p && (String.eqb p "0" || negb (startsWith p "0"))
  then Some (Z.to_nat (digits_value 10 p))
  else None.

(** [item[property]] for any [item]. *)
Definition member (item : value) (property : string) : result value :=
  match item with
  | VUndefined | VNull => Throw (CannotReadProperty property)
  | VObj _ | VObjectPrototype => Ok (get item property)
  | VArr items =>
      if String.eqb property "length" then Ok (VNum (Z2F (Z.of_nat (length items))))
      else match array_index property with
           | Some i => Ok (nth i items VUndefined)
           | None => Ok (builtin_member host item property)
           end
  | VStr s =>
      if String.eqb property "length" then Ok (VNum (Z2F (Z.of_nat (String.length s))))
      else match array_index property with
           | Some i => Ok (match char_at s i with
                           | Some c => VStr (String c EmptyString)
                           | None => VUndefined
                           end)
           | None => Ok (builtin_member host item property)
           end
  | _ => Ok (builtin_member host item property)
  end.

(** ToString of an object operand and of the elements [join] visits.  A
    JSON object converts through [Object.prototype.toString] unless an own
    property hides it: then nothing callable is found. *)
Fixpoint ToString (v : value) : result string :=
  match v with
  | VUndefined => Ok "undefined"
  | VNull => Ok "null"
  | VBool true => Ok "true"
  | VBool false => Ok "false"
  | VNum x => Ok (Number_toString x)
  | VStr s => Ok s
  | VArr items =>
      parts <- (fix each (l : list value) : result (list string) :=
                  match l with
                  | [] => Ok []
                  | x :: l' =>
                      s <- match x with
                           | VUndefined | VNull => Ok EmptyString
                           | _ => ToString x
                           end ;;
                      rest <- each l' ;;
                      Ok (s :: rest)
                  end) items ;;
      Ok (join "," parts)
  | VObj entries =>
      match own entries "toString" with
      | Some _ => Throw CannotConvertToPrimitive
      | None => Ok "[object Object]"
      end
  | VObjectPrototype => Ok "[object Object]"
  | VFunction name => Ok (function_source host name)
  end.

Definition is_object (v : value) : bool :=
  match v with
  | VArr _ | VObj _ | VFunction _ | VObjectPrototype => true
  | _ => false
  end.

Definition ToPrimitive (v : value) : result value :=
  if is_object v then s <- ToString v ;; Ok (VStr s) else Ok v.

(** ToNumber of a primitive. *)
Definition ToNumber (v : value) : number :=
  match v with
  | VNull => S754_zero false
  | VBool true => Z2F 1
  | VBool false => S754_zero false
  | VNum x => x
  | VStr s => StringToNumber s
  | _ => S754_nan
  end.

Definition boolean_to_number (v : value) : value :=
  match v with
  | VBool _ => VNum (ToNumber v)
  | _ => v
  end.

(** [x == y] for two primitives. *)
Definition loose_equal_primitive (x y : value) : bool :=
  if String.eqb (typeof x) (typeof y) && Bool.eqb (is_null x) (is_null y)
  then strict_equal x y
  else
    match boolean_to_number x, boolean_to_number y with
    | VNull, VUndefined | VUndefined, VNull => true
    | VNum a, VNum b => num_eqb a b
    | VNum a, VStr s => num_eqb a (StringToNumber s)
    | VStr s, VNum b => num_eqb (StringToNumber s) b
    | _, _ => false
    end.

(** [x == y] where [y] is a literal: an object on the left is converted
    except against [null]. *)
Definition loose_equal (x : value) (y : literal) : result bool :=
  match y with
  | LNull => Ok (match x with
                 | VNull | VUndefined => true
                 | _ => false
                 end)
  | _ => px <- ToPrimitive x ;; Ok (loose_equal_primitive px (literal_value y))
  end.

(** IsLessThan on two primitives; [None] is [undefined]. *)
Definition less_than (px py : value) : option bool :=
  match px, py with
  | VStr a, VStr b => Some (string_ltb a b)
  | _, _ => num_ltb (ToNumber px) (ToNumber py)
  end.

Definition is_true (r : option bool) : bool :=
  match r with
  | Some true => true
  | _ => false
  end.

Definition is_false (r : option bool) : bool :=
  match r with
  | Some false => true
  | _ => false
  end.

Definition evaluateFilter (item : value) (expression : string) : result bool :=
  match filter_match expression with
  | None => Ok false
  | Some (property, operator, valueStr) =>
      itemValue <- member item property ;;
      let compareValue := parse_literal valueStr in
      if String.eqb operator "==" then loose_equal itemValue compareValue
      else if String.eqb operator "!=" then
        b <- loose_equal itemValue compareValue ;; Ok (negb b)
      else if String.eqb operator ">" then
        p <- ToPrimitive itemValue ;; Ok (is_true (less_than (literal_value compareValue) p))
      else if String.eqb operator "<" then
        p <- ToPrimitive itemValue ;; Ok (is_true (less_than p (literal_value compareValue)))
      else if String.eqb operator ">=" then
        p <- ToPrimitive itemValue ;; Ok (is_false (less_than p (literal_value compareValue)))
      else if String.eqb operator "<=" then
        p <- ToPrimitive itemValue ;; Ok (is_false (less_than (literal_value compareValue) p))
      else Ok false
  end.

(** ** JSONPath utilities: token application and the query *)

Inductive path_elem : Type :=
| PKey (k : string)
| PIndex (i : Z).

(** [[...currentPath, x]]; an [undefined] path is not iterable. *)
Definition spread (currentPath : option (list path_elem)) (x : path_elem)
    : result (list path_elem) :=
  match currentPath with
  | Some p => Ok (p ++ [x])
  | None => Throw NotIterable
  end.

(** The pair of arrays [values] and [paths] a token application fills. *)
Definition found : Type := list value * list (list path_elem).

Definition push (acc : found) (v : value) (p : list path_elem) : found :=
  (fst acc ++ [v], snd acc ++ [p]).

(** [collect] of the recursive descent. *)
Fixpoint collect (obj : value) (path : option (list path_elem)) (acc : found)
    {struct obj} : result found :=
  match obj with
  | VArr items =>
      (fix loop (l : list value) (i : nat) (acc : found) {struct l} : result found :=
         match l with
         | [] => Ok acc
         | item :: l' =>
             p <- spread path (PIndex (Z.of_nat i)) ;;
             acc' <- collect item (Some p) (push acc item p) ;;
             loop l' (S i) acc'
         end) items 0 acc
  | VObj entries =>
      (fix loop (l : list (string * value)) (acc : found) {struct l} : result found :=
         match l with
         | [] => Ok acc
         | kv :: l' =>
             p <- spread path (PKey (fst kv)) ;;
             acc' <- collect (snd kv) (Some p) (push acc (snd kv) p) ;;
             loop l' acc'
         end) entries acc
  | _ => Ok acc
  end.

(** The indices [start <= i < stop], ascending. *)
Definition range (start stop : Z) : list Z :=
  map (fun k => (start + Z.of_nat k)%Z) (seq 0 (Z.to_nat (stop - start))).

Definition applyToken (t : token) (current : value)
    (currentPath : option (list path_elem)) : result found :=
  match t with
  | TKey k =>
      if negb (is_null current) && String.eqb (typeof current) "object"
         && negb (isArray current)
      then
        if has_property current k then
          p <- spread currentPath (PKey k) ;; Ok ([get current k], [p])
        else Ok ([], [])
      else Ok ([], [])
  | TIndex (Some n) =>
      if isArray current && (0 <=? n)%Z && (n <? Z.of_nat (array_length current))%Z
      then p <- spread currentPath (PIndex n) ;; Ok ([array_get_Z current n], [p])
      else Ok ([], [])
  | TIndex None => Ok ([], [])
  | TWildcard =>
      if isArray current then
        foldM (fun acc i =>
                 p <- spread currentPath (PIndex (Z.of_nat i)) ;;
                 Ok (push acc (array_get current i) p))
              (seq 0 (array_length current)) ([], [])
      else if negb (is_null current) && String.eqb (typeof current) "object" then
        foldM (fun acc key =>
                 p <- spread currentPath (PKey key) ;;
                 Ok (push acc (get current key) p))
              (keys current) ([], [])
      else Ok ([], [])
  | TSlice start stop =>
      if isArray current then
        match (match start with Null => Some 0%Z | Parsed n => n end),
              (match stop with
               | Null => Some (Z.of_nat (array_length current))
               | Parsed n => n
               end) with
        | Some s, Some e =>
            foldM (fun acc i =>
                     p <- spread currentPath (PIndex i) ;;
                     Ok (push acc (array_get_Z current i) p))
                  (range s (Z.min e (Z.of_nat (array_length current)))) ([], [])
        | _, _ => Ok ([], [])
        end
      else Ok ([], [])
  | TRecursive => collect current currentPath ([], [])
  | TFilter filterExpr =>
      if isArray current then
        foldM (fun acc i =>
                 b <- evaluateFilter (array_get current i) filterExpr ;;
                 if b then
                   p <- spread currentPath (PIndex (Z.of_nat i)) ;;
                   Ok (push acc (array_get current i) p)
                 else Ok acc)
              (seq 0 (array_length current)) ([], [])
      else Ok ([], [])
  end.

(** What [queryJSONPath] returns: [{success: true, results, paths, count}]
    or [{success: false, error, results: [], count: 0}]. *)
Inductive query_result : Type :=
| Success (results : list value) (paths : list (list path_elem)) (count : nat)
| Failure (error : exn).

Definition success (r : query_result) : bool :=
  match r with
  | Success _ _ _ => true
  | Failure _ => false
  end.

Definition results (r : query_result) : list value :=
  match r with
  | Success rs _ _ => rs
  | Failure _ => []
  end.

Definition count (r : query_result) : nat :=
  match r with
  | Success _ _ c => c
  | Failure _ => 0
  end.

(** One turn of [for (const token of tokens)] on the variables [results]
    and [paths]. *)
Definition apply_to_all (t : token) (st : found) : result found :=
  let '(results, paths) := st in
  new <- foldM (fun (acc : found) i =>
                  let current := nth i results VUndefined in
                  let currentPath := nth_error paths i in
                  vp <- applyToken t current currentPath ;;
                  Ok (fst acc ++ fst vp, snd acc ++ snd vp))
               (seq 0 (length results)) ([], []) ;;
  let '(newResults, newPaths) := new in
  let results := newResults in
  let paths := paths ++ skipn (length results) newPaths in
  let paths := skipn (length paths - length results) paths in
  Ok (results, paths).

Definition run_tokens (tokens : list token) (st : found) : result found :=
  foldM (fun st t => apply_to_all t st) tokens st.

Definition queryJSONPath (json : value) (path : string) : query_result :=
  match run_tokens (tokenize path) ([json], [[PKey "$"]]) with
  | Ok (results, paths) =>
      Success results (firstn (length results) paths) (length results)
  | Throw error => Failure error
  end.

(** ** popup.js: serialization with a line map, and the line resolver *)

Definition newline : string := String (ascii_of_nat 10) EmptyString.

Fixpoint repeat_string (s : string) (n : nat) : string :=
  match n with
  | O => EmptyString
  | S n' => s +:+ repeat_string s n'
  end.

Definition hex_digit (n : nat) : ascii :=
  ascii_of_nat (if Nat.ltb n 10 then 48 + n else 87 + n).

(** QuoteJSONString, which is [JSON.stringify] of a string. *)
Fixpoint quote_chars (s : string) : string :=
  match s with
  | EmptyString => EmptyString
  | String c s' =>
      (if Nat.eqb (code c) 8 then "\b"
       else if Nat.eqb (code c) 9 then "\t"
       else if Nat.eqb (code c) 10 then "\n"
       else if Nat.eqb (code c) 12 then "\f"
       else if Nat.eqb (code c) 13 then "\r"
       else if Nat.eqb (code c) 34 then "\" +:+ double_quote
       else if Nat.eqb (code c) 92 then "\\"
       else if Nat.ltb (code c) 32 then
         "\u00" +:+ String (hex_digit (code c / 16))
                     (String (hex_digit (code c mod 16)) EmptyString)
       else String c EmptyString) +:+ quote_chars s'
  end.

Definition JSON_quote (s : string) : string :=
  double_quote +:+ quote_chars s +:+ double_quote.

(** [`${JSON.stringify(v)}`] for a [v] that is [null] or not an object. *)
Definition JSON_stringify_primitive (v : value) : string :=
  match v with
  | VNull => "null"
  | VBool true => "true"
  | VBool false => "false"
  | VNum (S754_nan) | VNum (S754_infinity _) => "null"
  | VNum x => Number_toString x
  | VStr s => JSON_quote s
  | _ => "undefined"
  end.

(** The two variables the closures of [stringifyWithPathMap] update. *)
Record printer : Type := {
  lines : list string;
  pathToLine : gmap string nat
}.

Definition addLine (text : string) (st : printer) : printer * nat :=
  ({| lines := lines st ++ [text]; pathToLine := pathToLine st |},
   length (lines st ++ [text])).

(** [if (path) pathToLine.set(path, lineNo)] *)
Definition set_line (path : string) (lineNo : nat) (st : printer) : printer :=
  match path with
  | EmptyString => st
  | _ => {| lines := lines st; pathToLine := <[path := lineNo]> (pathToLine st) |}
  end.

Fixpoint appendValue (indentText : string) (current : value) (path : string)
    (depth : nat) (addComma : bool) (key : option string) (st : printer)
    {struct current} : printer :=
  let prefix := repeat_string indentText depth in
  let keyPrefix := match key with
                   | Some k => JSON_quote k +:+ ": "
                   | None => EmptyString
                   end in
  let comma := if addComma then "," else EmptyString in
  match current with
  | VArr [] =>
      let '(st, lineNo) := addLine (prefix +:+ keyPrefix +:+ "[]" +:+ comma) st in
      set_line path lineNo st
  | VArr items =>
      let '(st, openLine) := addLine (prefix +:+ keyPrefix +:+ "[") st in
      let st := set_line path openLine st in
      let st :=
        (fix forEach (l : list value) (index : nat) (st : printer) {struct l} : printer :=
           match l with
           | [] => st
           | item :: l' =>
               let itemPath := match path with
                               | EmptyString => "[" +:+ string_of_nat index +:+ "]"
                               | _ => path +:+ "[" +:+ string_of_nat index +:+ "]"
                               end in
               forEach l' (S index)
                 (appendValue indentText item itemPath (S depth)
                    (Nat.ltb index (length items - 1)) None st)
           end) items 0 st in
      fst (addLine (prefix +:+ "]" +:+ comma) st)
  | VObj [] | VObjectPrototype =>
      let '(st, lineNo) := addLine (prefix +:+ keyPrefix +:+ "{}" +:+ comma) st in
      set_line path lineNo st
  | VObj entries =>
      let '(st, openLine) := addLine (prefix +:+ keyPrefix +:+ "{") st in
      let st := set_line path openLine st in
      let st :=
        (fix forEach (l : list (string * value)) (index : nat) (st : printer)
             {struct l} : printer :=
           match l with
           | [] => st
           | entry :: l' =>
               let childPath := match path with
                                | EmptyString => fst entry
                                | _ => path +:+ "." +:+ fst entry
                                end in
               forEach l' (S index)
                 (appendValue indentText (snd entry) childPath (S depth)
                    (Nat.ltb index (length entries - 1)) (Some (fst entry)) st)
           end) entries 0 st in
      fst (addLine (prefix +:+ "}" +:+ comma) st)
  | _ =>
      let '(st, lineNo) :=
        addLine (prefix +:+ keyPrefix +:+ JSON_stringify_primitive current +:+ comma) st in
      set_line path lineNo st
  end.

(** What [stringifyWithPathMap] returns: [{output, pathToLine}]. *)
Definition stringifyWithPathMap (value : value) (indent : nat) : string * gmap string nat :=
  let st := appendValue (repeat_string " " indent) value EmptyString 0 false None
              {| lines := []; pathToLine := ∅ |} in
  (join newline (lines st), pathToLine st).

(** The position of the match of [/\[\d+\]$/] in [s], if any. *)
Definition index_suffix_here (s : string) : bool :=
  match s with
  | String "[" r =>
      match span is_digit r with
      | (String _ _, String "]" EmptyString) => true
      | _ => false
      end
  | _ => false
  end.

Fixpoint index_suffix (s : string) : option nat :=
  if index_suffix_here s then Some 0
  else match s with
       | EmptyString => None
       | String _ s' => option_map S (index_suffix s')
       end.

Definition getParentPath (path : string) : string :=
  match path with
  | EmptyString => EmptyString
  | _ =>
      match index_suffix path with
      | Some i => substring 0 i path
      | None =>
          match lastIndexOf path "." with
          | None => EmptyString
          | Some dotIndex => slice path 0 (Some (Z.of_nat dotIndex))
          end
      end
  end.

(** The [while (currentPath)] loop; one unit of [fuel] per iteration. *)
Fixpoint resolve_loop (fuel : nat) (currentPath : string) (pathToLine : gmap string nat)
    : option nat :=
  match fuel with
  | O => None
  | S fuel' =>
      match currentPath with
      | EmptyString => Some 1
      | _ =>
          let currentPath := getParentPath currentPath in
          match pathToLine !! currentPath with
          | Some line => Some line
          | None => resolve_loop fuel' currentPath pathToLine
          end
      end
  end.

(** [resolvePathLine]: a parent is shorter than its path, so the length of
    [path] and one is fuel enough ([resolve_loop_total] below). *)
Definition resolvePathLine (path : string) (pathToLine : gmap string nat) : nat :=
  match path with
  | EmptyString => 1
  | _ =>
      match pathToLine !! path with
      | Some line => line
      | None =>
          match resolve_loop (S (String.length path)) path pathToLine with
          | Some line => line
          | None => 1
          end
      end
  end.

(** ** Definitions that follow the words of the specification *)

(** The numbers of the scenarios. *)
Definition num (n : Z) : value := VNum (Z2F n).

(** nodeCount of the specification: a primitive or null counts 1, an array
    1 and its elements, an object its keys and its values. *)
Fixpoint spec_nodeCount (v : value) : Z :=
  match v with
  | VArr items => (1 + fold_right Z.add 0 (map spec_nodeCount items))%Z
  | VObj entries =>
      (Z.of_nat (length entries)
       + fold_right Z.add 0 (map (fun kv => spec_nodeCount (snd kv)) entries))%Z
  | VObjectPrototype => 0%Z
  | _ => 1%Z
  end.

(** The similarity of the specification, in exact arithmetic: 100 for an
    empty total, otherwise the raw percentage clamped to [0, 100] and rounded
    half up. *)
Definition spec_similarity (left right : value) : Z :=
  let total := (spec_nodeCount left + spec_nodeCount right)%Z in
  let changeCount := Z.of_nat (length (diffJSON left right)) in
  if (total =? 0)%Z then 100%Z
  else
    let raw := ((inject_Z (total - changeCount * 2) / inject_Z total) * 100)%Q in
    let clamped := if Qle_bool raw 0 then 0%Q
                   else if Qle_bool 100 raw then 100%Q else raw in
    Qfloor (clamped + (1 # 2)).

(** The same with the raw percentage computed as the number type does: a
    division and a multiplication of binary64, each rounded to nearest. *)
Definition spec_similarity_binary64 (left right : value) : number :=
  let total := (spec_nodeCount left + spec_nodeCount right)%Z in
  let changeCount := Z.of_nat (length (diffJSON left right)) in
  if (total =? 0)%Z then Z2F 100
  else
    let raw := SFmul prec emax
                 (SFdiv prec emax (Z2F (total - changeCount * 2)) (Z2F total))
                 (Z2F 100) in
    Math_round (Math_max (Z2F 0) (Math_min (Z2F 100) raw)).

(** Two arrays of 39 numbers that differ in their first 17: 80 nodes and 17
    changes. *)
Definition rounding_left : value := VArr (map (fun i => num (Z.of_nat i)) (seq 0 39)).
Definition rounding_right : value :=
  VArr (map (fun i => num (Z.of_nat (if Nat.ltb i 17 then i + 100 else i))) (seq 0 39)).

(** Deep equality of two values: equal leaves, arrays equal element by
    element, objects with the same keys and deep-equal values under each
    key, in whatever order the keys come. *)
Fixpoint deep_equal (a b : value) {struct a} : bool :=
  match a, b with
  | VUndefined, VUndefined | VNull, VNull | VObjectPrototype, VObjectPrototype => true
  | VBool x, VBool y => Bool.eqb x y
  | VNum x, VNum y => num_eqb x y
  | VStr x, VStr y => String.eqb x y
  | VFunction f, VFunction g => String.eqb f g
  | VArr l1, VArr l2 =>
      (fix all2 (l1 l2 : list value) {struct l1} : bool :=
         match l1, l2 with
         | [], [] => true
         | x :: l1', y :: l2' => deep_equal x y && all2 l1' l2'
         | _, _ => false
         end) l1 l2
  | VObj e1, VObj e2 =>
      forallb (fun k => existsb (String.eqb k) (map fst e1)) (map fst e2)
      && (fix all (l : list (string * value)) {struct l} : bool :=
            match l with
            | [] => true
            | kv :: l' =>
                match own e2 (fst kv) with
                | Some w => deep_equal (snd kv) w
                | None => false
                end && all l'
            end) e1
  | _, _ => false
  end.

(** No NaN inside: true of every value [JSON.parse] builds. *)
Fixpoint nan_free (v : value) : bool :=
  match v with
  | VNum x => negb (is_nan x)
  | VArr items => forallb nan_free items
  | VObj entries => forallb (fun kv => nan_free (snd kv)) entries
  | _ => true
  end.

(** The QueryResult list of the specification: each value with its path,
    which the code spells with the root marker [$] in front. *)
Definition matches (r : query_result) : list (value * list path_elem) :=
  match r with
  | Success rs ps _ => combine rs (map (skipn 1) ps)
  | Failure _ => []
  end.

(** The conditions under which a token finds nothing in a candidate. *)
Definition no_match (t : token) (v : value) : bool :=
  match t with
  | TKey k =>
      negb (negb (is_null v) && String.eqb (typeof v) "object" && negb (isArray v)
            && has_property v k)
  | TIndex (Some n) =>
      negb (isArray v && (0 <=? n)%Z && (n <? Z.of_nat (array_length v))%Z)
  | TIndex None => true
  | TSlice _ _ => negb (isArray v)
  | TFilter expression =>
      negb (isArray v)
      || match filter_match expression with
         | None => true
         | Some _ => false
         end
  | TWildcard | TRecursive => false
  end.

(** What the walk over two non-array objects emits for one key. *)
Definition key_changes (o1 o2 : value) (path key : string) : list change :=
  let newPath := match path with
                 | EmptyString => key
                 | _ => path +:+ "." +:+ key
                 end in
  if negb (has_property o1 key) then
    [ {| change_type_of := added; change_path := newPath;
         change_old := None; change_new := Some (get o2 key);
         change_message := newPath +:+ ": +" +:+ formatValue (get o2 key) |} ]
  else if negb (has_property o2 key) then
    [ {| change_type_of := removed; change_path := newPath;
         change_old := Some (get o1 key); change_new := None;
         change_message := newPath +:+ ": -" +:+ formatValue (get o1 key) |} ]
  else compare (get o1 key) (get o2 key) newPath [].

Definition scenario_A_left : value := VObj [("a", num 1); ("b", num 2)].
Definition scenario_A_right : value := VObj [("a", num 1); ("b", num 3); ("c", num 4)].
Definition scenario_B_root : value :=
  VObj [("items", VArr [VObj [("id", num 1)]; VObj [("id", num 2)]; VObj [("id", num 3)]])].
Definition scenario_D_value : value := VObj [("a", VObj [("b", num 1)])].

(** A pointwise test on two lists of the same length. *)
Fixpoint forall2b {A B : Type} (f : A -> B -> bool) (l1 : list A) (l2 : list B) : bool :=
  match l1, l2 with
  | [], [] => true
  | x :: l1', y :: l2' => f x y && forall2b f l1' l2'
  | _, _ => false
  end.

(** ** JSON.stringify *)

(** The text between the brackets of an array or of an object: the
    members in [partial], one to a line when there is a [gap]. *)
Definition JSON_wrap (gap stepback : string) (opening closing : string)
    (partial : list string) : string :=
  let indent := stepback +:+ gap in
  match partial with
  | [] => opening +:+ closing
  | _ =>
      match gap with
      | EmptyString => opening +:+ join "," partial +:+ closing
      | _ =>
          opening +:+ newline +:+ indent
          +:+ join ("," +:+ newline +:+ indent) partial
          +:+ newline +:+ stepback +:+ closing
      end
  end.

(** SerializeJSONProperty with the indentation unit [gap] at the current
    indentation [indent]; [None] is [undefined].  The own properties of a
    parsed document hold JSON data, so that no member [toJSON] is
    callable. *)
Fixpoint JSON_serialize (gap indent : string) (v : value) {struct v} : option string :=
  match v with
  | VUndefined | VFunction _ => None
  | VArr items =>
      Some (JSON_wrap gap indent "[" "]"
              ((fix each (l : list value) {struct l} : list string :=
                  match l with
                  | [] => []
                  | x :: l' =>
                      match JSON_serialize gap (indent +:+ gap) x with
                      | Some s => s
                      | None => "null"
                      end :: each l'
                  end) items))
  | VObj entries =>
      Some (JSON_wrap gap indent "{" "}"
              ((fix each (l : list (string * value)) {struct l} : list string :=
                  match l with
                  | [] => []
                  | kv :: l' =>
                      match JSON_serialize gap (indent +:+ gap) (snd kv) with
                      | Some s =>
                          [JSON_quote (fst kv) +:+ ":"
                           +:+ match gap with
                               | EmptyString => EmptyString
                               | _ => " "
                               end +:+ s]
                      | None => []
                      end ++ each l'
                  end) entries))
  | VObjectPrototype => Some "{}"
  | _ => Some (JSON_stringify_primitive v)
  end.

(** [JSON.stringify(v, null, space)] for a number of spaces, of which at
    most ten count. *)
Definition JSON_stringify (v : value) (space : nat) : option string :=
  JSON_serialize (repeat_string " " (Nat.min space 10)) EmptyString v.

(** ** JSONPath utilities: displaying a result, and the suggestions *)

(** The text of [error.message] for the TypeErrors a query catches; the
    wording is the engine's. *)
Context (error_message : exn -> string).

(** An element of a path as [join] prints it. *)
Definition path_elem_to_string (x : path_elem) : string :=
  match x with
  | PKey k => k
  | PIndex i => string_of_Z i
  end.

Fixpoint map_result {A B : Type} (f : A -> result B) (l : list A) : result (list B) :=
  match l with
  | [] => Ok []
  | a :: l' => b <- f a ;; bs <- map_result f l' ;; Ok (b :: bs)
  end.

(** [typeof item === 'object' ? JSON.stringify(item, null, 2) : String(item)],
    as a template prints it. *)
Definition display_value (item : value) : result string :=
  if String.eqb (typeof item) "object" then
    Ok (match JSON_stringify item 2 with
        | Some s => s
        | None => "undefined"
        end)
  else ToString item.

(** [formatQueryResult]; reading [join] of a path that is [undefined]
    throws. *)
Definition formatQueryResult (r : query_result) : result string :=
  match r with
  | Failure error => Ok ("Error: " +:+ error_message error)
  | Success results paths count =>
      if Nat.eqb count 0 then Ok "No results found"
      else
        output <- map_result
                    (fun '(item, index) =>
                       value <- display_value item ;;
                       match nth_error paths index with
                       | Some path =>
                           Ok ("Path: " +:+ join "." (map path_elem_to_string path)
                               +:+ newline +:+ "Value: " +:+ value)
                       | None => Throw (CannotReadProperty "join")
                       end)
                    (combine results (seq 0 (length results))) ;;
        Ok ("Found " +:+ string_of_nat count +:+ " result(s):" +:+ newline +:+ newline
            +:+ join (newline +:+ newline +:+ "---" +:+ newline +:+ newline) output)
  end.

(** [current[k]] for a [current] that is neither [undefined] nor [null],
    where the read returns. *)
Definition property (current : value) (k : string) : value :=
  match member current k with
  | Ok v => v
  | Throw _ => VUndefined
  end.

(** [Object.keys(v)]; [None] is the TypeError for [undefined] and [null]. *)
Definition Object_keys (v : value) : option (list string) :=
  match v with
  | VUndefined | VNull => None
  | VArr items => Some (map string_of_nat (seq 0 (length items)))
  | VStr s => Some (map string_of_nat (seq 0 (String.length s)))
  | VObj _ => Some (keys v)
  | _ => Some []
  end.

(** One turn of the loop of [getPathSuggestions] over the tokens. *)
Definition follow (current : value) (t : token) : value :=
  match t with
  | TKey k =>
      if negb (is_null current) && String.eqb (typeof current) "object"
      then property current k
      else current
  | TIndex n =>
      if isArray current then
        match n with
        | Some n => array_get_Z current n
        | None => VUndefined
        end
      else current
  | _ => current
  end.

(** The suggestions at a value; [None] when [Object.keys] throws. *)
Definition suggest (current : value) : option (list string) :=
  if negb (is_null current) && String.eqb (typeof current) "object" then
    if isArray current then
      let suggestions :=
        ["[" +:+ string_of_Z (Z.of_nat (array_length current) - 1) +:+ "]"; "[*]"] in
      if Nat.ltb 0 (array_length current)
         && String.eqb (typeof (array_get current 0)) "object"
      then
        match Object_keys (array_get current 0) with
        | Some ks => Some (suggestions ++ map (fun key => "[*]." +:+ key) ks)
        | None => None
        end
      else Some suggestions
    else Some (map (fun key => "." +:+ key) (keys current) ++ [".*"])
  else Some [].

Definition getPathSuggestions (json : value) (partialPath : string) : option (list string) :=
  suggest (fold_left follow (tokenize partialPath) json).

(** ** formatter.js: statistics, sorted keys, the position of an error *)

Fixpoint countKeys (obj : value) : Z :=
  match obj with
  | VArr items => fold_left (fun sum item => (sum + countKeys item)%Z) items 0%Z
  | VObj entries =>
      (Z.of_nat (length (keys obj))
       + fold_left (fun sum kv => (sum + countKeys (snd kv))%Z) entries 0)%Z
  | _ => 0%Z
  end.

(** [Math.max(...l)] for a list that is not empty. *)
Definition max_of (first : Z) (others : list Z) : Z := fold_left Z.max others first.

Fixpoint getDepth (obj : value) : Z :=
  match obj with
  | VArr items =>
      match map getDepth items with
      | [] => 1%Z
      | d :: ds => (1 + max_of d ds)%Z
      end
  | VObj entries =>
      match map (fun kv => getDepth (snd kv)) entries with
      | [] => 1%Z
      | d :: ds => (1 + max_of d ds)%Z
      end
  | VObjectPrototype => 1%Z
  | _ => 0%Z
  end.

(** [keys.sort()]: ascending by code units.  The keys of an object are
    distinct, so that the order alone decides the outcome. *)
Fixpoint insert_sorted (k : string) (l : list string) : list string :=
  match l with
  | [] => [k]
  | x :: l' => if string_ltb k x then k :: l else x :: insert_sorted k l'
  end.

Definition sort (l : list string) : list string := fold_right insert_sorted [] l.

(** An array index: the canonical numeral of an integer below 2^32 - 1. *)
Definition index_key (k : string) : option Z :=
  if all_digits k && (String.eqb k "0" || negb (startsWith k "0"))
     && (digits_value 10 k <? 2 ^ 32 - 1)%Z
  then Some (digits_value 10 k)
  else None.

(** The place of a new property whose name is the array index [i]: before
    the first property that is no smaller index. *)
Fixpoint place (i : Z) (key : string) (v : value) (entries : list (string * value))
    : list (string * value) :=
  match entries with
  | [] => [(key, v)]
  | kw :: rest =>
      match index_key (fst kw) with
      | Some j => if (j <? i)%Z then kw :: place i key v rest else (key, v) :: entries
      | None => (key, v) :: entries
      end
  end.

Fixpoint update (entries : list (string * value)) (key : string) (v : value)
    : list (string * value) :=
  match entries with
  | [] => []
  | kw :: rest =>
      if String.eqb (fst kw) key then (key, v) :: rest else kw :: update rest key v
  end.

(** [sorted[key] = v] on the own properties of an object made by [{}]: the
    array indices come first and ascend, the other names follow in the order
    of their creation.  The name [__proto__] is the accessor of
    [Object.prototype]: assigning to it creates no property. *)
Definition assign (entries : list (string * value)) (key : string) (v : value)
    : list (string * value) :=
  if String.eqb key "__proto__" then entries
  else
    match own entries key with
    | Some _ => update entries key v
    | None =>
        match index_key key with
        | Some i => place i key v entries
        | None => entries ++ [(key, v)]
        end
    end.

(** [sortObjectKeys].  [obj[key]] is the own property [key]; its sorted copy
    is looked up among the sorted copies of the entries. *)
Fixpoint sortObjectKeys (obj : value) : value :=
  match obj with
  | VArr items => VArr (map sortObjectKeys items)
  | VObj entries =>
      let copies := map (fun kv => (fst kv, sortObjectKeys (snd kv))) entries in
      VObj (fold_left
              (fun sorted key =>
                 match own copies key with
                 | Some v => assign sorted key v
                 | None => sorted
                 end)
              (sort (map fst entries)) [])
  | VObjectPrototype => VObj []
  | _ => obj
  end.

(** The first group of the leftmost match of [/position (\d+)/]. *)
Fixpoint position_match (message : string) : option string :=
  match
    match strip_prefix "position " message with
    | Some r =>
        match fst (span is_digit r) with
        | EmptyString => None
        | digits => Some digits
        end
    | None => None
    end
  with
  | Some digits => Some digits
  | None =>
      match message with
      | EmptyString => None
      | String _ message' => position_match message'
      end
  end.

Record error_position : Type := {
  position_line : nat;
  position_column : nat;
  position_index : option Z
}.

(** [getErrorPosition(error, input)] for an error with the given
    [message]; [substring] clamps the position to the length of [input]. *)
Definition getErrorPosition (message input : string) : option error_position :=
  match position_match message with
  | Some digits =>
      let position := parseInt digits in
      let stop := match position with
                  | Some p => Z.to_nat (Z.min p (Z.of_nat (String.length input)))
                  | None => 0
                  end in
      let lines := split (ascii_of_nat 10) (substring 0 stop input) in
      Some {| position_line := length lines;
              position_column := String.length (List.last lines EmptyString) + 1;
              position_index := position |}
  | None => None
  end.

(** ** formatter.js: the diff as HTML *)

(** [s.replace(/c/g, by)] for a character [c] and a replacement without [$]. *)
Fixpoint replace_all (c : ascii) (by_ : string) (s : string) : string :=
  match s with
  | EmptyString => EmptyString
  | String d s' =>
      (if Ascii.eqb d c then by_ else String d EmptyString) +:+ replace_all c by_ s'
  end.

Definition escapeHtml (str : string) : string :=
  replace_all (ascii_of_nat 34) "&quot;"
    (replace_all ">" "&gt;" (replace_all "<" "&lt;" (replace_all "&" "&amp;" str))).

Definition is_type (t : change_type) (c : change) : bool :=
  match t, change_type_of c with
  | added, added | removed, removed | changed, changed => true
  | _, _ => false
  end.

(** One box of the output: [<div class="diff-item CLASS"><span
    class="diff-icon">ICON</span><strong>LABEL:</strong> MESSAGE</div>]. *)
Definition diff_item (class icon label message : string) : string :=
  "<div class=" +:+ double_quote +:+ "diff-item " +:+ class +:+ double_quote
  +:+ "><span class=" +:+ double_quote +:+ "diff-icon" +:+ double_quote +:+ ">"
  +:+ icon +:+ "</span><strong>" +:+ label +:+ ":</strong> "
  +:+ escapeHtml message +:+ "</div>".

(** The closing box, with the counts of the three groups. *)
Definition diff_summary (summary : list string) : string :=
  "<div class=" +:+ double_quote +:+ "diff-item" +:+ double_quote
  +:+ " style=" +:+ double_quote
  +:+ "margin-top: 12px; padding-top: 12px; border-top: 1px solid var(--border-color);"
  +:+ double_quote +:+ "><strong>Summary:</strong> " +:+ join ", " summary +:+ "</div>".

Definition formatDiffOutput (changes : list change) : string :=
  match changes with
  | [] =>
      "<div class=" +:+ double_quote +:+ "diff-item unchanged" +:+ double_quote
      +:+ "><span class=" +:+ double_quote +:+ "diff-icon" +:+ double_quote
      +:+ ">⚪</span>No differences found</div>"
  | _ =>
      let added_ := List.filter (is_type added) changes in
      let removed_ := List.filter (is_type removed) changes in
      let changed_ := List.filter (is_type changed) changes in
      let output := EmptyString in
      let output :=
        fold_left (fun output change =>
                     output +:+ diff_item "added" "🟢" "Added" (change_message change))
                  added_ output in
      let output :=
        fold_left (fun output change =>
                     output +:+ diff_item "removed" "🔴" "Removed" (change_message change))
                  removed_ output in
      let output :=
        fold_left (fun output change =>
                     output +:+ diff_item "changed" "🟡" "Changed" (change_message change))
                  changed_ output in
      let summary := [] in
      let summary :=
        if Nat.ltb 0 (length added_)
        then summary ++ [string_of_nat (length added_) +:+ " added"] else summary in
      let summary :=
        if Nat.ltb 0 (length removed_)
        then summary ++ [string_of_nat (length removed_) +:+ " removed"] else summary in
      let summary :=
        if Nat.ltb 0 (length changed_)
        then summary ++ [string_of_nat (length changed_) +:+ " changed"] else summary in
      output +:+ diff_summary summary
  end.

(** ** popup.js: the highlighted lines of the two editors *)

Inductive line_kind : Type :=
| diff_inline_added
| diff_inline_removed
| diff_inline_changed.

Definition priority (kind : line_kind) : nat :=
  match kind with
  | diff_inline_added => 1
  | diff_inline_removed => 2
  | diff_inline_changed => 3
  end.

Definition setLineKind (targetMap : gmap nat line_kind) (line : nat) (kind : line_kind)
    : gmap nat line_kind :=
  match targetMap !! line with
  | Some previous =>
      if Nat.ltb (priority previous) (priority kind)
      then <[line := kind]> targetMap
      else targetMap
  | None => <[line := kind]> targetMap
  end.

(** One turn of [for (const change of changes)] on the maps [left] and
    [right]. *)
Definition collect_change (leftPathToLine rightPathToLine : gmap string nat)
    (maps : gmap nat line_kind * gmap nat line_kind) (c : change)
    : gmap nat line_kind * gmap nat line_kind :=
  match change_type_of c with
  | changed =>
      let leftLine := resolvePathLine (change_path c) leftPathToLine in
      let rightLine := resolvePathLine (change_path c) rightPathToLine in
      (setLineKind (fst maps) leftLine diff_inline_changed,
       setLineKind (snd maps) rightLine diff_inline_changed)
  | removed =>
      let leftLine := resolvePathLine (change_path c) leftPathToLine in
      (setLineKind (fst maps) leftLine diff_inline_removed, snd maps)
  | added =>
      let rightLine := resolvePathLine (change_path c) rightPathToLine in
      (fst maps, setLineKind (snd maps) rightLine diff_inline_added)
  end.

(** What [collectDiffLineKinds] returns: [{left, right}]. *)
Definition collectDiffLineKinds (changes : list change)
    (leftPathToLine rightPathToLine : gmap string nat)
    : gmap nat line_kind * gmap nat line_kind :=
  fold_left (collect_change leftPathToLine rightPathToLine) changes (∅, ∅).

(** ** Parsed documents *)

(** What [JSON.parse] builds: no [undefined], no function, no built-in
    object. *)
Fixpoint is_json (v : value) : bool :=
  match v with
  | VUndefined | VFunction _ | VObjectPrototype => false
  | VArr items => forallb is_json items
  | VObj entries => forallb (fun kv => is_json (snd kv)) entries
  | _ => true
  end.

(** The keys of every object are distinct, as the names of the properties
    of an object are. *)
Fixpoint distinct_keys (v : value) : Prop :=
  match v with
  | VArr items =>
      (fix all (l : list value) : Prop :=
         match l with
         | [] => True
         | x :: l' => distinct_keys x /\ all l'
         end) items
  | VObj entries =>
      List.NoDup (map fst entries)
      /\ (fix all (l : list (string * value)) : Prop :=
            match l with
            | [] => True
            | kv :: l' => distinct_keys (snd kv) /\ all l'
            end) entries
  | _ => True
  end.

(** No key of the document is the name of a member of [Object.prototype]. *)
Fixpoint plain_keys (v : value) : bool :=
  match v with
  | VArr items => forallb plain_keys items
  | VObj entries =>
      forallb (fun kv => negb (in_object_prototype (fst kv)) && plain_keys (snd kv)) entries
  | _ => true
  end.

(** A key that [tokenize] reads back as itself after a dot. *)
Definition simple_key (k : string) : bool :=
  match k with
  | EmptyString => false
  | String c _ =>
      negb (Ascii.eqb c "*")
      && match span identifier_char k with
         | (_, EmptyString) => true
         | _ => false
         end
  end.

(** The tokens [getPathSuggestions] follows. *)
Definition is_step (t : token) : bool :=
  match t with
  | TKey _ | TIndex _ => true
  | _ => false
  end.

(** ** Invariants of the query loop *)

(** As many paths as values. *)
Definition balanced (acc : found) : Prop := length (fst acc) = length (snd acc).

(** What the variables [results] and [paths] hold between two tokens: no
    candidate and no path, or candidates and the one path of the root. *)
Definition root_path_only (st : found) : Prop :=
  (fst st = [] /\ snd st = []) \/ (fst st <> [] /\ snd st = [[PKey "$"]]).

(** ** The highlighted lines, as a function of the changes *)

(** The kind a line takes when [kind] arrives on what it held. *)
Definition stronger (previous : option line_kind) (kind : line_kind) : line_kind :=
  match previous with
  | Some previous => if Nat.ltb (priority previous) (priority kind) then kind else previous
  | None => kind
  end.

(** The kind under which a change is shown in the left editor and in the
    right one, if it is shown there. *)
Definition left_kind (c : change) : option line_kind :=
  match change_type_of c with
  | changed => Some diff_inline_changed
  | removed => Some diff_inline_removed
  | added => None
  end.

Definition right_kind (c : change) : option line_kind :=
  match change_type_of c with
  | changed => Some diff_inline_changed
  | removed => None
  | added => Some diff_inline_added
  end.

(** The loop of [collectDiffLineKinds] as one editor sees it: [shown] is
    the kind under which a change is shown there, [line_of] its line. *)
Definition mark_lines (shown : change -> option line_kind) (line_of : change -> nat)
    (changes : list change) (m : gmap nat line_kind) : gmap nat line_kind :=
  fold_left (fun m c => match shown c with
                        | Some kind => setLineKind m (line_of c) kind
                        | None => m
                        end) changes m.

(** Some change of [changes] of the given type resolves to [line]. *)
Definition lands (t : change_type) (pathToLine : gmap string nat) (changes : list change)
    (line : nat) : Prop :=
  exists c, In c changes /\ change_type_of c = t
            /\ resolvePathLine (change_path c) pathToLine = line.

(** ** The serialization as a list of lines *)

(** A loop over the elements of a list with their indices, on a state and
    on a list of outputs. *)
Definition for_each {A St : Type} (f : nat -> A -> St -> St) : list A -> nat -> St -> St :=
  fix loop (l : list A) (index : nat) (st : St) {struct l} : St :=
    match l with
    | [] => st
    | x :: l' => loop l' (S index) (f index x st)
    end.

Definition each {A B : Type} (f : nat -> A -> list B) : list A -> nat -> list B :=
  fix loop (l : list A) (index : nat) {struct l} : list B :=
    match l with
    | [] => []
    | x :: l' => f index x ++ loop l' (S index)
    end.

Definition itemPath (path : string) (index : nat) : string :=
  match path with
  | EmptyString => "[" +:+ string_of_nat index +:+ "]"
  | _ => path +:+ "[" +:+ string_of_nat index +:+ "]"
  end.

Definition childPath (path : string) (childKey : string) : string :=
  match path with
  | EmptyString => childKey
  | _ => path +:+ "." +:+ childKey
  end.

(** The lines [appendValue] adds for a value, each with the path it records
    for the line (the empty path where it records none). *)
Fixpoint rendering (indentText : string) (current : value) (path : string)
    (depth : nat) (addComma : bool) (key : option string) {struct current}
    : list (string * string) :=
  let prefix := repeat_string indentText depth in
  let keyPrefix := match key with
                   | Some k => JSON_quote k +:+ ": "
                   | None => EmptyString
                   end in
  let comma := if addComma then "," else EmptyString in
  match current with
  | VArr [] => [(prefix +:+ keyPrefix +:+ "[]" +:+ comma, path)]
  | VArr items =>
      (prefix +:+ keyPrefix +:+ "[", path)
      :: (fix each (l : list value) (index : nat) {struct l} : list (string * string) :=
            match l with
            | [] => []
            | item :: l' =>
                rendering indentText item (itemPath path index) (S depth)
                  (Nat.ltb index (length items - 1)) None
                ++ each l' (S index)
            end) items 0
      ++ [(prefix +:+ "]" +:+ comma, EmptyString)]
  | VObj [] | VObjectPrototype => [(prefix +:+ keyPrefix +:+ "{}" +:+ comma, path)]
  | VObj entries =>
      (prefix +:+ keyPrefix +:+ "{", path)
      :: (fix each (l : list (string * value)) (index : nat) {struct l}
              : list (string * string) :=
            match l with
            | [] => []
            | entry :: l' =>
                rendering indentText (snd entry) (childPath path (fst entry)) (S depth)
                  (Nat.ltb index (length entries - 1)) (Some (fst entry))
                ++ each l' (S index)
            end) entries 0
      ++ [(prefix +:+ "}" +:+ comma, EmptyString)]
  | _ => [(prefix +:+ keyPrefix +:+ JSON_stringify_primitive current +:+ comma, path)]
  end.

(** One line added, and its number recorded for the path. *)
Definition emit (st : printer) (line : string * string) : printer :=
  set_line (snd line) (snd (addLine (fst line) st)) (fst (addLine (fst line) st)).


(** The number of lines of a text. *)
Definition line_count (text : string) : nat := length (split (ascii_of_nat 10) text).

(** ** Escaping, one character at a time *)

(** The entity of a character, or the character itself. *)
Definition escape_char (c : ascii) : string :=
  if Ascii.eqb c "&" then "&amp;"
  else if Ascii.eqb c "<" then "&lt;"
  else if Ascii.eqb c ">" then "&gt;"
  else if Ascii.eqb c (ascii_of_nat 34) then "&quot;"
  else String c EmptyString.

Fixpoint escape_each (s : string) : string :=
  match s with
  | EmptyString => EmptyString
  | String c s' => escape_char c +:+ escape_each s'
  end.

(** ** Sorted keys *)

(** No key of the document is [__proto__], the one name an assignment does
    not create. *)
Fixpoint no_proto_key (v : value) : bool :=
  match v with
  | VArr items => forallb no_proto_key items
  | VObj entries =>
      forallb (fun kv => negb (String.eqb (fst kv) "__proto__") && no_proto_key (snd kv))
              entries
  | _ => true
  end.

(** [a] does not come after [b]. *)
Definition string_le (a b : string) : Prop := string_ltb b a = false.

(** The order of the own property names: the array indices by their value,
    then the other names. *)
Definition is_index (k : string) : bool :=
  match index_key k with
  | Some _ => true
  | None => false
  end.

Definition index_le (a b : string) : Prop :=
  match index_key a, index_key b with
  | Some i, Some j => (i <= j)%Z
  | _, _ => True
  end.

(** The keys of an object in the order of [Object.keys]: array indices that
    ascend, then the other names, ascending by code units. *)
Definition keys_in_order (ks : list string) : Prop :=
  exists indices names,
    ks = indices ++ names
    /\ Forall (fun k => is_index k = true) indices
    /\ Forall (fun k => is_index k = false) names
    /\ StronglySorted index_le indices
    /\ StronglySorted string_le names.

(** The depth of a container whose members have the depths [l]. *)
Definition depth_of (l : list Z) : Z :=
  match l with
  | [] => 1%Z
  | d :: ds => (1 + max_of d ds)%Z
  end.


(** * Properties *)

(** ** Induction on values *)

Lemma value_ind' (P : value -> Prop) :
  P VUndefined -> P VNull -> (forall b, P (VBool b)) -> (forall x, P (VNum x)) ->
  (forall s, P (VStr s)) ->
  (forall items, Forall P items -> P (VArr items)) ->
  (forall entries, Forall (fun kv => P (snd kv)) entries -> P (VObj entries)) ->
  (forall name, P (VFunction name)) -> P VObjectPrototype ->
  forall v, P v.
Proof.
  intros Hu Hn Hb Hx Hs Ha Ho Hf Hp.
  fix IH 1. intros [ | | b | x | s | items | entries | name | ].
  - exact Hu.
  - exact Hn.
  - apply Hb.
  - apply Hx.
  - apply Hs.
  - apply Ha. induction items as [|v items IHl]; constructor; [apply IH | exact IHl].
  - apply Ho. induction entries as [|[k v] entries IHl]; constructor; [apply IH | exact IHl].
  - apply Hf.
  - exact Hp.
Qed.

(** ** The diff engine: [compare] satisfies the equation of the source *)

Lemma fold_left_ext_in {A B : Type} (f g : A -> B -> A) (l : list B) :
  (forall a x, In x l -> f a x = g a x) ->
  forall a, fold_left f l a = fold_left g l a.
Proof.
  induction l as [|x l IH]; intros H a; simpl; [reflexivity|].
  rewrite (H a x (or_introl eq_refl)). apply IH.
  intros a' y Hy. apply H. right. exact Hy.
Qed.

Lemma rank_nth (l : list value) (i : nat) :
  rank (nth i l VUndefined) <= list_sum (map rank l).
Proof.
  revert i. induction l as [|v l IH]; intros [|i]; simpl; try lia.
  specialize (IH i). lia.
Qed.

Lemma rank_own (entries : list (string * value)) (k : string) (v : value) :
  own entries k = Some v ->
  rank v <= list_sum (map (fun kv => rank (snd kv)) entries).
Proof.
  induction entries as [|[k' w] entries IH]; simpl; [discriminate|].
  destruct (String.eqb k' k).
  - intros [= ->]. lia.
  - intros H. specialize (IH H). lia.
Qed.

(** A non-array object is a JSON object or [Object.prototype]. *)
Lemma plain_object_cases (o : value) :
  is_null o = false -> String.eqb (typeof o) "object" = true -> isArray o = false ->
  (exists entries, o = VObj entries) \/ o = VObjectPrototype.
Proof.
  destruct o; simpl; try discriminate; eauto.
Qed.

Lemma rank_get (o : value) (k : string) :
  is_null o = false -> String.eqb (typeof o) "object" = true -> isArray o = false ->
  rank (get o k) < rank o.
Proof.
  intros Hn Ht Ha.
  destruct (plain_object_cases o Hn Ht Ha) as [[entries ->] | ->]; simpl.
  - destruct (own entries k) as [v|] eqn:E.
    + pose proof (rank_own _ _ _ E). lia.
    + destruct (String.eqb k "__proto__"); [simpl; lia|].
      destruct (in_object_prototype k); simpl; lia.
  - destruct (String.eqb k "__proto__"); [simpl; lia|].
    destruct (in_object_prototype k); simpl; lia.
Qed.

Lemma compare_body_ext (f g : value -> value -> string -> list change -> list change)
    (o1 o2 : value) (path : string) (changes : list change) :
  (forall a b p c, rank a + rank b < rank o1 + rank o2 -> f a b p c = g a b p c) ->
  compare_body f o1 o2 path changes = compare_body g o1 o2 path changes.
Proof.
  intros H. unfold compare_body.
  destruct (is_null o1 && is_null o2) eqn:E1; [reflexivity|].
  destruct (is_null o1 || is_null o2) eqn:E2; [reflexivity|].
  apply orb_false_elim in E2 as [N1 N2].
  destruct (negb (String.eqb (typeof o1) (typeof o2))) eqn:E3; [reflexivity|].
  destruct (negb (String.eqb (typeof o1) "object")) eqn:E4; [reflexivity|].
  destruct (negb (Bool.eqb (isArray o1) (isArray o2))) eqn:E5; [reflexivity|].
  apply negb_false_iff in E3, E4, E5.
  apply eqb_prop in E5. apply String.eqb_eq in E3.
  assert (T2 : String.eqb (typeof o2) "object" = true) by (rewrite <- E3; exact E4).
  destruct (isArray o1) eqn:A1.
  - apply fold_left_ext_in. intros c i _.
    destruct (Nat.leb (array_length o1) i); [reflexivity|].
    destruct (Nat.leb (array_length o2) i); [reflexivity|].
    apply H.
    destruct o1 as [ | | | | | l1 | | | ]; try discriminate.
    destruct o2 as [ | | | | | l2 | | | ]; try discriminate.
    simpl. pose proof (rank_nth l1 i). pose proof (rank_nth l2 i). lia.
  - apply fold_left_ext_in. intros c key _.
    destruct (negb (has_property o1 key)); [reflexivity|].
    destruct (negb (has_property o2 key)); [reflexivity|].
    apply H.
    pose proof (rank_get o1 key N1 E4 A1).
    pose proof (rank_get o2 key N2 T2 (eq_sym E5)). lia.
Qed.

Lemma compare_fuel_enough (n m : nat) (o1 o2 : value) (path : string)
    (changes : list change) :
  rank o1 + rank o2 < n -> rank o1 + rank o2 < m ->
  compare_fuel n o1 o2 path changes = compare_fuel m o1 o2 path changes.
Proof.
  revert m o1 o2 path changes.
  induction n as [|n IH]; intros [|m] o1 o2 path changes Hn Hm; try lia.
  simpl. apply compare_body_ext. intros a b p c Hlt. apply IH; lia.
Qed.

(** The equation of the source: [compare] is its body applied to itself. *)
Lemma compare_unfold (o1 o2 : value) (path : string) (changes : list change) :
  compare o1 o2 path changes = compare_body compare o1 o2 path changes.
Proof.
  unfold compare at 1. simpl. apply compare_body_ext.
  intros a b p c Hlt. unfold compare. apply compare_fuel_enough; lia.
Qed.

(** ** The diff engine: a value against itself *)

Lemma fold_left_id {A B : Type} (f : A -> B -> A) (l : list B) :
  (forall a x, In x l -> f a x = a) -> forall a, fold_left f l a = a.
Proof.
  induction l as [|x l IH]; intros H a; simpl; [reflexivity|].
  rewrite (H a x (or_introl eq_refl)). apply IH.
  intros a' y Hy. apply H. right. exact Hy.
Qed.

Lemma num_eqb_refl (x : number) : is_nan x = false -> num_eqb x x = true.
Proof.
  destruct x as [s|s| |s m e]; simpl; try discriminate; intros _; unfold num_eqb; simpl.
  - reflexivity.
  - destruct s; reflexivity.
  - assert (E : (F2Q (S754_finite s m e) ?= F2Q (S754_finite s m e))%Q = Eq)
      by (apply Qeq_alt; reflexivity).
    simpl in E. rewrite E. reflexivity.
Qed.

Lemma in_set_of (l : list string) (k : string) : In k (set_of l) <-> In k l.
Proof.
  induction l as [|x l IH]; simpl; [tauto|].
  rewrite filter_In, IH. split.
  - intros [H | [H _]]; auto.
  - intros [H | H]; [left; exact H|].
    destruct (String.eqb k x) eqn:E.
    + left. apply String.eqb_eq in E. congruence.
    + right. split; [exact H | reflexivity].
Qed.

Lemma own_in_keys (entries : list (string * value)) (k : string) :
  In k (map fst entries) -> exists v, own entries k = Some v /\ In v (map snd entries).
Proof.
  induction entries as [|[k' w] entries IH]; simpl; [tauto|].
  intros H. destruct (String.eqb k' k) eqn:E.
  - exists w. auto.
  - destruct H as [H | H].
    + subst k'. rewrite String.eqb_refl in E. discriminate.
    + destruct (IH H) as [v [Hv Hin]]. exists v. auto.
Qed.

Lemma own_None_not_in (entries : list (string * value)) (k : string) :
  own entries k = None <-> ~ In k (map fst entries).
Proof.
  induction entries as [|[k' w] entries IH]; simpl; [tauto|].
  destruct (String.eqb k' k) eqn:E.
  - apply String.eqb_eq in E. split; [discriminate | intros H; exfalso; apply H; auto].
  - apply String.eqb_neq in E. rewrite IH. tauto.
Qed.

Lemma compare_same (v : value) :
  nan_free v = true ->
  forall path changes, compare v v path changes = changes.
Proof.
  induction v as [ | | b | x | s | items IH | entries IH | name | ] using value_ind';
    intros Hnan path changes; rewrite compare_unfold; unfold compare_body; simpl.
  - reflexivity.
  - reflexivity.
  - rewrite eqb_reflx. reflexivity.
  - simpl in Hnan. apply negb_true_iff in Hnan. rewrite (num_eqb_refl x Hnan). reflexivity.
  - rewrite String.eqb_refl. reflexivity.
  - rewrite Nat.max_id. apply fold_left_id. intros c i Hi.
    apply in_seq in Hi. destruct (Nat.leb_spec (length items) i) as [Hle | Hlt]; [lia|].
    simpl in Hnan. rewrite forallb_forall in Hnan. rewrite List.Forall_forall in IH.
    assert (Hin : In (nth i items VUndefined) items) by (apply nth_In; lia).
    apply (IH _ Hin). apply (Hnan _ Hin).
  - apply fold_left_id. intros c key Hkey.
    apply (proj1 (in_set_of _ _)) in Hkey. apply List.in_app_or in Hkey.
    assert (Hk : In key (map fst entries)) by tauto.
    destruct (own_in_keys entries key Hk) as [v [Hv Hin]].
    rewrite Hv. simpl.
    simpl in Hnan. rewrite forallb_forall in Hnan. rewrite List.Forall_forall in IH.
    apply in_map_iff in Hin as [[k' v'] [Heq Hin]]. simpl in Heq. subst v'.
    apply (IH (k', v) Hin). apply (Hnan (k', v) Hin).
  - rewrite String.eqb_refl. reflexivity.
  - reflexivity.
Qed.

(** C8: for every value without NaN, as every parsed JSON value is, the diff
    of the value against itself is the empty change list. *)
Theorem diffJSON_same (v : value) :
  nan_free v = true -> diffJSON v v = [].
Proof.
  intros H. unfold diffJSON. apply compare_same. exact H.
Qed.

(** ** The diff engine: the changes are appended, and the walk over objects *)

Lemma fold_left_acc {A B : Type} (f : list A -> B -> list A) (l : list B) :
  (forall c x, f c x = c ++ f [] x) ->
  forall c, fold_left f l c = c ++ flat_map (f []) l.
Proof.
  intros H. induction l as [|x l IH]; intros c; simpl.
  - rewrite app_nil_r. reflexivity.
  - rewrite IH, (H c x), <- app_assoc. reflexivity.
Qed.

Lemma compare_body_acc (f : value -> value -> string -> list change -> list change) :
  (forall a b p c, f a b p c = c ++ f a b p []) ->
  forall o1 o2 path changes,
    compare_body f o1 o2 path changes = changes ++ compare_body f o1 o2 path [].
Proof.
  intros H o1 o2 path changes. unfold compare_body.
  destruct (is_null o1 && is_null o2); [rewrite app_nil_r; reflexivity|].
  destruct (is_null o1 || is_null o2); [reflexivity|].
  destruct (negb (String.eqb (typeof o1) (typeof o2))); [reflexivity|].
  destruct (negb (String.eqb (typeof o1) "object")).
  { destruct (negb (strict_equal o1 o2)); [reflexivity | rewrite app_nil_r; reflexivity]. }
  destruct (negb (Bool.eqb (isArray o1) (isArray o2))); [reflexivity|].
  destruct (isArray o1).
  - rewrite (fold_left_acc _ _) with (c := changes), (fold_left_acc _ _) with (c := []).
    + reflexivity.
    + intros c i. destruct (Nat.leb (array_length o1) i); [reflexivity|].
      destruct (Nat.leb (array_length o2) i); [reflexivity|]. apply H.
    + intros c i. destruct (Nat.leb (array_length o1) i); [reflexivity|].
      destruct (Nat.leb (array_length o2) i); [reflexivity|]. apply H.
  - rewrite (fold_left_acc _ _) with (c := changes), (fold_left_acc _ _) with (c := []).
    + reflexivity.
    + intros c key. destruct (negb (has_property o1 key)); [reflexivity|].
      destruct (negb (has_property o2 key)); [reflexivity|]. apply H.
    + intros c key. destruct (negb (has_property o1 key)); [reflexivity|].
      destruct (negb (has_property o2 key)); [reflexivity|]. apply H.
Qed.

Lemma compare_fuel_acc (n : nat) (o1 o2 : value) (path : string) (changes : list change) :
  compare_fuel n o1 o2 path changes = changes ++ compare_fuel n o1 o2 path [].
Proof.
  revert o1 o2 path changes. induction n as [|n IH]; intros o1 o2 path changes; simpl.
  - rewrite app_nil_r. reflexivity.
  - apply compare_body_acc. exact IH.
Qed.

Lemma compare_acc (o1 o2 : value) (path : string) (changes : list change) :
  compare o1 o2 path changes = changes ++ compare o1 o2 path [].
Proof. unfold compare. apply compare_fuel_acc. Qed.

(** Two non-array objects: one visit per key of the union, in the order of
    the set built from the keys of the left and then those of the right. *)
Lemma compare_objects (o1 o2 : value) (path : string) (changes : list change) :
  is_null o1 = false -> is_null o2 = false ->
  String.eqb (typeof o1) "object" = true -> String.eqb (typeof o2) "object" = true ->
  isArray o1 = false -> isArray o2 = false ->
  compare o1 o2 path changes
  = changes ++ flat_map (key_changes o1 o2 path) (set_of (keys o1 ++ keys o2)).
Proof.
  intros N1 N2 T1 T2 A1 A2. rewrite compare_unfold. unfold compare_body.
  rewrite N1, N2. simpl.
  apply String.eqb_eq in T1, T2. rewrite T1, T2. simpl. rewrite A1, A2. simpl.
  rewrite fold_left_acc.
  - reflexivity.
  - intros c key. destruct (negb (has_property o1 key)); [reflexivity|].
    destruct (negb (has_property o2 key)); [reflexivity|]. apply compare_acc.
Qed.

(** With distinct keys on each side the set is the keys of the left in their
    order, then the keys only the right has in theirs. *)
Lemma filter_all {A : Type} (p : A -> bool) (l : list A) :
  (forall x, In x l -> p x = true) -> List.filter p l = l.
Proof.
  induction l as [|x l IH]; intros H; simpl; [reflexivity|].
  rewrite (H x (or_introl eq_refl)), IH; [reflexivity|].
  intros y Hy. apply H. right. exact Hy.
Qed.

Lemma filter_filter {A : Type} (p q : A -> bool) (l : list A) :
  List.filter p (List.filter q l) = List.filter (fun x => q x && p x) l.
Proof.
  induction l as [|x l IH]; simpl; [reflexivity|].
  destruct (q x); simpl; [destruct (p x)|]; rewrite IH; reflexivity.
Qed.

Lemma set_of_NoDup_id (l : list string) : List.NoDup l -> set_of l = l.
Proof.
  induction 1 as [|x l Hx Hl IH]; simpl; [reflexivity|].
  rewrite IH. f_equal. apply filter_all. intros y Hy.
  apply negb_true_iff, String.eqb_neq. intros ->. exact (Hx Hy).
Qed.

Lemma set_of_union (l1 l2 : list string) :
  List.NoDup l1 -> List.NoDup l2 ->
  set_of (l1 ++ l2)
  = l1 ++ List.filter (fun k => negb (existsb (String.eqb k) l1)) l2.
Proof.
  intros H1 H2. induction H1 as [|x l1 Hx Hl1 IH]; simpl.
  - rewrite (set_of_NoDup_id l2 H2). symmetry. apply filter_all. reflexivity.
  - rewrite IH, List.filter_app. f_equal. f_equal.
    + apply filter_all. intros y Hy.
      apply negb_true_iff, String.eqb_neq. intros ->. exact (Hx Hy).
    + rewrite filter_filter. apply List.filter_ext. intros k.
      rewrite negb_orb. apply andb_comm.
Qed.

Lemma compare_entries (e1 e2 : list (string * value)) (path : string)
    (changes : list change) :
  List.NoDup (map fst e1) -> List.NoDup (map fst e2) ->
  compare (VObj e1) (VObj e2) path changes
  = changes
    ++ flat_map (key_changes (VObj e1) (VObj e2) path)
         (map fst e1
          ++ List.filter (fun k => negb (existsb (String.eqb k) (map fst e1))) (map fst e2)).
Proof.
  intros H1 H2. rewrite compare_objects by reflexivity.
  simpl. rewrite set_of_union by assumption. reflexivity.
Qed.

(** Scenario A of the specification. *)
Lemma diffJSON_scenario_A :
  diffJSON scenario_A_left scenario_A_right
  = [ {| change_type_of := changed; change_path := "b";
         change_old := Some (num 2); change_new := Some (num 3);
         change_message := "b: 2 " +:+ arrow +:+ " 3" |};
      {| change_type_of := added; change_path := "c";
         change_old := None; change_new := Some (num 4);
         change_message := "c: +4" |} ].
Proof. vm_compute. reflexivity. Qed.

(** C6 (the code departs from the claim): the key [toString] is missing from
    the left object [{}] and present in the right object [{"toString": 1}],
    so the walk should emit Added for it; [key in o1] also answers for the
    members of [Object.prototype], and the code recurses on the inherited
    function and emits Changed, a type change from function to number. *)
Theorem diffJSON_inherited_key :
  own [] "toString" = None
  /\ diffJSON (VObj []) (VObj [("toString", num 1)])
     = [ {| change_type_of := changed; change_path := "toString";
            change_old := Some (VFunction "toString"); change_new := Some (num 1);
            change_message := "toString: type changed from function to number" |} ].
Proof. split; vm_compute; reflexivity. Qed.

(** ** The diff engine: deep-equal values and the order of keys *)

Lemma deep_equal_arr (l1 l2 : list value) :
  deep_equal (VArr l1) (VArr l2) = forall2b deep_equal l1 l2.
Proof.
  simpl. revert l2. induction l1 as [|x l1 IH]; intros [|y l2]; simpl; try reflexivity.
  rewrite IH. reflexivity.
Qed.

Lemma deep_equal_obj (e1 e2 : list (string * value)) :
  deep_equal (VObj e1) (VObj e2)
  = forallb (fun k => existsb (String.eqb k) (map fst e1)) (map fst e2)
    && forallb (fun kv => match own e2 (fst kv) with
                          | Some w => deep_equal (snd kv) w
                          | None => false
                          end) e1.
Proof.
  reflexivity.
Qed.

Lemma forall2b_nth {A B : Type} (f : A -> B -> bool) (da : A) (db : B) l1 l2 :
  forall2b f l1 l2 = true ->
  length l1 = length l2
  /\ forall i, i < length l1 -> f (nth i l1 da) (nth i l2 db) = true.
Proof.
  revert l2. induction l1 as [|x l1 IH]; intros [|y l2]; simpl; try discriminate.
  - intros _. split; [reflexivity | intros i Hi; lia].
  - intros H. apply andb_true_iff in H as [Hxy Hrest].
    destruct (IH l2 Hrest) as [Hlen Hnth]. split; [lia|].
    intros [|i] Hi; [exact Hxy | apply Hnth; lia].
Qed.

Lemma own_in (entries : list (string * value)) (k : string) (v : value) :
  own entries k = Some v -> In (k, v) entries.
Proof.
  induction entries as [|[k' w] entries IH]; simpl; [discriminate|].
  destruct (String.eqb k' k) eqn:E.
  - apply String.eqb_eq in E. intros [= ->]. left. congruence.
  - intros H. right. apply IH. exact H.
Qed.

Lemma existsb_eqb_in (k : string) (l : list string) :
  existsb (String.eqb k) l = true <-> In k l.
Proof.
  rewrite existsb_exists. split.
  - intros [x [Hx E]]. apply String.eqb_eq in E. congruence.
  - intros H. exists k. split; [exact H | apply String.eqb_refl].
Qed.

Lemma compare_deep_equal (a : value) :
  forall b, deep_equal a b = true ->
  forall path changes, compare a b path changes = changes.
Proof.
  induction a as [ | | x | x | x | l1 IH | e1 IH | f | ] using value_ind';
    intros b H path changes; destruct b as [ | | y | y | y | l2 | e2 | g | ];
    try discriminate H.
  - rewrite compare_unfold. reflexivity.
  - rewrite compare_unfold. reflexivity.
  - rewrite compare_unfold. unfold compare_body. simpl. simpl in H. rewrite H. reflexivity.
  - rewrite compare_unfold. unfold compare_body. simpl. simpl in H. rewrite H. reflexivity.
  - rewrite compare_unfold. unfold compare_body. simpl. simpl in H. rewrite H. reflexivity.
  - rewrite deep_equal_arr in H.
    destruct (forall2b_nth deep_equal VUndefined VUndefined l1 l2 H) as [Hlen Hnth].
    rewrite compare_unfold. unfold compare_body. simpl.
    rewrite <- Hlen, Nat.max_id. apply fold_left_id. intros c i Hi.
    apply in_seq in Hi. destruct (Nat.leb_spec (length l1) i) as [Hle | Hlt]; [lia|].
    rewrite List.Forall_forall in IH.
    apply (IH (nth i l1 VUndefined)); [apply nth_In; lia | apply Hnth; lia].
  - rewrite deep_equal_obj in H. apply andb_true_iff in H as [Hkeys Hvals].
    rewrite forallb_forall in Hkeys, Hvals. rewrite List.Forall_forall in IH.
    rewrite compare_unfold. unfold compare_body. simpl.
    apply fold_left_id. intros c key Hkey.
    apply (proj1 (in_set_of _ _)) in Hkey. apply List.in_app_or in Hkey.
    assert (Hk : In key (map fst e1)).
    { destruct Hkey as [Hk | Hk]; [exact Hk|]. apply existsb_eqb_in, Hkeys, Hk. }
    destruct (own_in_keys e1 key Hk) as [v [Hv _]].
    pose proof (own_in _ _ _ Hv) as Hin.
    pose proof (Hvals _ Hin) as Hw. simpl in Hw.
    destruct (own e2 key) as [w|] eqn:Ew; [|discriminate].
    rewrite Hv. simpl. apply (IH _ Hin). exact Hw.
  - rewrite compare_unfold. unfold compare_body. simpl. simpl in H. rewrite H. reflexivity.
  - rewrite compare_unfold. reflexivity.
Qed.

Lemma in_own (entries : list (string * value)) (k : string) (v : value) :
  List.NoDup (map fst entries) -> In (k, v) entries -> own entries k = Some v.
Proof.
  induction entries as [|[k' w] entries IH]; simpl; [tauto|].
  intros Hnd Hin. inversion Hnd as [|? ? Hk' Hnd']; subst.
  destruct Hin as [[= -> ->] | Hin].
  - rewrite String.eqb_refl. reflexivity.
  - destruct (String.eqb k' k) eqn:E.
    + apply String.eqb_eq in E. subst k'. exfalso. apply Hk'.
      apply in_map_iff. exists (k, v). auto.
    + apply IH; assumption.
Qed.

Lemma own_Permutation (e e' : list (string * value)) (k : string) :
  List.NoDup (map fst e) -> Permutation e e' -> own e k = own e' k.
Proof.
  intros Hnd Hp.
  assert (Hnd' : List.NoDup (map fst e')).
  { eapply Permutation_NoDup; [apply Permutation_map; exact Hp | exact Hnd]. }
  destruct (own e k) as [v|] eqn:E.
  - symmetry. apply in_own; [exact Hnd'|].
    eapply Permutation_in; [exact Hp | apply own_in; exact E].
  - symmetry. apply own_None_not_in. intros Hin.
    apply (proj1 (own_None_not_in e k) E).
    eapply Permutation_in; [apply Permutation_map, Permutation_sym; exact Hp | exact Hin].
Qed.

Lemma set_of_NoDup (l : list string) : List.NoDup (set_of l).
Proof.
  induction l as [|x l IH]; simpl; constructor.
  - rewrite filter_In. intros [_ H]. rewrite String.eqb_refl in H. discriminate.
  - apply List.NoDup_filter. exact IH.
Qed.

Lemma key_changes_Permutation (e1 e2 e1' e2' : list (string * value)) (path key : string) :
  List.NoDup (map fst e1) -> List.NoDup (map fst e2) ->
  Permutation e1 e1' -> Permutation e2 e2' ->
  key_changes (VObj e1) (VObj e2) path key = key_changes (VObj e1') (VObj e2') path key.
Proof.
  intros N1 N2 P1 P2. unfold key_changes. simpl.
  rewrite <- (own_Permutation e1 e1' key N1 P1), <- (own_Permutation e2 e2' key N2 P2).
  reflexivity.
Qed.

(** C10: for two objects with distinct keys, reordering the keys of either
    leaves the multiset of emitted changes as it is, so that key order decides
    the order of the ChangeRecords and never whether one is emitted; and when
    the two objects have the same key set with pairwise deep-equal values, the
    diff is empty under every order of the keys. *)
Theorem diffJSON_key_order (e1 e2 e1' e2' : list (string * value)) :
  List.NoDup (map fst e1) -> List.NoDup (map fst e2) ->
  Permutation e1 e1' -> Permutation e2 e2' ->
  Permutation (diffJSON (VObj e1) (VObj e2)) (diffJSON (VObj e1') (VObj e2'))
  /\ (deep_equal (VObj e1) (VObj e2) = true ->
      diffJSON (VObj e1) (VObj e2) = [] /\ diffJSON (VObj e1') (VObj e2') = []).
Proof.
  intros N1 N2 P1 P2.
  assert (HP : Permutation (diffJSON (VObj e1) (VObj e2)) (diffJSON (VObj e1') (VObj e2'))).
  { unfold diffJSON. rewrite !compare_objects by reflexivity. simpl.
    rewrite (flat_map_ext _ _ (fun key => key_changes_Permutation e1 e2 e1' e2' "" key N1 N2 P1 P2)).
    apply Permutation_flat_map.
    apply Permutation.NoDup_Permutation; [apply set_of_NoDup | apply set_of_NoDup |].
    intros k. rewrite !in_set_of, !in_app_iff.
    pose proof (Permutation_map fst P1) as Q1. pose proof (Permutation_map fst P2) as Q2.
    split; intros [H | H]; [left | right | left | right];
      eauto using Permutation_in, Permutation_sym. }
  split; [exact HP|].
  intros H. assert (E : diffJSON (VObj e1) (VObj e2) = []).
  { unfold diffJSON. apply compare_deep_equal. exact H. }
  split; [exact E|]. rewrite E in HP. apply Permutation_nil in HP. exact HP.
Qed.

(** ** Numbers: what the similarity score needs of binary64 *)

Lemma iter_pos_invariant {A : Type} (P : A -> Prop) (f : A -> A) :
  (forall x, P x -> P (f x)) -> forall n x, P x -> P (SpecFloat.iter_pos f n x).
Proof.
  intros Hf. induction n as [n IH | n IH | ]; intros x Hx; simpl.
  - apply IH, IH, Hf, Hx.
  - apply IH, IH, Hx.
  - apply Hf, Hx.
Qed.

Lemma shr_1_nonneg (mrs : shr_record) : (0 <= shr_m mrs)%Z -> (0 <= shr_m (shr_1 mrs))%Z.
Proof.
  destruct mrs as [m r s]. destruct m as [|[p|p|]|p]; simpl; lia.
Qed.

Lemma shr_nonneg (mrs : shr_record) (e n : Z) :
  (0 <= shr_m mrs)%Z -> (0 <= shr_m (fst (shr mrs e n)))%Z.
Proof.
  intros H. unfold shr. destruct n as [|p|p]; simpl; try exact H.
  apply (iter_pos_invariant (fun r => (0 <= shr_m r)%Z)); [exact shr_1_nonneg | exact H].
Qed.

Lemma shr_record_of_loc_m (m : Z) (l : location) : shr_m (shr_record_of_loc m l) = m.
Proof. destruct l as [|[ | | ]]; reflexivity. Qed.

Lemma shr_fexp_nonneg (m e : Z) (l : location) :
  (0 <= m)%Z -> (0 <= shr_m (fst (shr_fexp prec emax m e l)))%Z.
Proof.
  intros H. unfold shr_fexp. apply shr_nonneg. rewrite shr_record_of_loc_m. exact H.
Qed.

Lemma round_nearest_even_nonneg (m : Z) (l : location) :
  (0 <= m)%Z -> (0 <= round_nearest_even m l)%Z.
Proof.
  intros H. unfold round_nearest_even.
  destruct l as [|[ | | ]]; try exact H; [destruct (Z.even m)|]; lia.
Qed.

(** Rounding a non-negative mantissa never produces NaN. *)
Lemma binary_round_aux_not_nan (s : bool) (m e : Z) (l : location) :
  (0 <= m)%Z -> is_nan (binary_round_aux prec emax s m e l) = false.
Proof.
  intros H. unfold binary_round_aux.
  pose proof (shr_fexp_nonneg m e l H) as H1.
  destruct (shr_fexp prec emax m e l) as [mrs' e'] eqn:E1. simpl in H1.
  pose proof (shr_fexp_nonneg _ e' loc_Exact
                (round_nearest_even_nonneg _ (loc_of_shr_record mrs') H1)) as H2.
  destruct (shr_fexp prec emax (round_nearest_even (shr_m mrs') (loc_of_shr_record mrs'))
              e' loc_Exact) as [mrs'' e''] eqn:E2.
  simpl in H2. destruct (shr_m mrs'') as [|p|p]; [reflexivity | | lia].
  destruct (Z.leb e'' (emax - prec)); reflexivity.
Qed.

Lemma Z2F_not_nan (n : Z) : is_nan (Z2F n) = false.
Proof.
  unfold Z2F, binary_normalize. destruct n as [|p|p]; [reflexivity | |];
    unfold binary_round;
    destruct (shl_align p 0 (fexp prec emax (Z.pos (digits2_pos p) + 0))) as [mz ez];
    apply binary_round_aux_not_nan; lia.
Qed.

Lemma SFdiv_not_nan (x : number) (s : bool) (m : positive) (e : Z) :
  is_nan x = false -> is_nan (SFdiv prec emax x (S754_finite s m e)) = false.
Proof.
  destruct x as [sx|sx| |sx mx ex]; simpl; try reflexivity; try discriminate.
  intros _. unfold SFdiv_core_binary.
  set (e' := Z.min _ _). set (m' := match (ex - e - e')%Z with Z0 => _ | _ => _ end).
  assert (Hm' : (0 <= m')%Z).
  { unfold m'. destruct (ex - e - e')%Z; try lia. apply Z.shiftl_nonneg. lia. }
  pose proof (Z.div_pos m' (Z.pos m) Hm' ltac:(lia)) as Hq.
  unfold Z.div in Hq. destruct (Z.div_eucl m' (Z.pos m)) as [q r].
  apply binary_round_aux_not_nan. exact Hq.
Qed.

Lemma SFmul_not_nan (x : number) (s : bool) (m : positive) (e : Z) :
  is_nan x = false -> is_nan (SFmul prec emax x (S754_finite s m e)) = false.
Proof.
  destruct x as [sx|sx| |sx mx ex]; simpl; try reflexivity; try discriminate.
  intros _. apply binary_round_aux_not_nan. lia.
Qed.

(** A number divided by itself is 1. *)
Lemma SFdiv_same (s : bool) (m : positive) (e : Z) :
  SFdiv prec emax (S754_finite s m e) (S754_finite s m e) = Z2F 1.
Proof.
  unfold SFdiv, SFdiv_core_binary.
  replace (Zdigits2 (Z.pos m) + e - (Zdigits2 (Z.pos m) + e))%Z with 0%Z by lia.
  replace (e - e)%Z with 0%Z by lia.
  change (Z.min (fexp prec emax 0) 0) with (-53)%Z.
  change (0 - -53)%Z with 53%Z. cbv iota.
  rewrite Z.shiftl_mul_pow2 by lia.
  assert (E : Z.div_eucl (Z.pos m * 2 ^ 53) (Z.pos m) = ((2 ^ 53)%Z, 0%Z)).
  { pose proof (Z.div_mul (2 ^ 53) (Z.pos m) ltac:(lia)) as Hq.
    pose proof (Z.mod_mul (2 ^ 53) (Z.pos m) ltac:(lia)) as Hr.
    rewrite (Z.mul_comm (2 ^ 53)) in Hq, Hr.
    unfold Z.div in Hq. unfold Z.modulo in Hr.
    destruct (Z.div_eucl (Z.pos m * 2 ^ 53) (Z.pos m)) as [q r]. congruence. }
  rewrite E.
  assert (L : new_location (Z.pos m) 0 = loc_Exact).
  { unfold new_location. destruct (Z.even (Z.pos m)); reflexivity. }
  rewrite L. destruct s; vm_compute; reflexivity.
Qed.

Lemma digits2_pos_lower (p : positive) :
  (2 ^ (Z.pos (digits2_pos p) - 1) <= Z.pos p)%Z.
Proof.
  induction p as [p IH | p IH | ]; simpl digits2_pos.
  - rewrite Pos2Z.inj_succ. replace (Z.succ (Z.pos (digits2_pos p)) - 1)%Z
      with (Z.succ (Z.pos (digits2_pos p) - 1))%Z by lia.
    rewrite Z.pow_succ_r by lia. lia.
  - rewrite Pos2Z.inj_succ. replace (Z.succ (Z.pos (digits2_pos p)) - 1)%Z
      with (Z.succ (Z.pos (digits2_pos p) - 1))%Z by lia.
    rewrite Z.pow_succ_r by lia. lia.
  - simpl. lia.
Qed.

Lemma digits2_pos_bound (p : positive) :
  (Z.pos p < 2 ^ 53)%Z -> (Z.pos (digits2_pos p) <= 53)%Z.
Proof.
  intros H. destruct (Z_le_gt_dec (Z.pos (digits2_pos p)) 53) as [Hle | Hgt]; [exact Hle|].
  pose proof (digits2_pos_lower p) as Hl.
  pose proof (Z.pow_le_mono_r 2 53 (Z.pos (digits2_pos p) - 1) ltac:(lia) ltac:(lia)). lia.
Qed.

Lemma digits2_pos_iter_xO (p k : positive) :
  digits2_pos (Pos.iter xO p k) = (digits2_pos p + k)%positive.
Proof.
  induction k as [|k IH] using Pos.peano_ind.
  - simpl. lia.
  - rewrite Pos.iter_succ. simpl. rewrite IH. lia.
Qed.

(** An integer count below 2^53 is a finite, positive number. *)
Lemma Z2F_finite (n : Z) :
  (0 < n < 2 ^ 53)%Z -> exists m e, Z2F n = S754_finite false m e.
Proof.
  intros [Hpos Hlt]. destruct n as [|p|p]; try lia.
  pose proof (digits2_pos_bound p Hlt) as Hd.
  unfold Z2F, binary_normalize, binary_round.
  set (d := digits2_pos p) in *.
  assert (Hf : fexp prec emax (Z.pos d + 0) = (Z.pos d - 53)%Z).
  { unfold fexp, emin, prec, emax. lia. }
  rewrite Hf.
  assert (Hal : exists mz, shl_align p 0 (Z.pos d - 53) = (mz, (Z.pos d - 53)%Z)
                           /\ Z.pos (digits2_pos mz) = 53%Z).
  { unfold shl_align. destruct (Z.pos d - 53 - 0)%Z as [|k|k] eqn:Ek; try lia.
    - exists p. split; [f_equal; lia | fold d; lia].
    - exists (Pos.iter xO p k). split; [reflexivity|].
      rewrite digits2_pos_iter_xO. fold d. lia. }
  destruct Hal as [mz [Eal Hmz]]. rewrite Eal.
  exists mz, (Z.pos d - 53)%Z.
  unfold binary_round_aux.
  assert (Hs : shr_fexp prec emax (Z.pos mz) (Z.pos d - 53) loc_Exact
               = ({| shr_m := Z.pos mz; shr_r := false; shr_s := false |}, (Z.pos d - 53)%Z)).
  { unfold shr_fexp. simpl Zdigits2. rewrite Hmz.
    replace (fexp prec emax (53 + (Z.pos d - 53)) - (Z.pos d - 53))%Z with 0%Z
      by (unfold fexp, emin, prec, emax; lia).
    reflexivity. }
  rewrite Hs. simpl. rewrite Hs. simpl.
  replace (Z.pos d - 53 <=? emax - prec)%Z with true
    by (symmetry; apply Z.leb_le; unfold emax, prec; lia).
  reflexivity.
Qed.

Lemma Z2F_100 : Z2F 100 = S754_finite false 7036874417766400 (-46).
Proof. vm_compute. reflexivity. Qed.

Lemma F2Q_100 : (F2Q (Z2F 100) == 100)%Q.
Proof. vm_compute. reflexivity. Qed.

Lemma Qpower_2_pos (e : Z) : (0 < Qpower 2 e)%Q.
Proof. apply Qpower_0_lt. reflexivity. Qed.

Lemma F2Q_pos_sign (s : bool) (m : positive) (e : Z) :
  (0 < F2Q (S754_finite s m e))%Q -> s = false.
Proof.
  destruct s; [|reflexivity]. simpl. intros H. exfalso.
  assert (H0 : (0 * Qpower 2 e < inject_Z (Z.neg m) * Qpower 2 e)%Q).
  { rewrite Qmult_0_l. exact H. }
  apply Qmult_lt_r in H0; [|apply Qpower_2_pos].
  unfold Qlt in H0. simpl in H0. lia.
Qed.

(** The clamp of a number that is not NaN is +0 or lies in (0, 100]. *)
Lemma clamp_cases (raw : number) :
  is_nan raw = false ->
  Math_max (Z2F 0) (Math_min (Z2F 100) raw) = S754_zero false
  \/ exists s m e,
       Math_max (Z2F 0) (Math_min (Z2F 100) raw) = S754_finite s m e
       /\ (0 < F2Q (S754_finite s m e))%Q /\ (F2Q (S754_finite s m e) <= 100)%Q.
Proof.
  assert (Hh : Math_max (Z2F 0) (Z2F 100) = Z2F 100) by (vm_compute; reflexivity).
  assert (Hr : exists s m e, Z2F 100 = S754_finite s m e
                 /\ (0 < F2Q (S754_finite s m e))%Q /\ (F2Q (S754_finite s m e) <= 100)%Q).
  { exists false, 7036874417766400%positive, (-46)%Z. rewrite Z2F_100.
    split; [reflexivity|]. split; [vm_compute; reflexivity | vm_compute; discriminate]. }
  destruct raw as [s|s| |s m e]; try discriminate; intros _.
  - left. destruct s; vm_compute; reflexivity.
  - destruct s.
    + left. vm_compute. reflexivity.
    + right. replace (Math_min (Z2F 100) (S754_infinity false)) with (Z2F 100)
        by (vm_compute; reflexivity).
      rewrite Hh. exact Hr.
  - assert (Hc : num_compare (Z2F 100) (S754_finite s m e)
                 = Some (F2Q (Z2F 100) ?= F2Q (S754_finite s m e))%Q)
      by (rewrite Z2F_100; reflexivity).
    unfold Math_min. rewrite Hc.
    destruct (F2Q (Z2F 100) ?= F2Q (S754_finite s m e))%Q eqn:C.
    + right. simpl is_neg_zero. cbv iota. rewrite Hh. exact Hr.
    + right. rewrite Hh. exact Hr.
    + apply Qgt_alt in C.
      assert (Hz : num_compare (Z2F 0) (S754_finite s m e)
                   = Some (0 ?= F2Q (S754_finite s m e))%Q) by reflexivity.
      unfold Math_max. rewrite Hz.
      destruct (0 ?= F2Q (S754_finite s m e))%Q eqn:D.
      * left. reflexivity.
      * right. exists s, m, e. split; [reflexivity|]. split.
        -- apply Qlt_alt. exact D.
        -- apply Qlt_le_weak. rewrite <- F2Q_100. exact C.
      * left. reflexivity.
Qed.

Lemma Math_round_range (s : bool) (m : positive) (e : Z) :
  (0 < F2Q (S754_finite s m e))%Q -> (F2Q (S754_finite s m e) <= 100)%Q ->
  exists n, (0 <= n <= 100)%Z /\ Math_round (S754_finite s m e) = Z2F n.
Proof.
  intros Hpos Hle. pose proof (F2Q_pos_sign s m e Hpos) as ->.
  set (q := F2Q (S754_finite false m e)) in *.
  exists (Qfloor (q + (1 # 2))).
  assert (H0 : (0 <= Qfloor (q + (1 # 2)))%Z).
  { change 0%Z with (Qfloor 0). apply Qfloor_resp_le.
    apply Qlt_le_weak. apply (Qlt_le_trans _ q); [exact Hpos|].
    rewrite <- (Qplus_0_r q) at 1. apply Qplus_le_r. discriminate. }
  assert (H1 : (Qfloor (q + (1 # 2)) <= 100)%Z).
  { change 100%Z with (Qfloor (100 + (1 # 2))). apply Qfloor_resp_le.
    apply Qplus_le_l. exact Hle. }
  split; [lia|].
  unfold Math_round. fold q.
  destruct (Z.eqb_spec (Qfloor (q + (1 # 2))) 0) as [E | E]; [rewrite E|]; reflexivity.
Qed.

(** ** The similarity score *)

Lemma fold_left_sum {A : Type} (f : A -> Z) (l : list A) (a : Z) :
  fold_left (fun sum x => (sum + f x)%Z) l a = (a + fold_right Z.add 0 (map f l))%Z.
Proof.
  revert a. induction l as [|x l IH]; intros a; simpl; [lia|]. rewrite IH. lia.
Qed.

(** [countNodes] is the nodeCount of the specification. *)
Lemma countNodes_spec (v : value) : countNodes v = spec_nodeCount v.
Proof.
  induction v as [ | | b | x | s | items IH | entries IH | name | ] using value_ind';
    try reflexivity.
  - simpl. rewrite fold_left_sum. f_equal. f_equal.
    apply map_ext_in. rewrite List.Forall_forall in IH. exact IH.
  - simpl. rewrite fold_left_sum, length_map. f_equal. f_equal.
    apply map_ext_in. rewrite List.Forall_forall in IH. exact IH.
Qed.

Lemma fold_right_add_nonneg (l : list Z) :
  Forall (fun z => (0 <= z)%Z) l -> (0 <= fold_right Z.add 0 l)%Z.
Proof. induction 1; simpl; lia. Qed.

Lemma spec_nodeCount_nonneg (v : value) : (0 <= spec_nodeCount v)%Z.
Proof.
  induction v as [ | | b | x | s | items IH | entries IH | name | ] using value_ind';
    simpl; try lia.
  - assert (0 <= fold_right Z.add 0 (map spec_nodeCount items))%Z; [|lia].
    apply fold_right_add_nonneg. apply List.Forall_map. exact IH.
  - assert (0 <= fold_right Z.add 0 (map (fun kv => spec_nodeCount (snd kv)) entries))%Z;
      [|lia].
    apply fold_right_add_nonneg. apply List.Forall_map. exact IH.
Qed.

Lemma calculateSimilarity_binary64 (v1 v2 : value) :
  calculateSimilarity v1 v2 = spec_similarity_binary64 v1 v2.
Proof.
  unfold calculateSimilarity, spec_similarity_binary64.
  rewrite !countNodes_spec. reflexivity.
Qed.

Lemma similarity_range (v1 v2 : value) :
  (spec_nodeCount v1 + spec_nodeCount v2 < 2 ^ 53)%Z ->
  exists n, (0 <= n <= 100)%Z /\ spec_similarity_binary64 v1 v2 = Z2F n.
Proof.
  intros Hlt. unfold spec_similarity_binary64.
  set (total := (spec_nodeCount v1 + spec_nodeCount v2)%Z) in *.
  set (a := (total - Z.of_nat (length (diffJSON v1 v2)) * 2)%Z).
  destruct (Z.eqb_spec total 0) as [E | E].
  - exists 100%Z. split; [lia | reflexivity].
  - pose proof (spec_nodeCount_nonneg v1). pose proof (spec_nodeCount_nonneg v2).
    destruct (Z2F_finite total ltac:(unfold total in *; lia)) as [m [e Ht]].
    assert (H100 : exists m' e', Z2F 100 = S754_finite false m' e')
      by (rewrite Z2F_100; eauto).
    destruct H100 as [m' [e' H100]].
    assert (Hraw : is_nan (SFmul prec emax (SFdiv prec emax (Z2F a) (Z2F total)) (Z2F 100))
                   = false).
    { rewrite H100. apply SFmul_not_nan. rewrite Ht. apply SFdiv_not_nan, Z2F_not_nan. }
    destruct (clamp_cases _ Hraw) as [Hz | [s [mc [ec [Hc [Hpos Hle]]]]]].
    + rewrite Hz. exists 0%Z. split; [lia | reflexivity].
    + rewrite Hc. apply Math_round_range; assumption.
Qed.

Lemma similarity_same (v : value) :
  nan_free v = true -> (spec_nodeCount v + spec_nodeCount v < 2 ^ 53)%Z ->
  spec_similarity_binary64 v v = Z2F 100.
Proof.
  intros Hnan Hlt. unfold spec_similarity_binary64.
  unfold diffJSON. rewrite (compare_same v Hnan). simpl length.
  set (total := (spec_nodeCount v + spec_nodeCount v)%Z) in *.
  destruct (Z.eqb_spec total 0) as [E | E]; [reflexivity|].
  pose proof (spec_nodeCount_nonneg v).
  replace (total - Z.of_nat 0 * 2)%Z with total by lia.
  destruct (Z2F_finite total ltac:(unfold total in *; lia)) as [m [e Ht]].
  rewrite Ht, SFdiv_same. vm_compute. reflexivity.
Qed.

(** C5, amended: calculateSimilarity is the half-up rounding of the raw
    percentage ((total - changeCount * 2) / total) * 100 clamped to [0, 100],
    the raw percentage being computed in binary64 (a division and a
    multiplication, each rounded to nearest), with changeCount the length of
    the diff and total the sum of the two nodeCounts of the specification;
    it is 100 when total is 0; the result is an integer of [0, 100], and it is
    100 when the two values are the same value (one without NaN, as every
    parsed value is).  The total is below 2^53, as far as a number counts
    exactly. *)
Theorem calculateSimilarity_spec (v1 v2 : value) :
  (spec_nodeCount v1 + spec_nodeCount v2 < 2 ^ 53)%Z ->
  (countNodes v1 = spec_nodeCount v1 /\ countNodes v2 = spec_nodeCount v2)
  /\ calculateSimilarity v1 v2 = spec_similarity_binary64 v1 v2
  /\ ((spec_nodeCount v1 + spec_nodeCount v2 = 0)%Z -> calculateSimilarity v1 v2 = Z2F 100)
  /\ (exists n, (0 <= n <= 100)%Z /\ calculateSimilarity v1 v2 = Z2F n)
  /\ (nan_free v1 = true -> v1 = v2 -> calculateSimilarity v1 v2 = Z2F 100).
Proof.
  intros Hlt. repeat split.
  - apply countNodes_spec.
  - apply countNodes_spec.
  - apply calculateSimilarity_binary64.
  - intros H0. rewrite calculateSimilarity_binary64. unfold spec_similarity_binary64.
    rewrite H0. reflexivity.
  - rewrite calculateSimilarity_binary64. apply similarity_range. exact Hlt.
  - intros Hnan <-. rewrite calculateSimilarity_binary64. apply similarity_same; assumption.
Qed.

(** ** The tokenizer *)

Lemma substring_full (s : string) : substring 0 (String.length s) s = s.
Proof. induction s as [|c s IH]; simpl; [reflexivity | rewrite IH; reflexivity]. Qed.

(** Within the string, [s[i]] is the first code unit of what is left at [i]. *)
Lemma drop_char_at (s : string) (i : nat) :
  i < String.length s ->
  exists c rest, char_at s i = Some c /\ drop i s = String c rest.
Proof.
  unfold drop, char_at. revert i.
  induction s as [|c s IH]; intros i Hi; simpl in Hi; [lia|].
  destruct i as [|i].
  - exists c, s. split; [reflexivity|]. simpl. rewrite substring_full. reflexivity.
  - destruct (IH i ltac:(lia)) as [d [rest [H1 H2]]].
    exists d, rest. split; [exact H1 | exact H2].
Qed.

Lemma char_is_false (c d : ascii) : char_is (Some c) d = false -> Ascii.eqb c d = false.
Proof. intros H. exact H. Qed.

(** The loop of the tokenizer ends, every iteration moving the index
    forward. *)
Lemma tokenize_loop_total (fuel : nat) (path : string) (i : nat) (tokens : list token) :
  String.length path - i < fuel ->
  exists ts, tokenize_loop fuel path i tokens = Some ts.
Proof.
  revert i tokens. induction fuel as [|fuel IH]; intros i tokens Hfuel; [lia|].
  simpl. destruct (Nat.ltb_spec i (String.length path)) as [Hlt | Hge]; simpl; [|eauto].
  destruct (char_is (char_at path i) ".") eqn:E1; [apply IH; lia|].
  destruct (char_is (char_at path i) "[") eqn:E2; [apply IH; lia|].
  simpl.
  destruct (char_is (char_at path i) "*") eqn:E3; [apply IH; lia|].
  apply IH.
  destruct (drop_char_at path i Hlt) as [c [rest [Hc Hd]]].
  rewrite Hc in E1, E2. apply char_is_false in E1, E2.
  rewrite Hd. simpl. unfold identifier_char at 1. rewrite E1, E2. simpl.
  destruct (span identifier_char rest) as [a b]. simpl. lia.
Qed.

Lemma classify_bracket_no_recursive (bracket : string) (tokens : list token) :
  ~ In TRecursive tokens -> ~ In TRecursive (classify_bracket bracket tokens).
Proof.
  intros H. unfold classify_bracket.
  repeat match goal with
         | |- ~ In _ (if ?b then _ else _) => destruct b
         | |- ~ In _ (match ?l with _ => _ end) => destruct l as [|? [|? ?]]
         end;
    try exact H; rewrite in_app_iff; simpl; intros [Hin | [Heq | []]];
    try discriminate Heq; exact (H Hin).
Qed.

Lemma tokenize_loop_no_recursive (fuel : nat) (path : string) (i : nat)
    (tokens ts : list token) :
  tokenize_loop fuel path i tokens = Some ts ->
  ~ In TRecursive tokens -> ~ In TRecursive ts.
Proof.
  revert i tokens. induction fuel as [|fuel IH]; intros i tokens; simpl; [discriminate|].
  destruct (negb (Nat.ltb i (String.length path))); [intros [= <-] H; exact H|].
  destruct (char_is (char_at path i) ".") eqn:E1; [apply IH|].
  destruct (char_is (char_at path i) "[") eqn:E2.
  { intros Hrun H. eapply IH; [exact Hrun|]. apply classify_bracket_no_recursive, H. }
  simpl.
  destruct (char_is (char_at path i) "*") eqn:E3.
  { intros Hrun H. eapply IH; [exact Hrun|].
    rewrite in_app_iff. simpl. intros [Hin | [Heq | []]]; [exact (H Hin) | discriminate]. }
  intros Hrun H. eapply IH; [exact Hrun|].
  destruct (fst (span identifier_char (drop i path))); [exact H|].
  rewrite in_app_iff. simpl. intros [Hin | [Heq | []]]; [exact (H Hin) | discriminate].
Qed.

(** C4: whatever the expression, tokenize emits no Recursive token; the test
    for two dots stands after the test that consumes a single dot, so its
    first conjunct is false whenever it is reached. *)
Theorem tokenize_no_recursive (path : string) : ~ In TRecursive (tokenize path).
Proof.
  unfold tokenize.
  destruct (String.eqb path EmptyString || String.eqb path "$"); [simpl; tauto|].
  destruct (tokenize_loop _ path _ []) as [ts|] eqn:E; [|simpl; tauto].
  eapply tokenize_loop_no_recursive; [exact E | simpl; tauto].
Qed.

Lemma queryJSONPath_root (v : value) :
  queryJSONPath v "$" = Success [v] [[PKey "$"]] 1.
Proof. reflexivity. Qed.

(** The result of [tokenize] is the result of its loop. *)
Lemma tokenize_is_loop (path : string) :
  String.eqb path EmptyString || String.eqb path "$" = false ->
  tokenize_loop (S (String.length path)) path
    (if char_is (char_at path 0) "$" then 1 else 0) []
  = Some (tokenize path).
Proof.
  intros H. unfold tokenize. rewrite H.
  destruct (tokenize_loop_total (S (String.length path)) path
              (if char_is (char_at path 0) "$" then 1 else 0) [] ltac:(lia)) as [ts Hts].
  rewrite Hts. reflexivity.
Qed.

(** C2: tokenize never fails: its loop ends on every expression and returns
    the token list; the empty expression and ["$"] give the empty token list;
    and the query of any value with ["$"] succeeds with exactly that value, at
    the root path (which the code writes [["$"]] and the specification [[]]),
    the empty expression giving the identical result. *)
Theorem tokenize_total_and_root_query :
  (forall path,
      String.eqb path EmptyString || String.eqb path "$" = false ->
      tokenize_loop (S (String.length path)) path
        (if char_is (char_at path 0) "$" then 1 else 0) []
      = Some (tokenize path))
  /\ tokenize EmptyString = [] /\ tokenize "$" = []
  /\ forall v,
       queryJSONPath v "$" = Success [v] [[PKey "$"]] 1
       /\ matches (queryJSONPath v "$") = [(v, [])]
       /\ queryJSONPath v EmptyString = queryJSONPath v "$".
Proof.
  split; [exact tokenize_is_loop | repeat split].
Qed.

(** ** The query evaluator *)

Lemma foldM_app {A B : Type} (f : A -> B -> result A) (l1 l2 : list B) (a : A) :
  foldM f (l1 ++ l2) a = bind (foldM f l1 a) (foldM f l2).
Proof.
  revert a. induction l1 as [|b l1 IH]; intros a; simpl; [reflexivity|].
  destruct (f a b) as [a'|e]; simpl; [apply IH | reflexivity].
Qed.

(** A loop throws as soon as one of its turns cannot but throw: at that turn
    or at an earlier one. *)
Lemma foldM_throw {A B : Type} (f : A -> B -> result A) (l : list B) (b : B) :
  In b l -> (forall a, exists e, f a b = Throw e) ->
  forall a, exists e, foldM f l a = Throw e.
Proof.
  intros Hin Hb. induction l as [|x l IH]; intros a; simpl; [destruct Hin|].
  destruct Hin as [-> | Hin].
  - destruct (Hb a) as [e He]. rewrite He. simpl. eauto.
  - destruct (f a x) as [a'|e]; simpl; [apply IH, Hin | eauto].
Qed.

Lemma foldM_unchanged {A B : Type} (f : A -> B -> result A) (l : list B) :
  (forall a b, In b l -> f a b = Ok a) -> forall a, foldM f l a = Ok a.
Proof.
  induction l as [|x l IH]; intros H a; simpl; [reflexivity|].
  rewrite (H a x (or_introl eq_refl)). simpl. apply IH.
  intros a' b Hb. apply H. right. exact Hb.
Qed.

(** Scenario B of the specification, as the code runs it. *)
Lemma filter_of_scenario_B :
  tokenize "$.items[?(@.id>1)]" = [TKey "items"; TFilter "(@.id>1)"]
  /\ filter_match "(@.id>1)" = Some ("id", ">", "1)")
  /\ parse_literal "1)" = LString "1)".
Proof. repeat split; vm_compute; reflexivity. Qed.

(** C1 (the code departs from the claim): on the root of scenario B the query
    [$.items[?(@.id>1)]] succeeds with no match at all, where the claim has
    the two matches with id 2 and 3.  The filter text kept from the brackets
    is [(@.id>1)], the last group of the pattern takes [1)] with the closing
    parenthesis, which is no number, and every comparison with it is false. *)
Theorem queryJSONPath_scenario_B :
  queryJSONPath scenario_B_root "$.items[?(@.id>1)]" = Success [] [] 0
  /\ matches (queryJSONPath scenario_B_root "$.items[?(@.id>1)]") = [].
Proof. split; vm_compute; reflexivity. Qed.

(** Without the parentheses the same filter keeps the two objects; the paths
    stay at the root marker, [paths] never receiving the new paths. *)
Lemma queryJSONPath_scenario_B_bare :
  queryJSONPath scenario_B_root "$.items[?@.id>1]"
  = Success [VObj [("id", num 2)]; VObj [("id", num 3)]] [[PKey "$"]] 2.
Proof. vm_compute. reflexivity. Qed.

(** A token after one that found two candidates: [paths] holds one path,
    the second candidate has none to spread, and the query fails. *)
Lemma queryJSONPath_wildcard_then_key :
  queryJSONPath scenario_B_root "$.items[*].id" = Failure NotIterable.
Proof. vm_compute. reflexivity. Qed.

(** *** Tokens that find nothing *)

Lemma evaluateFilter_no_grammar (item : value) (expression : string) :
  filter_match expression = None -> evaluateFilter item expression = Ok false.
Proof. intros H. unfold evaluateFilter. rewrite H. reflexivity. Qed.

Lemma applyToken_no_match (t : token) (v : value) (currentPath : option (list path_elem)) :
  no_match t v = true -> applyToken t v currentPath = Ok ([], []).
Proof.
  destruct t as [k | [n|] | | start stop | | expression]; simpl; try discriminate.
  - destruct (negb (is_null v) && String.eqb (typeof v) "object" && negb (isArray v));
      simpl; [|reflexivity].
    intros H. apply negb_true_iff in H. rewrite H. reflexivity.
  - intros H. apply negb_true_iff in H. rewrite H. reflexivity.
  - reflexivity.
  - intros H. apply negb_true_iff in H. rewrite H. reflexivity.
  - destruct (isArray v); simpl; [|reflexivity].
    destruct (filter_match expression) eqn:E; [discriminate|]. intros _.
    apply foldM_unchanged. intros acc i _.
    rewrite (evaluateFilter_no_grammar _ _ E). reflexivity.
Qed.

Lemma apply_to_all_no_match (t : token) (results : list value)
    (paths : list (list path_elem)) :
  forallb (no_match t) results = true -> apply_to_all t (results, paths) = Ok ([], []).
Proof.
  intros H. rewrite forallb_forall in H. unfold apply_to_all.
  rewrite foldM_unchanged.
  - simpl. rewrite app_nil_r, Nat.sub_0_r, skipn_all. reflexivity.
  - intros [vs ps] i Hi. apply in_seq in Hi.
    rewrite applyToken_no_match by (apply H, nth_In; lia).
    simpl. rewrite !app_nil_r. reflexivity.
Qed.

Lemma run_tokens_nothing (tokens : list token) : run_tokens tokens ([], []) = Ok ([], []).
Proof.
  unfold run_tokens. induction tokens as [|t tokens IH]; simpl; [reflexivity | exact IH].
Qed.

Lemma run_tokens_step (pre post : list token) (t : token) (st : found) :
  run_tokens (pre ++ t :: post) st
  = bind (run_tokens pre st) (fun st' => bind (apply_to_all t st') (run_tokens post)).
Proof. unfold run_tokens. rewrite foldM_app. reflexivity. Qed.

(** C3, amended: a filter expression that does not match the
    single-comparison grammar is no failure: the filter keeps no element.
    Like a key that is no property of the candidate, an index out of range
    and a slice or a filter applied to what is no array, it leaves zero
    candidates; and once a token has left none, the query succeeds with zero
    matches whatever tokens follow. *)
Theorem queryJSONPath_no_match (json : value) (path : string) (pre post : list token)
    (t : token) (candidates : list value) (paths : list (list path_elem)) :
  tokenize path = pre ++ t :: post ->
  run_tokens pre ([json], [[PKey "$"]]) = Ok (candidates, paths) ->
  forallb (no_match t) candidates = true ->
  queryJSONPath json path = Success [] [] 0.
Proof.
  intros Htok Hpre Hno. unfold queryJSONPath.
  rewrite Htok, run_tokens_step, Hpre. cbn [bind].
  rewrite (apply_to_all_no_match t candidates paths Hno). cbn [bind].
  rewrite run_tokens_nothing. reflexivity.
Qed.

(** *** A filter on an array that holds null *)

Lemma evaluateFilter_null (expression : string) :
  filter_match expression <> None ->
  exists e, evaluateFilter VNull expression = Throw e.
Proof.
  intros H. unfold evaluateFilter.
  destruct (filter_match expression) as [[[property operator] valueStr]|]; [|congruence].
  simpl. eauto.
Qed.

Lemma applyToken_filter_null (expression : string) (items : list value)
    (currentPath : option (list path_elem)) :
  In VNull items -> filter_match expression <> None ->
  exists e, applyToken (TFilter expression) (VArr items) currentPath = Throw e.
Proof.
  intros Hin Hm. simpl.
  destruct (In_nth items VNull VUndefined Hin) as [i [Hi Hnth]].
  apply (foldM_throw _ _ i); [apply in_seq; lia|].
  intros acc. rewrite Hnth.
  destruct (evaluateFilter_null expression Hm) as [e He]. rewrite He. simpl. eauto.
Qed.

Lemma apply_to_all_filter_null (expression : string) (results : list value)
    (paths : list (list path_elem)) (i : nat) (items : list value) :
  nth_error results i = Some (VArr items) -> In VNull items ->
  filter_match expression <> None ->
  exists e, apply_to_all (TFilter expression) (results, paths) = Throw e.
Proof.
  intros Hi Hin Hm. unfold apply_to_all.
  assert (Hlt : i < length results) by (apply nth_error_Some; congruence).
  destruct (foldM_throw
              (fun (acc : found) i =>
                 bind (applyToken (TFilter expression) (nth i results VUndefined)
                         (nth_error paths i))
                      (fun vp => Ok (fst acc ++ fst vp, snd acc ++ snd vp)))
              (seq 0 (length results)) i) with (a := (@nil value, @nil (list path_elem)))
    as [e He].
  - apply in_seq. lia.
  - intros acc. rewrite (nth_error_nth _ _ VUndefined Hi).
    destruct (applyToken_filter_null expression items (nth_error paths i) Hin Hm) as [e He].
    rewrite He. simpl. eauto.
  - rewrite He. simpl. eauto.
Qed.

(** C9: when a Filter token whose expression matches the comparison grammar
    is applied to a candidate array that holds a null element, queryJSONPath
    returns the failure result, success false with an error and no results:
    the evaluator reads the compared property of null, which throws. *)
Theorem queryJSONPath_filter_null (json : value) (path : string) (pre post : list token)
    (expression : string) (candidates : list value) (paths : list (list path_elem))
    (i : nat) (items : list value) :
  tokenize path = pre ++ TFilter expression :: post ->
  run_tokens pre ([json], [[PKey "$"]]) = Ok (candidates, paths) ->
  nth_error candidates i = Some (VArr items) ->
  In VNull items ->
  filter_match expression <> None ->
  exists e,
    queryJSONPath json path = Failure e
    /\ success (queryJSONPath json path) = false
    /\ results (queryJSONPath json path) = []
    /\ count (queryJSONPath json path) = 0.
Proof.
  intros Htok Hpre Hi Hin Hm.
  destruct (apply_to_all_filter_null expression candidates paths i items Hi Hin Hm)
    as [e He].
  exists e. assert (E : queryJSONPath json path = Failure e).
  { unfold queryJSONPath. rewrite Htok, run_tokens_step, Hpre. cbn [bind].
    rewrite He. reflexivity. }
  rewrite E. repeat split.
Qed.

(** ** The line resolver *)

Lemma length_substring_0 (n : nat) (s : string) :
  String.length (substring 0 n s) = Nat.min n (String.length s).
Proof.
  revert n. induction s as [|c s IH]; intros [|n]; simpl; try reflexivity.
  rewrite IH. reflexivity.
Qed.

Lemma index_suffix_lt (s : string) (i : nat) :
  index_suffix s = Some i -> i < String.length s.
Proof.
  revert i. induction s as [|c s IH]; intros i.
  - simpl. discriminate.
  - cbn [index_suffix]. destruct (index_suffix_here (String c s)).
    + intros [= <-]. simpl. lia.
    + destruct (index_suffix s) as [j|]; simpl; [|discriminate].
      intros [= <-]. specialize (IH j eq_refl). lia.
Qed.

Lemma lastIndexOf_lt (s : string) (c : ascii) (i : nat) :
  lastIndexOf s c = Some i -> i < String.length s.
Proof.
  revert i. induction s as [|d s IH]; intros i; simpl; [discriminate|].
  destruct (lastIndexOf s c) as [j|].
  - intros [= <-]. specialize (IH j eq_refl). lia.
  - destruct (Ascii.eqb d c); [intros [= <-]; lia | discriminate].
Qed.

(** A parent is strictly shorter than its path. *)
Lemma getParentPath_shorter (path : string) :
  path <> EmptyString -> String.length (getParentPath path) < String.length path.
Proof.
  intros Hne. destruct path as [|c s]; [congruence|].
  unfold getParentPath.
  destruct (index_suffix (String c s)) as [i|] eqn:E.
  - apply index_suffix_lt in E. rewrite length_substring_0. lia.
  - destruct (lastIndexOf (String c s) ".") as [d|] eqn:L.
    + apply lastIndexOf_lt in L. unfold slice, relative_index.
      replace (0 <? 0)%Z with false by reflexivity.
      replace (Z.of_nat d <? 0)%Z with false by (symmetry; apply Z.ltb_ge; lia).
      rewrite Nat2Z.id. change (Z.to_nat 0) with 0.
      rewrite Nat.min_0_l, Nat.sub_0_r, length_substring_0. lia.
    + simpl. lia.
Qed.

Lemma resolve_loop_total (fuel : nat) (path : string) (m : gmap string nat) :
  String.length path < fuel -> exists line, resolve_loop fuel path m = Some line.
Proof.
  revert path. induction fuel as [|fuel IH]; intros path Hfuel; [lia|].
  destruct path as [|c s]; [simpl; eauto|].
  cbn [resolve_loop].
  destruct (m !! getParentPath (String c s)) as [line|]; [eauto|].
  apply IH. pose proof (getParentPath_shorter (String c s) ltac:(discriminate)). lia.
Qed.

Lemma resolve_loop_fuel (n n' : nat) (path : string) (m : gmap string nat) :
  String.length path < n -> String.length path < n' ->
  resolve_loop n path m = resolve_loop n' path m.
Proof.
  revert n' path. induction n as [|n IH]; intros [|n'] path Hn Hn'; try lia.
  destruct path as [|c s]; [reflexivity|].
  cbn [resolve_loop].
  destruct (m !! getParentPath (String c s)) as [line|]; [reflexivity|].
  pose proof (getParentPath_shorter (String c s) ltac:(discriminate)).
  apply IH; lia.
Qed.

(** One step of the walk: an unrecorded path resolves as its parent does,
    the line recorded for the parent if there is one. *)
Lemma resolvePathLine_step (path : string) (m : gmap string nat) :
  path <> EmptyString -> m !! path = None ->
  resolvePathLine path m
  = match m !! getParentPath path with
    | Some line => line
    | None => resolvePathLine (getParentPath path) m
    end.
Proof.
  intros Hne Hnone. destruct path as [|c s]; [congruence|].
  pose proof (getParentPath_shorter (String c s) Hne) as Hlt.
  unfold resolvePathLine at 1. rewrite Hnone. cbn [resolve_loop].
  destruct (m !! getParentPath (String c s)) as [line|] eqn:E; [reflexivity|].
  unfold resolvePathLine. rewrite E.
  destruct (getParentPath (String c s)) as [|c' s'] eqn:P.
  - simpl. reflexivity.
  - rewrite (resolve_loop_fuel (String.length (String c s)) (S (String.length (String c' s'))));
      [reflexivity | exact Hlt | lia].
Qed.

(** With nothing recorded on the way up, the answer is line 1. *)
Lemma resolvePathLine_unrecorded (path : string) (m : gmap string nat) :
  (forall q, m !! q = None) -> resolvePathLine path m = 1.
Proof.
  intros Hm. remember (String.length path) as n eqn:Hn. revert path Hn.
  induction n as [n IH] using lt_wf_ind. intros path Hn.
  destruct path as [|c s]; [reflexivity|].
  rewrite resolvePathLine_step by (try discriminate; apply Hm).
  rewrite Hm. eapply IH; [|reflexivity].
  pose proof (getParentPath_shorter (String c s) ltac:(discriminate)). lia.
Qed.

(** *** The line map never holds the root *)

Lemma set_line_root (path : string) (lineNo : nat) (st : printer) :
  pathToLine st !! EmptyString = None ->
  pathToLine (set_line path lineNo st) !! EmptyString = None.
Proof.
  intros H. destruct path as [|c s]; simpl; [exact H|].
  rewrite lookup_insert_ne by discriminate. exact H.
Qed.

Lemma appendValue_root (v : value) :
  forall indentText path depth addComma key st,
    pathToLine st !! EmptyString = None ->
    pathToLine (appendValue indentText v path depth addComma key st) !! EmptyString = None.
Proof.
  induction v as [ | | b | x | s | items IH | entries IH | name | ] using value_ind';
    intros indentText path depth addComma key st H;
    try (simpl; apply set_line_root; exact H).
  - destruct items as [|item items]; [simpl; apply set_line_root; exact H|].
    cbn [appendValue]. unfold addLine at 1 2. cbn [fst pathToLine].
    set (n := length (item :: items) - 1). clearbody n.
    set (st0 := set_line path _ _).
    assert (H0 : pathToLine st0 !! EmptyString = None)
      by (apply set_line_root; exact H).
    clearbody st0. inversion IH as [|? ? Hitem Hitems]; subst.
    set (st1 := appendValue _ _ _ _ _ _ st0).
    assert (H1 : pathToLine st1 !! EmptyString = None) by (apply Hitem; exact H0).
    clearbody st1. clear IH Hitem st0 H0. revert st1 H1. generalize 1 as index.
    induction Hitems as [|it its Hit Hits IHl]; intros index st1 H1; [exact H1|].
    apply IHl. apply Hit. exact H1.
  - destruct entries as [|entry entries]; [simpl; apply set_line_root; exact H|].
    cbn [appendValue]. unfold addLine at 1 2. cbn [fst pathToLine].
    set (n := length (entry :: entries) - 1). clearbody n.
    set (st0 := set_line path _ _).
    assert (H0 : pathToLine st0 !! EmptyString = None)
      by (apply set_line_root; exact H).
    clearbody st0. inversion IH as [|? ? Hitem Hitems]; subst.
    set (st1 := appendValue _ _ _ _ _ _ st0).
    assert (H1 : pathToLine st1 !! EmptyString = None) by (apply Hitem; exact H0).
    clearbody st1. clear IH Hitem st0 H0. revert st1 H1. generalize 1 as index.
    induction Hitems as [|it its Hit Hits IHl]; intros index st1 H1; [exact H1|].
    apply IHl. apply Hit. exact H1.
Qed.

(** The empty path is never a key of the map [stringifyWithPathMap] builds. *)
Lemma stringifyWithPathMap_root (v : value) (indent : nat) :
  snd (stringifyWithPathMap v indent) !! EmptyString = None.
Proof.
  unfold stringifyWithPathMap. cbn [snd]. apply appendValue_root. reflexivity.
Qed.

(** *** What one step strips *)

Lemma span_append (p : ascii -> bool) (s : string) :
  fst (span p s) +:+ snd (span p s) = s.
Proof.
  induction s as [|c s IH]; simpl; [reflexivity|].
  destruct (p c); [|reflexivity].
  destruct (span p s) as [a b]. simpl in *. rewrite <- IH. reflexivity.
Qed.

Lemma length_append (a b : string) :
  String.length (a +:+ b) = String.length a + String.length b.
Proof.
  induction a as [|c a IH]; [reflexivity|].
  change (String c a +:+ b) with (String c (a +:+ b)). simpl. rewrite IH. reflexivity.
Qed.

Lemma append_nil_r (a : string) : a +:+ EmptyString = a.
Proof.
  induction a as [|c a IH]; [reflexivity|].
  change (String c a +:+ EmptyString) with (String c (a +:+ EmptyString)).
  rewrite IH. reflexivity.
Qed.

Lemma span_stops (p : ascii -> bool) (a : string) (x : ascii) (b : string) :
  p x = false ->
  String.length (String x b) <= String.length (snd (span p (a +:+ String x b))).
Proof.
  intros Hx. induction a as [|c a IH]; simpl.
  - rewrite Hx. simpl. lia.
  - destruct (p c).
    + destruct (span p (a +:+ String x b)) as [u v]. simpl in *. exact IH.
    + simpl. rewrite length_append. simpl. lia.
Qed.

Lemma span_all (p : ascii -> bool) (ds : string) (x : ascii) (b : string) :
  snd (span p ds) = EmptyString -> p x = false ->
  span p (ds +:+ String x b) = (ds, String x b).
Proof.
  intros Hall Hx. induction ds as [|c ds IH]; simpl.
  - rewrite Hx. reflexivity.
  - simpl in Hall. destruct (p c).
    + destruct (span p ds) as [u v]. simpl in Hall. rewrite (IH Hall). reflexivity.
    + discriminate.
Qed.

Lemma all_digits_span (ds : string) :
  all_digits ds = true ->
  snd (span is_digit ds) = EmptyString /\ exists c r, ds = String c r.
Proof.
  unfold all_digits. pose proof (span_append is_digit ds) as H.
  destruct (span is_digit ds) as [[|c a] [|d b]]; try discriminate.
  intros _. cbn [fst snd] in H. split; [reflexivity|]. exists c, a.
  rewrite <- H. apply append_nil_r.
Qed.

Lemma substring_prefix (p x : string) : substring 0 (String.length p) (p +:+ x) = p.
Proof.
  induction p as [|c p IH]; simpl.
  - destruct x; reflexivity.
  - rewrite IH. reflexivity.
Qed.

Lemma index_suffix_here_bracket (ds : string) :
  all_digits ds = true -> index_suffix_here ("[" +:+ ds +:+ "]") = true.
Proof.
  intros H. destruct (all_digits_span ds H) as [Hall [c [r ->]]].
  change ("[" +:+ String c r +:+ "]") with (String "[" (String c r +:+ "]")).
  unfold index_suffix_here.
  rewrite (span_all is_digit (String c r) "]" EmptyString Hall eq_refl). reflexivity.
Qed.

Lemma index_suffix_eq (s : string) :
  index_suffix s
  = if index_suffix_here s then Some 0
    else match s with
         | EmptyString => None
         | String _ s' => option_map S (index_suffix s')
         end.
Proof. destruct s; reflexivity. Qed.

Lemma index_suffix_app (p ds : string) :
  all_digits ds = true ->
  index_suffix (p +:+ "[" +:+ ds +:+ "]") = Some (String.length p).
Proof.
  intros H. induction p as [|c p IH].
  - change (EmptyString +:+ "[" +:+ ds +:+ "]") with ("[" +:+ ds +:+ "]").
    rewrite index_suffix_eq, (index_suffix_here_bracket ds H). reflexivity.
  - change (String c p +:+ "[" +:+ ds +:+ "]") with (String c (p +:+ "[" +:+ ds +:+ "]")).
    rewrite index_suffix_eq.
    assert (Hf : index_suffix_here (String c (p +:+ "[" +:+ ds +:+ "]")) = false).
    { destruct (Ascii.eqb_spec c "[") as [-> | Hc].
      - pose proof (span_stops is_digit p "[" (ds +:+ "]") eq_refl) as Hlen.
        change ("[" +:+ ds +:+ "]") with (String "[" (ds +:+ "]")).
        unfold index_suffix_here.
        destruct (span is_digit (p +:+ String "[" (ds +:+ "]"))) as [u v].
        cbn [snd] in Hlen. simpl String.length in Hlen.
        destruct u as [|? ?]; [reflexivity|].
        destruct v as [|? [|? ?]]; try reflexivity.
        + rewrite length_append in Hlen. simpl in Hlen. lia.
        + destruct a0 as [[] [] [] [] [] [] [] []]; reflexivity.
      - unfold index_suffix_here.
        destruct c as [[] [] [] [] [] [] [] []]; try reflexivity. congruence. }
    rewrite Hf, IH. reflexivity.
Qed.

(** An [[n]] suffix strips to its container. *)
Lemma getParentPath_index (p ds : string) :
  all_digits ds = true -> getParentPath (p +:+ "[" +:+ ds +:+ "]") = p.
Proof.
  intros H. unfold getParentPath. rewrite (index_suffix_app p ds H).
  rewrite substring_prefix.
  destruct (p +:+ "[" +:+ ds +:+ "]") eqn:E; [|reflexivity].
  destruct p; [discriminate E | discriminate E].
Qed.

Lemma lastIndexOf_absent (key : string) (c : ascii) :
  includes key c = false -> lastIndexOf key c = None.
Proof.
  induction key as [|d key IH]; simpl; [reflexivity|].
  intros H. apply orb_false_elim in H as [Hd Hk]. rewrite (IH Hk), Hd. reflexivity.
Qed.

Lemma lastIndexOf_app (p key : string) (c : ascii) :
  includes key c = false ->
  lastIndexOf (p +:+ String c key) c = Some (String.length p).
Proof.
  intros H. induction p as [|d p IH]; simpl.
  - rewrite (lastIndexOf_absent key c H), Ascii.eqb_refl. reflexivity.
  - rewrite IH. reflexivity.
Qed.

(** A trailing [.key] strips to its parent. *)
Lemma getParentPath_key (p key : string) :
  includes key "." = false -> index_suffix (p +:+ "." +:+ key) = None ->
  getParentPath (p +:+ "." +:+ key) = p.
Proof.
  intros Hk Hi. unfold getParentPath. rewrite Hi.
  change ("." +:+ key) with (String "." key) in *.
  rewrite (lastIndexOf_app p key "." Hk).
  unfold slice, relative_index.
  replace (0 <? 0)%Z with false by reflexivity.
  replace (Z.of_nat (String.length p) <? 0)%Z with false by (symmetry; apply Z.ltb_ge; lia).
  rewrite Nat2Z.id, length_append. change (Z.to_nat 0) with 0.
  rewrite Nat.min_0_l, Nat.sub_0_r.
  replace (Nat.min (String.length p) (String.length p + String.length (String "." key)))
    with (String.length p) by lia.
  rewrite substring_prefix.
  destruct (p +:+ String "." key) eqn:E; [|reflexivity].
  destruct p; discriminate E.
Qed.

(** Scenario D of the specification. *)
Lemma stringifyWithPathMap_scenario_D :
  snd (stringifyWithPathMap scenario_D_value 2) = <["a.b" := 3]> (<["a" := 2]> ∅)
  /\ resolvePathLine "a.b.c" (snd (stringifyWithPathMap scenario_D_value 2)) = 3.
Proof. split; vm_compute; reflexivity. Qed.

(** C7, amended: resolvePathLine returns the recorded line when the path is
    in the LineMap, and otherwise strips the last segment again and again (an
    [[n]] suffix to its container, a trailing [.key] to its parent) until a
    recorded ancestor is found; the root, the empty path, is never recorded:
    the empty path, and a walk that meets no recorded ancestor, resolve to
    line 1 by the fallback of the function, and the walk ends because every
    parent is shorter than its path; with the LineMap of [{"a":{"b":1}}],
    which records [a] and [a.b] and nothing else, the path [a.b.c] resolves
    to the line recorded for [a.b]. *)
Theorem resolvePathLine_spec (path : string) (m : gmap string nat) :
  path <> EmptyString ->
  (forall line, m !! path = Some line -> resolvePathLine path m = line)
  /\ (m !! path = None ->
      resolvePathLine path m
      = match m !! getParentPath path with
        | Some line => line
        | None => resolvePathLine (getParentPath path) m
        end)
  /\ (forall p ds, all_digits ds = true -> getParentPath (p +:+ "[" +:+ ds +:+ "]") = p)
  /\ (forall p key, includes key "." = false -> index_suffix (p +:+ "." +:+ key) = None ->
      getParentPath (p +:+ "." +:+ key) = p)
  /\ String.length (getParentPath path) < String.length path
  /\ (exists line, resolve_loop (S (String.length path)) path m = Some line)
  /\ ((forall q, m !! q = None) -> resolvePathLine path m = 1)
  /\ resolvePathLine EmptyString m = 1
  /\ (forall v indent, snd (stringifyWithPathMap v indent) !! EmptyString = None)
  /\ snd (stringifyWithPathMap scenario_D_value 2) = <["a.b" := 3]> (<["a" := 2]> ∅)
  /\ resolvePathLine "a.b.c" (snd (stringifyWithPathMap scenario_D_value 2))
     = resolvePathLine "a.b" (snd (stringifyWithPathMap scenario_D_value 2))
  /\ snd (stringifyWithPathMap scenario_D_value 2) !! "a.b" = Some 3.
Proof.
  intros Hne. split; [|split; [|split; [|split; [|split; [|split; [|split; [|split;
    [|split; [|split; [|split]]]]]]]]]].
  - intros line H. destruct path as [|c s]; [congruence|].
    unfold resolvePathLine. rewrite H. reflexivity.
  - apply resolvePathLine_step. exact Hne.
  - exact getParentPath_index.
  - exact getParentPath_key.
  - apply getParentPath_shorter. exact Hne.
  - apply resolve_loop_total. lia.
  - apply resolvePathLine_unrecorded.
  - reflexivity.
  - exact stringifyWithPathMap_root.
  - apply stringifyWithPathMap_scenario_D.
  - vm_compute. reflexivity.
  - vm_compute. reflexivity.
Qed.

(** ** The query evaluator: values and paths *)

Lemma foldM_invariant {A B : Type} (P : A -> Prop) (f : A -> B -> result A) (l : list B) :
  (forall a b a', P a -> f a b = Ok a' -> P a') ->
  forall a a', P a -> foldM f l a = Ok a' -> P a'.
Proof.
  intros Hf. induction l as [|b l IH]; intros a a' Ha; simpl.
  - intros [= <-]. exact Ha.
  - destruct (f a b) as [a1|e] eqn:E; simpl; [|discriminate].
    apply IH. apply (Hf a b a1 Ha E).
Qed.


Lemma balanced_push (acc : found) (v : value) (p : list path_elem) :
  balanced acc -> balanced (push acc v p).
Proof.
  unfold balanced, push. simpl. rewrite !length_app. simpl. lia.
Qed.

Lemma collect_balanced (obj : value) :
  forall path acc acc', balanced acc -> collect obj path acc = Ok acc' -> balanced acc'.
Proof.
  induction obj as [ | | b | x | s | items IH | entries IH | name | ] using value_ind';
    intros path acc acc' Hacc; simpl; try (intros [= <-]; exact Hacc).
  - generalize 0 as i. revert acc Hacc.
    induction IH as [|item items Hitem _ IHitems]; intros acc Hacc i.
    + intros [= <-]. exact Hacc.
    + destruct (spread path (PIndex (Z.of_nat i))) as [p|e]; simpl; [|discriminate].
      destruct (collect item (Some p) (push acc item p)) as [acc1|e] eqn:E; simpl;
        [|discriminate].
      apply IHitems. apply (Hitem _ _ _ (balanced_push acc item p Hacc) E).
  - revert acc Hacc.
    induction IH as [|kv entries Hkv _ IHentries]; intros acc Hacc.
    + intros [= <-]. exact Hacc.
    + destruct (spread path (PKey (fst kv))) as [p|e]; simpl; [|discriminate].
      destruct (collect (snd kv) (Some p) (push acc (snd kv) p)) as [acc1|e] eqn:E; simpl;
        [|discriminate].
      apply IHentries. apply (Hkv _ _ _ (balanced_push acc (snd kv) p Hacc) E).
Qed.

Lemma applyToken_balanced (t : token) (current : value)
    (currentPath : option (list path_elem)) (vp : found) :
  applyToken t current currentPath = Ok vp -> balanced vp.
Proof.
  assert (H0 : balanced ([], [])) by reflexivity.
  destruct t as [k | [n|] | | start stop | | expression]; simpl.
  - destruct (negb (is_null current) && String.eqb (typeof current) "object"
              && negb (isArray current)); [|intros [= <-]; exact H0].
    destruct (has_property current k); [|intros [= <-]; exact H0].
    destruct (spread currentPath (PKey k)); simpl; [|discriminate].
    intros [= <-]. reflexivity.
  - destruct (isArray current && (0 <=? n)%Z && (n <? Z.of_nat (array_length current))%Z);
      [|intros [= <-]; exact H0].
    destruct (spread currentPath (PIndex n)); simpl; [|discriminate].
    intros [= <-]. reflexivity.
  - intros [= <-]. exact H0.
  - destruct (isArray current).
    + apply foldM_invariant; [|exact H0]. intros acc i acc' Hacc.
      destruct (spread currentPath (PIndex (Z.of_nat i))); simpl; [|discriminate].
      intros [= <-]. apply balanced_push, Hacc.
    + destruct (negb (is_null current) && String.eqb (typeof current) "object");
        [|intros [= <-]; exact H0].
      apply foldM_invariant; [|exact H0]. intros acc key acc' Hacc.
      destruct (spread currentPath (PKey key)); simpl; [|discriminate].
      intros [= <-]. apply balanced_push, Hacc.
  - destruct (isArray current); [|intros [= <-]; exact H0].
    destruct (match start with Null => Some 0%Z | Parsed n => n end) as [s|];
      [|intros [= <-]; exact H0].
    destruct (match stop with
              | Null => Some (Z.of_nat (array_length current))
              | Parsed n => n
              end) as [e|]; [|intros [= <-]; exact H0].
    apply foldM_invariant; [|exact H0]. intros acc i acc' Hacc.
    destruct (spread currentPath (PIndex i)); simpl; [|discriminate].
    intros [= <-]. apply balanced_push, Hacc.
  - apply collect_balanced. exact H0.
  - destruct (isArray current); [|intros [= <-]; exact H0].
    apply foldM_invariant; [|exact H0]. intros acc i acc' Hacc.
    destruct (evaluateFilter (array_get current i) expression) as [[|]|]; simpl;
      [| intros [= <-]; exact Hacc | discriminate].
    destruct (spread currentPath (PIndex (Z.of_nat i))); simpl; [|discriminate].
    intros [= <-]. apply balanced_push, Hacc.
Qed.


Lemma apply_to_all_root_path_only (t : token) (st st' : found) :
  root_path_only st -> apply_to_all t st = Ok st' -> root_path_only st'.
Proof.
  destruct st as [results paths]. unfold apply_to_all.
  match goal with
  | |- context [foldM ?f ?l ?a] =>
      destruct (foldM f l a) as [[newResults newPaths]|e] eqn:E; simpl; [|discriminate]
  end.
  intros Hst [= <-].
  assert (Hb : balanced (newResults, newPaths)).
  { revert E. apply foldM_invariant; [|reflexivity].
    intros acc i acc' Hacc.
    destruct (applyToken t (nth i results VUndefined) (nth_error paths i)) as [vp|e'] eqn:Ev;
      simpl; [|discriminate].
    intros [= <-]. apply applyToken_balanced in Ev.
    unfold balanced in *. simpl. rewrite !length_app. lia. }
  unfold balanced in Hb. simpl in Hb.
  assert (Hs : skipn (length newResults) newPaths = []) by (apply skipn_all2; lia).
  rewrite Hs, app_nil_r. unfold root_path_only. simpl.
  destruct Hst as [[Hr Hp] | [Hr Hp]]; simpl in Hr, Hp; subst.
  - simpl in E. injection E as <- <-. left. split; reflexivity.
  - destruct newResults as [|v newResults].
    + left. split; reflexivity.
    + right. split; [discriminate | reflexivity].
Qed.

Lemma run_tokens_root_path_only (tokens : list token) (st st' : found) :
  root_path_only st -> run_tokens tokens st = Ok st' -> root_path_only st'.
Proof.
  unfold run_tokens. apply foldM_invariant.
  intros a t a' Ha. apply apply_to_all_root_path_only. exact Ha.
Qed.

Lemma queryJSONPath_root_path_only (json : value) (path : string)
    (rs : list value) (ps : list (list path_elem)) (c : nat) :
  queryJSONPath json path = Success rs ps c ->
  c = length rs /\ ps = match rs with
                        | [] => []
                        | _ => [[PKey "$"]]
                        end.
Proof.
  unfold queryJSONPath.
  destruct (run_tokens (tokenize path) ([json], [[PKey "$"]])) as [[results paths]|e] eqn:E;
    [|discriminate].
  intros [= <- <- <-]. split; [reflexivity|].
  apply run_tokens_root_path_only in E; [|right; split; [discriminate | reflexivity]].
  destruct E as [[Hr Hp] | [Hr Hp]]; simpl in Hr, Hp; subst; [reflexivity|].
  destruct results as [|v results]; [congruence|].
  cbn [length firstn]. rewrite firstn_nil. reflexivity.
Qed.

(** X1: a token application returns as many paths as values, whatever the
    token, the candidate and its path. *)
Theorem applyToken_values_paths (t : token) (current : value)
    (currentPath : option (list path_elem)) (values : list value)
    (paths : list (list path_elem)) :
  applyToken t current currentPath = Ok (values, paths) ->
  length values = length paths.
Proof.
  intros H. apply (applyToken_balanced t current currentPath (values, paths) H).
Qed.

(** X2: a successful query counts its results, and the paths it returns are
    never those of the results: there is none when nothing was found, and
    otherwise the single path of the root marker, however many results
    there are. *)
Theorem queryJSONPath_paths (json : value) (path : string)
    (rs : list value) (ps : list (list path_elem)) (c : nat) :
  queryJSONPath json path = Success rs ps c ->
  c = length rs
  /\ (rs = [] -> ps = [])
  /\ (rs <> [] -> ps = [[PKey "$"]]).
Proof.
  intros H. destruct (queryJSONPath_root_path_only json path rs ps c H) as [Hc Hp].
  split; [exact Hc|]. split.
  - intros ->. exact Hp.
  - intros Hne. destruct rs; [congruence | exact Hp].
Qed.

(** *** The display of a result *)

Lemma display_value_returns (item : value) : exists shown, display_value item = Ok shown.
Proof.
  unfold display_value. destruct item as [ | | [|] | x | s | items | entries | name | ]; simpl;
    eauto.
Qed.

(** X3: the display of what a query returns.  No result gives the fixed
    text; a single result is shown under the path [$]; and with two results
    or more [formatQueryResult] throws, the second result having no path to
    join. *)
Theorem formatQueryResult_of_query (json : value) (path : string)
    (rs : list value) (ps : list (list path_elem)) (c : nat) :
  queryJSONPath json path = Success rs ps c ->
  (c = 0 -> formatQueryResult (Success rs ps c) = Ok "No results found")
  /\ (c = 1 ->
      exists item shown,
        rs = [item] /\ display_value item = Ok shown
        /\ formatQueryResult (Success rs ps c)
           = Ok ("Found 1 result(s):" +:+ newline +:+ newline
                 +:+ "Path: $" +:+ newline +:+ "Value: " +:+ shown))
  /\ (2 <= c -> formatQueryResult (Success rs ps c) = Throw (CannotReadProperty "join")).
Proof.
  intros H. destruct (queryJSONPath_root_path_only json path rs ps c H) as [Hc Hp].
  subst c. split; [|split].
  - intros E. simpl. rewrite E. reflexivity.
  - intros E. destruct rs as [|item [|item' rs]]; try discriminate E.
    destruct (display_value_returns item) as [shown Hs].
    exists item, shown. split; [reflexivity|]. split; [exact Hs|].
    subst ps. simpl. rewrite Hs. reflexivity.
  - intros E. destruct rs as [|item [|item' rs]]; simpl in E; try lia.
    subst ps. cbn [formatQueryResult length Nat.eqb seq combine map_result].
    destruct (display_value_returns item) as [shown Hs].
    destruct (display_value_returns item') as [shown' Hs'].
    rewrite Hs, Hs'. reflexivity.
Qed.

(** *** The wildcard and the slice *)

Lemma foldM_ok {A B : Type} (f : A -> B -> result A) (g : A -> B -> A) (l : list B) :
  (forall a b, In b l -> f a b = Ok (g a b)) ->
  forall a, foldM f l a = Ok (fold_left g l a).
Proof.
  induction l as [|b l IH]; intros H a; simpl; [reflexivity|].
  rewrite (H a b (or_introl eq_refl)). simpl. apply IH.
  intros a' b' Hb'. apply H. right. exact Hb'.
Qed.

Lemma fold_left_push {B : Type} (fv : B -> value) (fp : B -> list path_elem) (l : list B)
    (acc : found) :
  fold_left (fun acc b => push acc (fv b) (fp b)) l acc
  = (fst acc ++ map fv l, snd acc ++ map fp l).
Proof.
  revert acc. induction l as [|b l IH]; intros [vs ps]; simpl.
  - rewrite !app_nil_r. reflexivity.
  - rewrite IH. unfold push. simpl. rewrite <- !app_assoc. reflexivity.
Qed.

Lemma map_nth_seq (items : list value) :
  map (fun i => nth i items VUndefined) (seq 0 (length items)) = items.
Proof.
  induction items as [|v items IH]; simpl; [reflexivity|].
  rewrite <- seq_shift, map_map. simpl. rewrite IH. reflexivity.
Qed.

Lemma applyToken_wildcard_array (items : list value) (p : list path_elem) :
  applyToken TWildcard (VArr items) (Some p)
  = Ok (items, map (fun i => p ++ [PIndex (Z.of_nat i)]) (seq 0 (length items))).
Proof.
  simpl.
  rewrite (foldM_ok _ (fun acc i => push acc (nth i items VUndefined)
                                         (p ++ [PIndex (Z.of_nat i)]))).
  - rewrite (fold_left_push (fun i => nth i items VUndefined)
               (fun i => p ++ [PIndex (Z.of_nat i)])).
    simpl. rewrite map_nth_seq. reflexivity.
  - reflexivity.
Qed.

Lemma map_own_entries (entries : list (string * value)) :
  List.NoDup (map fst entries) ->
  map (get (VObj entries)) (map fst entries) = map snd entries.
Proof.
  intros Hnd. rewrite map_map. apply map_ext_in. intros [k v] Hin. simpl.
  rewrite (in_own entries k v Hnd Hin). reflexivity.
Qed.

Lemma applyToken_wildcard_object (entries : list (string * value)) (p : list path_elem) :
  List.NoDup (map fst entries) ->
  applyToken TWildcard (VObj entries) (Some p)
  = Ok (map snd entries, map (fun k => p ++ [PKey k]) (map fst entries)).
Proof.
  intros Hnd. simpl.
  rewrite (foldM_ok _ (fun acc key => push acc (get (VObj entries) key) (p ++ [PKey key]))).
  - rewrite (fold_left_push (get (VObj entries)) (fun key => p ++ [PKey key])).
    simpl. rewrite map_own_entries by exact Hnd. reflexivity.
  - reflexivity.
Qed.

Lemma apply_to_all_single (t : token) (current : value) (values : list value)
    (paths : list (list path_elem)) :
  applyToken t current (Some [PKey "$"]) = Ok (values, paths) ->
  apply_to_all t ([current], [[PKey "$"]])
  = Ok (values, match values with
                | [] => []
                | _ => [[PKey "$"]]
                end).
Proof.
  intros H. pose proof (applyToken_balanced _ _ _ _ H) as Hb.
  unfold balanced in Hb. simpl in Hb.
  unfold apply_to_all. simpl. rewrite H. simpl.
  assert (Hs : skipn (length values) paths = []) by (apply skipn_all2; lia).
  rewrite Hs. simpl.
  destruct values as [|v values]; reflexivity.
Qed.

(** X4: the wildcard.  On an array the query [$[*]] returns the elements in
    their order and counts them; on an object whose keys are distinct it
    returns the values in the order of the keys.  The paths it returns are
    not those of the results: they are the root marker alone. *)
Theorem queryJSONPath_wildcard (items : list value) (entries : list (string * value)) :
  queryJSONPath (VArr items) "$[*]"
  = Success items (match items with [] => [] | _ => [[PKey "$"]] end) (length items)
  /\ (List.NoDup (map fst entries) ->
      queryJSONPath (VObj entries) "$.*"
      = Success (map snd entries)
                (match entries with [] => [] | _ => [[PKey "$"]] end)
                (length entries)).
Proof.
  split.
  - unfold queryJSONPath.
    change (tokenize "$[*]") with [TWildcard].
    unfold run_tokens. cbn [foldM].
    rewrite (apply_to_all_single _ _ _ _ (applyToken_wildcard_array items [PKey "$"])).
    cbn [bind]. destruct items as [|v items]; [reflexivity|].
    cbn [length firstn]. rewrite firstn_nil. reflexivity.
  - intros Hnd. unfold queryJSONPath.
    change (tokenize "$.*") with [TWildcard].
    unfold run_tokens. cbn [foldM].
    rewrite (apply_to_all_single _ _ _ _ (applyToken_wildcard_object entries [PKey "$"] Hnd)).
    cbn [bind]. rewrite length_map. destruct entries as [|kv entries]; [reflexivity|].
    cbn [map length firstn]. rewrite firstn_nil. reflexivity.
Qed.







(** *** A key after the root, and the suggestions *)

Lemma simple_key_cases (k : string) :
  simple_key k = true ->
  exists c k', k = String c k' /\ Ascii.eqb c "*" = false
               /\ identifier_char c = true /\ span identifier_char k = (k, EmptyString).
Proof.
  unfold simple_key. destruct k as [|c k']; [discriminate|].
  intros H. apply andb_true_iff in H as [Hstar Hspan].
  apply negb_true_iff in Hstar.
  pose proof (span_append identifier_char (String c k')) as Happ.
  destruct (span identifier_char (String c k')) as [a b] eqn:E.
  destruct b; [|discriminate]. cbn [fst snd] in Happ. rewrite append_nil_r in Happ.
  subst a. exists c, k'. repeat split; try assumption.
  simpl in E. destruct (identifier_char c); [reflexivity | discriminate].
Qed.

Lemma tokenize_dot_key (k : string) :
  simple_key k = true -> tokenize ("$." +:+ k) = [TKey k].
Proof.
  intros H. destruct (simple_key_cases k H) as [c [k' [-> [Hstar [Hid Hspan]]]]].
  unfold identifier_char in Hid. apply andb_true_iff in Hid as [Hdot Hbr].
  apply negb_true_iff in Hdot, Hbr.
  unfold tokenize.
  change ("$." +:+ String c k') with (String "$" (String "." (String c k'))).
  cbn [String.eqb Ascii.eqb Bool.eqb orb andb char_at String.get char_is String.length].
  cbn [tokenize_loop String.length Nat.ltb Nat.leb negb char_at String.get char_is
       Ascii.eqb Bool.eqb andb Nat.add].
  rewrite Hdot, Hbr, Hstar. cbn [andb].
  assert (Hdrop : drop 2 (String "$" (String "." (String c k'))) = String c k')
    by (unfold drop; simpl; rewrite substring_full; reflexivity).
  rewrite Hdrop, Hspan. cbn [fst String.length].
  rewrite (proj2 (Nat.leb_gt _ _)) by lia. reflexivity.
Qed.

Lemma own_has_property (entries : list (string * value)) (k : string) (v : value) :
  own entries k = Some v ->
  has_property (VObj entries) k = true /\ get (VObj entries) k = v.
Proof. intros H. simpl. rewrite H. split; reflexivity. Qed.

Lemma queryJSONPath_dot_key (entries : list (string * value)) (k : string) (v : value) :
  simple_key k = true -> own entries k = Some v ->
  queryJSONPath (VObj entries) ("$." +:+ k) = Success [v] [[PKey "$"]] 1.
Proof.
  intros Hk Hv. unfold queryJSONPath. rewrite (tokenize_dot_key k Hk).
  unfold run_tokens. cbn [foldM].
  rewrite (apply_to_all_single (TKey k) (VObj entries) [v] [[PKey "$"; PKey k]]).
  - reflexivity.
  - cbn [applyToken is_null typeof isArray negb andb String.eqb].
    destruct (own_has_property entries k v Hv) as [Hh Hg].
    simpl. rewrite Hv. reflexivity.
Qed.

(** X6: the suggestions at the root of an object hold [.k] for every key
    [k]; when the key is not empty, does not begin with a star and holds
    neither a dot nor an opening bracket, the path [$.k] reads back as the
    one key and the query returns the value of that key, once. *)
Theorem getPathSuggestions_object (entries : list (string * value)) (k : string) (v : value) :
  own entries k = Some v ->
  exists suggestions,
    getPathSuggestions (VObj entries) "$" = Some suggestions
    /\ In ("." +:+ k) suggestions
    /\ (simple_key k = true ->
        tokenize ("$" +:+ "." +:+ k) = [TKey k]
        /\ queryJSONPath (VObj entries) ("$" +:+ "." +:+ k) = Success [v] [[PKey "$"]] 1).
Proof.
  intros Hv. eexists. split; [reflexivity|]. split.
  - apply in_or_app. left. simpl. apply in_map_iff. exists k. split; [reflexivity|].
    apply own_in in Hv. apply in_map_iff. exists (k, v). split; [reflexivity | exact Hv].
  - intros Hk. split; [apply tokenize_dot_key, Hk | apply queryJSONPath_dot_key; assumption].
Qed.

(** The loop of [getPathSuggestions] and the query agree on keys and
    indices, as long as the query has a candidate. *)
Lemma applyToken_follow (t : token) (current : value) (p : list path_elem)
    (values : list value) (paths : list (list path_elem)) :
  is_step t = true ->
  applyToken t current (Some p) = Ok (values, paths) ->
  values = [] \/ values = [follow current t].
Proof.
  destruct t as [k | [n|] | | start stop | | expression]; try discriminate; intros _; simpl.
  - destruct current; simpl; try (intros [= <- <-]; left; reflexivity).
    + destruct (match own entries k with Some _ => true | None => in_object_prototype k end);
        intros [= <- <-]; [right | left]; reflexivity.
    + destruct (in_object_prototype k) eqn:Ep; intros [= <- <-]; [right | left];
        [|reflexivity].
      unfold property, member, get. rewrite Ep. reflexivity.
  - destruct current; simpl; try (intros [= <- <-]; left; reflexivity).
    destruct ((0 <=? n)%Z && (n <? Z.of_nat (length items))%Z);
      intros [= <- <-]; [right | left]; reflexivity.
  - intros [= <- <-]. left. reflexivity.
Qed.

Lemma run_tokens_follow (tokens : list token) :
  forallb is_step tokens = true ->
  forall current st,
    run_tokens tokens ([current], [[PKey "$"]]) = Ok st ->
    st = ([], []) \/ st = ([fold_left follow tokens current], [[PKey "$"]]).
Proof.
  induction tokens as [|t tokens IH]; intros Hsteps current st.
  - simpl. intros [= <-]. right. reflexivity.
  - simpl in Hsteps. apply andb_true_iff in Hsteps as [Ht Hsteps].
    unfold run_tokens. cbn [foldM fold_left].
    destruct (applyToken t current (Some [PKey "$"])) as [[values paths]|e] eqn:E.
    + rewrite (apply_to_all_single t current values paths E). cbn [bind].
      destruct (applyToken_follow t current _ values paths Ht E) as [-> | ->].
      * intros H. left. pose proof (run_tokens_nothing tokens) as H0.
        unfold run_tokens in H0. rewrite H0 in H. congruence.
      * apply (IH Hsteps).
    + unfold apply_to_all. simpl. rewrite E. simpl. discriminate.
Qed.

(** X7: when the partial path is made of keys and indices and the query of
    that path returns one value, the suggestions are those at that value:
    the loop of [getPathSuggestions] has followed the path to it.  When that
    value is an array whose first element is null, [getPathSuggestions]
    throws: it asks for the keys of null. *)
Theorem getPathSuggestions_follows_query (json : value) (partialPath : string)
    (v : value) (ps : list (list path_elem)) (c : nat) :
  forallb is_step (tokenize partialPath) = true ->
  queryJSONPath json partialPath = Success [v] ps c ->
  getPathSuggestions json partialPath = getPathSuggestions v "$"
  /\ (forall items, v = VArr (VNull :: items) -> getPathSuggestions json partialPath = None).
Proof.
  intros Hsteps Hq. unfold queryJSONPath in Hq.
  destruct (run_tokens (tokenize partialPath) ([json], [[PKey "$"]])) as [st|e] eqn:E;
    [|discriminate].
  destruct (run_tokens_follow _ Hsteps json st E) as [-> | ->]; [discriminate|].
  injection Hq as Hv _ _.
  assert (Hs : getPathSuggestions json partialPath = getPathSuggestions v "$").
  { unfold getPathSuggestions. rewrite Hv. reflexivity. }
  split; [exact Hs|]. intros items ->. rewrite Hs. reflexivity.
Qed.

Lemma applyToken_step_returns (t : token) (current : value) (p : list path_elem) :
  is_step t = true -> exists vp, applyToken t current (Some p) = Ok vp.
Proof.
  destruct t as [k | [n|] | | start stop | | expression]; try discriminate; intros _; simpl.
  - destruct (negb (is_null current) && String.eqb (typeof current) "object"
              && negb (isArray current)); [|eauto].
    destruct (has_property current k); eauto.
  - destruct (isArray current && (0 <=? n)%Z && (n <? Z.of_nat (array_length current))%Z);
      eauto.
  - eauto.
Qed.

Lemma run_tokens_steps (tokens : list token) :
  forallb is_step tokens = true ->
  forall current,
    run_tokens tokens ([current], [[PKey "$"]]) = Ok ([], [])
    \/ run_tokens tokens ([current], [[PKey "$"]])
       = Ok ([fold_left follow tokens current], [[PKey "$"]]).
Proof.
  induction tokens as [|t tokens IH]; intros Hsteps current.
  - right. reflexivity.
  - simpl in Hsteps. apply andb_true_iff in Hsteps as [Ht Hsteps].
    destruct (applyToken_step_returns t current [PKey "$"] Ht) as [[values paths] E].
    unfold run_tokens. cbn [foldM fold_left].
    rewrite (apply_to_all_single t current values paths E). cbn [bind].
    destruct (applyToken_follow t current _ values paths Ht E) as [-> | ->].
    + left. apply run_tokens_nothing.
    + apply (IH Hsteps).
Qed.

(** X8: a path made of keys and indices never makes the query fail: the
    query succeeds, with no result or with the one value that the keys and
    the indices lead to. *)
Theorem queryJSONPath_steps (json : value) (path : string) :
  forallb is_step (tokenize path) = true ->
  queryJSONPath json path = Success [] [] 0
  \/ queryJSONPath json path
     = Success [fold_left follow (tokenize path) json] [[PKey "$"]] 1.
Proof.
  intros Hsteps. unfold queryJSONPath.
  destruct (run_tokens_steps (tokenize path) Hsteps json) as [-> | ->];
    [left | right]; reflexivity.
Qed.

(** ** The diff engine: the two sides exchanged *)

Lemma num_eqb_sym (x y : number) : num_eqb x y = num_eqb y x.
Proof.
  unfold num_eqb, num_compare.
  destruct x as [sx|sx| |sx mx ex], y as [sy|sy| |sy my ey]; try reflexivity;
    try (destruct sx, sy; reflexivity);
    try (destruct sx; reflexivity); try (destruct sy; reflexivity);
    rewrite <- (Qcompare_antisym (F2Q _) (F2Q _));
    match goal with |- context [(?a ?= ?b)%Q] => destruct (a ?= b)%Q end; reflexivity.
Qed.

Lemma strict_equal_sym (a b : value) : strict_equal a b = strict_equal b a.
Proof.
  destruct a, b; simpl; try reflexivity.
  - destruct b0, b; reflexivity.
  - apply num_eqb_sym.
  - apply String.eqb_sym.
  - apply String.eqb_sym.
Qed.

Lemma length_flat_map_ext {A B : Type} (f g : A -> list B) (l : list A) :
  (forall x, In x l -> length (f x) = length (g x)) ->
  length (flat_map f l) = length (flat_map g l).
Proof.
  induction l as [|x l IH]; intros H; simpl; [reflexivity|].
  rewrite !length_app, (H x (or_introl eq_refl)), IH; [reflexivity|].
  intros y Hy. apply H. right. exact Hy.
Qed.

Lemma set_of_comm (l1 l2 : list string) : Permutation (set_of (l1 ++ l2)) (set_of (l2 ++ l1)).
Proof.
  apply Permutation.NoDup_Permutation; [apply set_of_NoDup | apply set_of_NoDup |].
  intros k. rewrite !in_set_of, !in_app_iff. tauto.
Qed.

Lemma compare_body_length_sym
    (f : value -> value -> string -> list change -> list change) :
  (forall a b p c, f a b p c = c ++ f a b p []) ->
  (forall a b p q, length (f a b p []) = length (f b a q [])) ->
  forall o1 o2 p q,
    length (compare_body f o1 o2 p []) = length (compare_body f o2 o1 q []).
Proof.
  intros Hacc Hsym o1 o2 p q. unfold compare_body.
  rewrite (andb_comm (is_null o2)), (orb_comm (is_null o2)).
  destruct (is_null o1 && is_null o2); [reflexivity|].
  destruct (is_null o1 || is_null o2); [reflexivity|].
  rewrite (String.eqb_sym (typeof o2)).
  destruct (String.eqb (typeof o1) (typeof o2)) eqn:T; [|reflexivity].
  apply String.eqb_eq in T. rewrite <- T. cbn [negb].
  destruct (negb (String.eqb (typeof o1) "object")).
  { rewrite (strict_equal_sym o2 o1). destruct (negb (strict_equal o1 o2)); reflexivity. }
  replace (Bool.eqb (isArray o2) (isArray o1)) with (Bool.eqb (isArray o1) (isArray o2))
    by (destruct (isArray o1), (isArray o2); reflexivity).
  destruct (Bool.eqb (isArray o1) (isArray o2)) eqn:A; [|reflexivity].
  apply eqb_prop in A. rewrite <- A. cbn [negb].
  destruct (isArray o1).
  - rewrite !fold_left_acc.
    + cbn [app]. rewrite (Nat.max_comm (array_length o2)).
      apply length_flat_map_ext. intros i Hi. apply in_seq in Hi.
      destruct (Nat.leb_spec (array_length o1) i), (Nat.leb_spec (array_length o2) i);
        try reflexivity. apply Hsym.
    + intros c i. destruct (Nat.leb (array_length o2) i); [reflexivity|].
      destruct (Nat.leb (array_length o1) i); [reflexivity|]. apply Hacc.
    + intros c i. destruct (Nat.leb (array_length o1) i); [reflexivity|].
      destruct (Nat.leb (array_length o2) i); [reflexivity|]. apply Hacc.
  - rewrite !fold_left_acc.
    + cbn [app].
      rewrite (Permutation_length
                 (Permutation_flat_map _ (set_of_comm (keys o1) (keys o2)))).
      apply length_flat_map_ext. intros key _.
      destruct (has_property o1 key), (has_property o2 key); try reflexivity.
      apply Hsym.
    + intros c key. destruct (negb (has_property o2 key)); [reflexivity|].
      destruct (negb (has_property o1 key)); [reflexivity|]. apply Hacc.
    + intros c key. destruct (negb (has_property o1 key)); [reflexivity|].
      destruct (negb (has_property o2 key)); [reflexivity|]. apply Hacc.
Qed.

Lemma compare_fuel_length_sym (n : nat) :
  forall a b p q, length (compare_fuel n a b p []) = length (compare_fuel n b a q []).
Proof.
  induction n as [|n IH]; intros a b p q; [reflexivity|].
  simpl. apply compare_body_length_sym; [|exact IH].
  intros x y r c. apply compare_fuel_acc.
Qed.

(** X9: the diff of [b] against [a] has as many changes as the diff of [a]
    against [b], and the similarity of two documents does not depend on
    which one comes first. *)
Theorem calculateSimilarity_sym (json1 json2 : value) :
  length (diffJSON json1 json2) = length (diffJSON json2 json1)
  /\ calculateSimilarity json1 json2 = calculateSimilarity json2 json1.
Proof.
  assert (H : length (diffJSON json1 json2) = length (diffJSON json2 json1)).
  { unfold diffJSON, compare. rewrite (Nat.add_comm (rank json2)).
    apply compare_fuel_length_sym. }
  split; [exact H|].
  unfold calculateSimilarity. rewrite H, (Z.add_comm (countNodes json2)). reflexivity.
Qed.

(** ** The diff engine: no change means equal documents *)

Lemma flat_map_nil {A B : Type} (f : A -> list B) (l : list A) :
  flat_map f l = [] -> forall x, In x l -> f x = [].
Proof.
  induction l as [|y l IH]; simpl; [tauto|].
  intros H x [<- | Hx].
  - apply app_eq_nil in H. tauto.
  - apply IH; [|exact Hx]. apply app_eq_nil in H. tauto.
Qed.

Lemma forall2b_of_nth {A B : Type} (f : A -> B -> bool) (da : A) (db : B) l1 l2 :
  length l1 = length l2 ->
  (forall i, i < length l1 -> f (nth i l1 da) (nth i l2 db) = true) ->
  forall2b f l1 l2 = true.
Proof.
  revert l2. induction l1 as [|x l1 IH]; intros [|y l2] Hlen H; simpl in *; try lia;
    try reflexivity.
  rewrite (H 0 ltac:(lia)). simpl. apply IH; [lia|].
  intros i Hi. apply (H (S i)). lia.
Qed.

Lemma distinct_keys_arr (items : list value) :
  distinct_keys (VArr items) <-> Forall distinct_keys items.
Proof.
  simpl. induction items as [|v items IH].
  - split; [constructor | tauto].
  - rewrite Forall_cons_iff, <- IH. tauto.
Qed.

Lemma distinct_keys_obj (entries : list (string * value)) :
  distinct_keys (VObj entries)
  <-> List.NoDup (map fst entries) /\ Forall (fun kv => distinct_keys (snd kv)) entries.
Proof.
  simpl. apply and_iff_compat_l. induction entries as [|kv entries IH].
  - split; [constructor | tauto].
  - rewrite Forall_cons_iff, <- IH. tauto.
Qed.

Lemma key_changes_nil (o1 o2 : value) (path key : string) :
  key_changes o1 o2 path key = [] ->
  has_property o1 key = true /\ has_property o2 key = true
  /\ exists newPath, compare (get o1 key) (get o2 key) newPath [] = [].
Proof.
  unfold key_changes.
  destruct (has_property o1 key); simpl; [|discriminate].
  destruct (has_property o2 key); simpl; [|discriminate].
  intros H. repeat split. eexists. exact H.
Qed.

Lemma has_property_plain (entries : list (string * value)) (k : string) :
  in_object_prototype k = false -> has_property (VObj entries) k = true ->
  exists v, own entries k = Some v.
Proof.
  simpl. intros Hp. destruct (own entries k) as [v|]; [eauto | congruence].
Qed.

Lemma compare_nil_deep_equal (a : value) :
  forall b path,
    is_json a = true -> is_json b = true -> distinct_keys a ->
    plain_keys a = true -> plain_keys b = true ->
    compare a b path [] = [] -> deep_equal a b = true.
Proof.
  induction a as [ | | x | x | x | l1 IH | e1 IH | f | ] using value_ind';
    intros b path Ja Jb Da Pa Pb H; try discriminate Ja;
    destruct b as [ | | y | y | y | l2 | e2 | g | ]; try discriminate Jb;
    rewrite compare_unfold in H; try discriminate H.
  - reflexivity.
  - unfold compare_body in H. simpl in H. simpl.
    destruct (Bool.eqb x y); [reflexivity | discriminate].
  - unfold compare_body in H. simpl in H. simpl.
    destruct (num_eqb x y); [reflexivity | discriminate].
  - unfold compare_body in H. simpl in H. simpl.
    destruct (String.eqb x y); [reflexivity | discriminate].
  - unfold compare_body in H. simpl in H.
    rewrite fold_left_acc in H.
    2:{ intros c i. destruct (Nat.leb (length l1) i); [reflexivity|].
        destruct (Nat.leb (length l2) i); [reflexivity|]. apply compare_acc. }
    simpl in H. pose proof (flat_map_nil _ _ H) as Hi. clear H.
    assert (Hlen : length l1 = length l2).
    { destruct (Nat.lt_trichotomy (length l1) (length l2)) as [Hlt | [Heq | Hgt]];
        [|exact Heq|].
      - specialize (Hi (length l1) ltac:(apply in_seq; lia)). simpl in Hi.
        rewrite Nat.leb_refl in Hi. discriminate.
      - specialize (Hi (length l2) ltac:(apply in_seq; lia)). simpl in Hi.
        rewrite Nat.leb_refl in Hi.
        destruct (Nat.leb_spec (length l1) (length l2)); [lia | discriminate]. }
    rewrite deep_equal_arr.
    apply (forall2b_of_nth deep_equal VUndefined VUndefined _ _ Hlen). intros i Hlt.
    specialize (Hi i ltac:(apply in_seq; lia)). simpl in Hi.
    destruct (Nat.leb_spec (length l1) i); [lia|].
    destruct (Nat.leb_spec (length l2) i); [lia|].
    rewrite List.Forall_forall in IH.
    simpl in Ja, Jb, Pa, Pb. rewrite forallb_forall in Ja, Jb, Pa, Pb.
    apply distinct_keys_arr in Da. rewrite List.Forall_forall in Da.
    assert (In1 : In (nth i l1 VUndefined) l1) by (apply nth_In; lia).
    assert (In2 : In (nth i l2 VUndefined) l2) by (apply nth_In; lia).
    apply (IH _ In1 _ _ (Ja _ In1) (Jb _ In2) (Da _ In1) (Pa _ In1) (Pb _ In2) Hi).
  - rewrite <- compare_unfold in H. rewrite compare_objects in H by reflexivity.
    simpl in H. pose proof (flat_map_nil _ _ H) as Hk. clear H.
    simpl in Ja, Jb, Pa, Pb. rewrite forallb_forall in Ja, Jb, Pa, Pb.
    apply distinct_keys_obj in Da. destruct Da as [Nd Da].
    rewrite List.Forall_forall in Da, IH.
    rewrite deep_equal_obj. apply andb_true_iff. split.
    + apply forallb_forall. intros k Hin.
      apply in_map_iff in Hin as [[k' w] [Hk' Hin]]. simpl in Hk'. subst k'.
      destruct (key_changes_nil _ _ _ _
                  (Hk k ltac:(apply in_set_of, in_or_app; right;
                              apply in_map_iff; exists (k, w); auto)))
        as [H1 _].
      pose proof (Pb _ Hin) as Hp. simpl in Hp. apply andb_true_iff in Hp as [Hp _].
      apply negb_true_iff in Hp.
      destruct (has_property_plain e1 k Hp H1) as [v Hv].
      apply existsb_eqb_in. apply own_in in Hv.
      apply in_map_iff. exists (k, v). auto.
    + apply forallb_forall. intros [k v] Hin. simpl.
      destruct (key_changes_nil _ _ _ _
                  (Hk k ltac:(apply in_set_of, in_or_app; left;
                              apply in_map_iff; exists (k, v); auto)))
        as [_ [H2 [newPath Hc]]].
      pose proof (Pa _ Hin) as Hp. simpl in Hp. apply andb_true_iff in Hp as [Hp Pv].
      apply negb_true_iff in Hp.
      destruct (has_property_plain e2 k Hp H2) as [w Hw].
      rewrite Hw. simpl in Hc. rewrite Hw, (in_own e1 k v Nd Hin) in Hc.
      pose proof (own_in _ _ _ Hw) as Hin2.
      pose proof (Pb _ Hin2) as Hq. simpl in Hq. apply andb_true_iff in Hq as [_ Pw].
      apply (IH _ Hin w newPath (Ja _ Hin) (Jb _ Hin2) (Da _ Hin) Pv Pw Hc).
Qed.

(** X10: for two parsed documents none of whose keys is the name of a member
    of [Object.prototype], the diff is empty exactly when the documents are
    deep-equal: equal leaves, arrays equal element by element, objects with
    the same keys and deep-equal values under each key. *)
Theorem diffJSON_empty_iff_equal (json1 json2 : value) :
  is_json json1 = true -> is_json json2 = true -> distinct_keys json1 ->
  plain_keys json1 = true -> plain_keys json2 = true ->
  diffJSON json1 json2 = [] <-> deep_equal json1 json2 = true.
Proof.
  intros J1 J2 D1 P1 P2. unfold diffJSON. split.
  - apply compare_nil_deep_equal; assumption.
  - intros H. apply compare_deep_equal. exact H.
Qed.

(** ** The diff engine: elements appended to an array *)

Lemma flat_map_nil_all {A B : Type} (f : A -> list B) (l : list A) :
  (forall x, In x l -> f x = []) -> flat_map f l = [].
Proof.
  induction l as [|x l IH]; intros H; simpl; [reflexivity|].
  rewrite (H x (or_introl eq_refl)), IH; [reflexivity|].
  intros y Hy. apply H. right. exact Hy.
Qed.

Lemma flat_map_singleton {A B : Type} (f : A -> list B) (g : A -> B) (l : list A) :
  (forall x, In x l -> f x = [g x]) -> flat_map f l = map g l.
Proof.
  induction l as [|x l IH]; intros H; simpl; [reflexivity|].
  rewrite (H x (or_introl eq_refl)), IH; [reflexivity|].
  intros y Hy. apply H. right. exact Hy.
Qed.

(** X11: elements appended to an array.  When the right array is the left
    one (without NaN) followed by more elements, the diff is one addition
    for each new element, in their order, at the paths [[n]], [[n+1]], ...
    from the length [n] of the left array on; with the two arrays exchanged
    it is one removal for each. *)
Theorem diffJSON_array_append (items extra : list value) :
  nan_free (VArr items) = true ->
  diffJSON (VArr items) (VArr (items ++ extra))
  = map (fun i =>
           {| change_type_of := added;
              change_path := "[" +:+ string_of_nat i +:+ "]";
              change_old := None;
              change_new := Some (nth (i - length items) extra VUndefined);
              change_message := ("[" +:+ string_of_nat i +:+ "]") +:+ ": +"
                                +:+ formatValue (nth (i - length items) extra VUndefined) |})
        (seq (length items) (length extra))
  /\ diffJSON (VArr (items ++ extra)) (VArr items)
     = map (fun i =>
              {| change_type_of := removed;
                 change_path := "[" +:+ string_of_nat i +:+ "]";
                 change_old := Some (nth (i - length items) extra VUndefined);
                 change_new := None;
                 change_message := ("[" +:+ string_of_nat i +:+ "]") +:+ ": -"
                                   +:+ formatValue (nth (i - length items) extra VUndefined) |})
           (seq (length items) (length extra)).
Proof.
  intros Hnan. simpl in Hnan. rewrite forallb_forall in Hnan.
  assert (Hmax1 : Nat.max (length items) (length (items ++ extra))
                  = length items + length extra) by (rewrite length_app; lia).
  assert (Hmax2 : Nat.max (length (items ++ extra)) (length items)
                  = length items + length extra) by (rewrite length_app; lia).
  split; unfold diffJSON; rewrite compare_unfold; unfold compare_body;
    cbn [is_null andb orb typeof String.eqb Ascii.eqb Bool.eqb negb isArray array_length
         array_get];
    rewrite fold_left_acc.
  - rewrite Hmax1, seq_app, flat_map_app. cbn [app].
    rewrite flat_map_nil_all, flat_map_singleton with
      (g := fun i => {| change_type_of := added;
                        change_path := "[" +:+ string_of_nat i +:+ "]";
                        change_old := None;
                        change_new := Some (nth (i - length items) extra VUndefined);
                        change_message := ("[" +:+ string_of_nat i +:+ "]") +:+ ": +"
                                          +:+ formatValue
                                                (nth (i - length items) extra VUndefined) |}).
    + reflexivity.
    + intros i Hi. apply in_seq in Hi.
      rewrite (proj2 (Nat.leb_le _ _)) by lia.
      rewrite app_nth2 by lia. reflexivity.
    + intros i Hi. apply in_seq in Hi.
      rewrite (proj2 (Nat.leb_gt _ _)) by lia.
      rewrite (proj2 (Nat.leb_gt _ _)) by (rewrite length_app; lia).
      rewrite app_nth1 by lia. apply compare_same, Hnan, nth_In. lia.
  - intros c i. destruct (Nat.leb (length items) i); [reflexivity|].
    destruct (Nat.leb (length (items ++ extra)) i); [reflexivity|]. apply compare_acc.
  - rewrite Hmax2, seq_app, flat_map_app. cbn [app].
    rewrite flat_map_nil_all, flat_map_singleton with
      (g := fun i => {| change_type_of := removed;
                        change_path := "[" +:+ string_of_nat i +:+ "]";
                        change_old := Some (nth (i - length items) extra VUndefined);
                        change_new := None;
                        change_message := ("[" +:+ string_of_nat i +:+ "]") +:+ ": -"
                                          +:+ formatValue
                                                (nth (i - length items) extra VUndefined) |}).
    + reflexivity.
    + intros i Hi. apply in_seq in Hi.
      rewrite (proj2 (Nat.leb_gt _ _)) by (rewrite length_app; lia).
      rewrite (proj2 (Nat.leb_le _ _)) by lia.
      rewrite app_nth2 by lia. reflexivity.
    + intros i Hi. apply in_seq in Hi.
      rewrite (proj2 (Nat.leb_gt _ _)) by (rewrite length_app; lia).
      rewrite (proj2 (Nat.leb_gt _ _)) by lia.
      rewrite app_nth1 by lia. apply compare_same, Hnan, nth_In. lia.
  - intros c i. destruct (Nat.leb (length (items ++ extra)) i); [reflexivity|].
    destruct (Nat.leb (length items) i); [reflexivity|]. apply compare_acc.
Qed.

(** ** The highlighted lines *)

Lemma lookup_setLineKind (m : gmap nat line_kind) (line : nat) (kind : line_kind) (i : nat) :
  setLineKind m line kind !! i
  = if decide (i = line) then Some (stronger (m !! line) kind) else m !! i.
Proof.
  unfold setLineKind, stronger. destruct (decide (i = line)) as [-> | Hne].
  - destruct (m !! line) as [previous|] eqn:E.
    + destruct (Nat.ltb (priority previous) (priority kind)).
      * apply lookup_insert_eq.
      * exact E.
    + apply lookup_insert_eq.
  - destruct (m !! line) as [previous|] eqn:E.
    + destruct (Nat.ltb (priority previous) (priority kind)); [|reflexivity].
      apply lookup_insert_ne. congruence.
    + apply lookup_insert_ne. congruence.
Qed.

Lemma stronger_comm (o : option line_kind) (k1 k2 : line_kind) :
  stronger (Some (stronger o k1)) k2 = stronger (Some (stronger o k2)) k1.
Proof. destruct o as [[| |]|], k1, k2; reflexivity. Qed.

Lemma setLineKind_comm (m : gmap nat line_kind) (l1 l2 : nat) (k1 k2 : line_kind) :
  setLineKind (setLineKind m l1 k1) l2 k2 = setLineKind (setLineKind m l2 k2) l1 k1.
Proof.
  apply map_eq. intros i. rewrite !lookup_setLineKind.
  repeat case_decide; subst; try congruence.
  f_equal. apply stronger_comm.
Qed.

Lemma collect_change_comm (L R : gmap string nat)
    (maps : gmap nat line_kind * gmap nat line_kind) (c1 c2 : change) :
  collect_change L R (collect_change L R maps c1) c2
  = collect_change L R (collect_change L R maps c2) c1.
Proof.
  unfold collect_change.
  destruct (change_type_of c1), (change_type_of c2); cbn [fst snd]; f_equal;
    try reflexivity; apply setLineKind_comm.
Qed.

Lemma fold_left_Permutation {A B : Type} (f : A -> B -> A) (l l' : list B) :
  (forall a x y, f (f a x) y = f (f a y) x) ->
  Permutation l l' -> forall a, fold_left f l a = fold_left f l' a.
Proof.
  intros Hf Hp. induction Hp as [|x l l' _ IH|x y l|l l' l'' _ IH1 _ IH2]; intros a; simpl.
  - reflexivity.
  - apply IH.
  - rewrite Hf. reflexivity.
  - rewrite IH1. apply IH2.
Qed.

(** X12: the lines that [collectDiffLineKinds] marks, and the kind of each,
    do not depend on the order in which the changes are listed. *)
Theorem collectDiffLineKinds_order (changes changes' : list change)
    (leftPathToLine rightPathToLine : gmap string nat) :
  Permutation changes changes' ->
  collectDiffLineKinds changes leftPathToLine rightPathToLine
  = collectDiffLineKinds changes' leftPathToLine rightPathToLine.
Proof.
  intros Hp. unfold collectDiffLineKinds.
  apply fold_left_Permutation; [|exact Hp].
  intros maps c1 c2. apply collect_change_comm.
Qed.

Lemma collect_change_sides (L R : gmap string nat) (changes : list change)
    (maps : gmap nat line_kind * gmap nat line_kind) :
  fold_left (collect_change L R) changes maps
  = (mark_lines left_kind (fun c => resolvePathLine (change_path c) L) changes (fst maps),
     mark_lines right_kind (fun c => resolvePathLine (change_path c) R) changes (snd maps)).
Proof.
  unfold mark_lines. revert maps.
  induction changes as [|c changes IH]; intros [l r]; simpl; [reflexivity|].
  rewrite IH. unfold collect_change, left_kind, right_kind.
  destruct (change_type_of c); reflexivity.
Qed.

Lemma priority_stronger (o : option line_kind) (k : line_kind) :
  priority k <= priority (stronger o k)
  /\ match o with
     | Some previous => priority previous <= priority (stronger o k)
     | None => True
     end
  /\ (stronger o k = k \/ o = Some (stronger o k)).
Proof. destruct o as [[| |]|], k; simpl; repeat split; auto; lia. Qed.

(** What a line holds comes from a change shown on it. *)
Lemma mark_lines_from (shown : change -> option line_kind) (line_of : change -> nat)
    (changes : list change) :
  forall m line k,
    mark_lines shown line_of changes m !! line = Some k ->
    m !! line = Some k
    \/ exists c, In c changes /\ shown c = Some k /\ line_of c = line.
Proof.
  unfold mark_lines.
  induction changes as [|c changes IH]; intros m line k; simpl; [auto|].
  intros H. apply IH in H as [H | [c' [Hin [Hs Hl]]]]; [|right; exists c'; auto].
  destruct (shown c) as [kind|] eqn:E; [|auto].
  rewrite lookup_setLineKind in H. destruct (decide (line = line_of c)) as [-> | Hne]; [|auto].
  injection H as H.
  destruct (priority_stronger (m !! line_of c) kind) as [_ [_ [Hk | Hk]]].
  - right. exists c. split; [left; reflexivity|]. split; [congruence | reflexivity].
  - left. congruence.
Qed.

(** What is shown on a line is held there, or something stronger is. *)
Lemma mark_lines_keeps (shown : change -> option line_kind) (line_of : change -> nat)
    (changes : list change) :
  forall m,
    (forall line k, m !! line = Some k ->
       exists k', mark_lines shown line_of changes m !! line = Some k'
                  /\ priority k <= priority k')
    /\ (forall c k, In c changes -> shown c = Some k ->
          exists k', mark_lines shown line_of changes m !! line_of c = Some k'
                     /\ priority k <= priority k').
Proof.
  unfold mark_lines.
  induction changes as [|c changes IH]; intros m; simpl.
  - split; [eauto | tauto].
  - set (m1 := match shown c with
               | Some kind => setLineKind m (line_of c) kind
               | None => m
               end).
    destruct (IH m1) as [Hkeep Hnew].
    assert (Hstep : forall line k, m !! line = Some k ->
                      exists k', m1 !! line = Some k' /\ priority k <= priority k').
    { intros line k Hk. unfold m1. destruct (shown c) as [kind|]; [|eauto].
      rewrite lookup_setLineKind. destruct (decide (line = line_of c)) as [-> | Hne]; [|eauto].
      eexists. split; [reflexivity|].
      destruct (priority_stronger (m !! line_of c) kind) as [_ [H _]].
      rewrite Hk in H. rewrite Hk. exact H. }
    split.
    + intros line k Hk. destruct (Hstep line k Hk) as [k1 [H1 Hle1]].
      destruct (Hkeep line k1 H1) as [k' [H' Hle']]. exists k'. split; [exact H' | lia].
    + intros c' k [<- | Hin] Hs; [|apply (Hnew c' k Hin Hs)].
      assert (H1 : exists k1, m1 !! line_of c = Some k1 /\ priority k <= priority k1).
      { unfold m1. rewrite Hs, lookup_setLineKind, decide_True by reflexivity.
        eexists. split; [reflexivity|].
        apply (priority_stronger (m !! line_of c) k). }
      destruct H1 as [k1 [H1 Hle1]].
      destruct (Hkeep _ k1 H1) as [k' [H' Hle']]. exists k'. split; [exact H' | lia].
Qed.

Lemma left_kind_type (c : change) (k : line_kind) :
  left_kind c = Some k
  <-> (k = diff_inline_changed /\ change_type_of c = changed)
      \/ (k = diff_inline_removed /\ change_type_of c = removed).
Proof.
  unfold left_kind. destruct (change_type_of c), k; split;
    try discriminate; try tauto; intros [[? ?] | [? ?]]; congruence.
Qed.

Lemma right_kind_type (c : change) (k : line_kind) :
  right_kind c = Some k
  <-> (k = diff_inline_changed /\ change_type_of c = changed)
      \/ (k = diff_inline_added /\ change_type_of c = added).
Proof.
  unfold right_kind. destruct (change_type_of c), k; split;
    try discriminate; try tauto; intros [[? ?] | [? ?]]; congruence.
Qed.

(** X13: what [collectDiffLineKinds] marks.  In the left editor a line is
    marked changed exactly when a changed record resolves to it, removed
    exactly when a removed record does and no changed one, and never added;
    in the right editor changed likewise, added exactly when an added record
    resolves to it and no changed one, and never removed.  A line that no
    record resolves to is not marked. *)
Theorem collectDiffLineKinds_kinds (changes : list change)
    (leftPathToLine rightPathToLine : gmap string nat) (line : nat) :
  let left := fst (collectDiffLineKinds changes leftPathToLine rightPathToLine) in
  let right := snd (collectDiffLineKinds changes leftPathToLine rightPathToLine) in
  (left !! line = Some diff_inline_changed <-> lands changed leftPathToLine changes line)
  /\ (left !! line = Some diff_inline_removed
      <-> lands removed leftPathToLine changes line
          /\ ~ lands changed leftPathToLine changes line)
  /\ left !! line <> Some diff_inline_added
  /\ (right !! line = Some diff_inline_changed <-> lands changed rightPathToLine changes line)
  /\ (right !! line = Some diff_inline_added
      <-> lands added rightPathToLine changes line
          /\ ~ lands changed rightPathToLine changes line)
  /\ right !! line <> Some diff_inline_removed.
Proof.
  unfold collectDiffLineKinds. rewrite collect_change_sides. cbn [fst snd].
  set (lineL := fun c => resolvePathLine (change_path c) leftPathToLine).
  set (lineR := fun c => resolvePathLine (change_path c) rightPathToLine).
  pose proof (mark_lines_from left_kind lineL changes ∅ line) as FL.
  pose proof (mark_lines_from right_kind lineR changes ∅ line) as FR.
  destruct (mark_lines_keeps left_kind lineL changes ∅) as [_ KL].
  destruct (mark_lines_keeps right_kind lineR changes ∅) as [_ KR].
  assert (CL : lands changed leftPathToLine changes line ->
               mark_lines left_kind lineL changes ∅ !! line = Some diff_inline_changed).
  { intros [c [Hin [Ht Hl]]].
    destruct (KL c diff_inline_changed Hin) as [k' [Hk' Hle]].
    { apply left_kind_type. auto. }
    change (lineL c = line) in Hl. rewrite Hl in Hk'. rewrite Hk'.
    destruct k'; simpl in Hle; try lia. reflexivity. }
  assert (CR : lands changed rightPathToLine changes line ->
               mark_lines right_kind lineR changes ∅ !! line = Some diff_inline_changed).
  { intros [c [Hin [Ht Hl]]].
    destruct (KR c diff_inline_changed Hin) as [k' [Hk' Hle]].
    { apply right_kind_type. auto. }
    change (lineR c = line) in Hl. rewrite Hl in Hk'. rewrite Hk'.
    destruct k'; simpl in Hle; try lia. reflexivity. }
  repeat split.
  - intros H. destruct (FL _ H) as [H0 | [c [Hin [Hs Hl]]]]; [rewrite lookup_empty in H0; discriminate|].
    apply left_kind_type in Hs as [[_ Ht] | [Hk _]]; [|discriminate].
    exists c. auto.
  - exact CL.
  - destruct (FL _ H) as [H0 | [c [Hin [Hs Hl]]]]; [rewrite lookup_empty in H0; discriminate|].
    apply left_kind_type in Hs as [[Hk _] | [_ Ht]]; [discriminate|].
    exists c. auto.
  - intros Hc. apply CL in Hc. congruence.
  - intros [[c [Hin [Ht Hl]]] Hno].
    destruct (KL c diff_inline_removed Hin) as [k' [Hk' Hle]].
    { apply left_kind_type. auto. }
    change (lineL c = line) in Hl. rewrite Hl in Hk'.
    destruct k'; simpl in Hle; try lia; [exact Hk'|].
    exfalso. apply Hno.
    destruct (FL _ Hk') as [H0 | [c' [Hin' [Hs' Hl']]]]; [rewrite lookup_empty in H0; discriminate|].
    apply left_kind_type in Hs' as [[_ Ht'] | [Hk _]]; [|discriminate].
    exists c'. auto.
  - intros H. destruct (FL _ H) as [H0 | [c [Hin [Hs Hl]]]]; [rewrite lookup_empty in H0; discriminate|].
    apply left_kind_type in Hs as [[Hk _] | [Hk _]]; discriminate.
  - intros H. destruct (FR _ H) as [H0 | [c [Hin [Hs Hl]]]]; [rewrite lookup_empty in H0; discriminate|].
    apply right_kind_type in Hs as [[_ Ht] | [Hk _]]; [|discriminate].
    exists c. auto.
  - exact CR.
  - destruct (FR _ H) as [H0 | [c [Hin [Hs Hl]]]]; [rewrite lookup_empty in H0; discriminate|].
    apply right_kind_type in Hs as [[Hk _] | [_ Ht]]; [discriminate|].
    exists c. auto.
  - intros Hc. apply CR in Hc. congruence.
  - intros [[c [Hin [Ht Hl]]] Hno].
    destruct (KR c diff_inline_added Hin) as [k' [Hk' Hle]].
    { apply right_kind_type. auto. }
    change (lineR c = line) in Hl. rewrite Hl in Hk'.
    destruct k'; simpl in Hle; try lia; [exact Hk'| |].
    + exfalso. destruct (FR _ Hk') as [H0 | [c' [Hin' [Hs' Hl']]]];
        [rewrite lookup_empty in H0; discriminate|].
      apply right_kind_type in Hs' as [[Hk _] | [Hk _]]; discriminate.
    + exfalso. apply Hno.
      destruct (FR _ Hk') as [H0 | [c' [Hin' [Hs' Hl']]]];
        [rewrite lookup_empty in H0; discriminate|].
      apply right_kind_type in Hs' as [[_ Ht'] | [Hk _]]; [|discriminate].
      exists c'. auto.
  - intros H. destruct (FR _ H) as [H0 | [c [Hin [Hs Hl]]]]; [rewrite lookup_empty in H0; discriminate|].
    apply right_kind_type in Hs as [[Hk _] | [Hk _]]; discriminate.
Qed.

(** ** The serialization, line by line *)

Lemma for_each_emit {A : Type} (f : nat -> A -> printer -> printer)
    (g : nat -> A -> list (string * string)) (l : list A) :
  (forall index x st, In x l -> f index x st = fold_left emit (g index x) st) ->
  forall index st, for_each f l index st = fold_left emit (each g l index) st.
Proof.
  induction l as [|x l IH]; intros H index st; simpl; [reflexivity|].
  rewrite fold_left_app, <- (H index x st (or_introl eq_refl)). apply IH.
  intros i y st' Hy. apply H. right. exact Hy.
Qed.

Lemma appendValue_array (indentText : string) (item : value) (items : list value)
    (path : string) (depth : nat) (addComma : bool) (key : option string) (st : printer) :
  appendValue indentText (VArr (item :: items)) path depth addComma key st
  = emit (for_each
            (fun index x st =>
               appendValue indentText x (itemPath path index) (S depth)
                 (Nat.ltb index (length (item :: items) - 1)) None st)
            (item :: items) 0
            (emit st (repeat_string indentText depth
                      +:+ match key with
                          | Some k => JSON_quote k +:+ ": "
                          | None => EmptyString
                          end +:+ "[", path)))
         (repeat_string indentText depth +:+ "]" +:+ (if addComma then "," else EmptyString),
          EmptyString).
Proof. reflexivity. Qed.

Lemma appendValue_object (indentText : string) (entry : string * value)
    (entries : list (string * value))
    (path : string) (depth : nat) (addComma : bool) (key : option string) (st : printer) :
  appendValue indentText (VObj (entry :: entries)) path depth addComma key st
  = emit (for_each
            (fun index x st =>
               appendValue indentText (snd x) (childPath path (fst x)) (S depth)
                 (Nat.ltb index (length (entry :: entries) - 1)) (Some (fst x)) st)
            (entry :: entries) 0
            (emit st (repeat_string indentText depth
                      +:+ match key with
                          | Some k => JSON_quote k +:+ ": "
                          | None => EmptyString
                          end +:+ "{", path)))
         (repeat_string indentText depth +:+ "}" +:+ (if addComma then "," else EmptyString),
          EmptyString).
Proof. reflexivity. Qed.

Lemma rendering_array (indentText : string) (item : value) (items : list value)
    (path : string) (depth : nat) (addComma : bool) (key : option string) :
  rendering indentText (VArr (item :: items)) path depth addComma key
  = (repeat_string indentText depth
     +:+ match key with
         | Some k => JSON_quote k +:+ ": "
         | None => EmptyString
         end +:+ "[", path)
    :: each (fun index x =>
               rendering indentText x (itemPath path index) (S depth)
                 (Nat.ltb index (length (item :: items) - 1)) None)
            (item :: items) 0
    ++ [(repeat_string indentText depth +:+ "]" +:+ (if addComma then "," else EmptyString),
         EmptyString)].
Proof. reflexivity. Qed.

Lemma rendering_object (indentText : string) (entry : string * value)
    (entries : list (string * value))
    (path : string) (depth : nat) (addComma : bool) (key : option string) :
  rendering indentText (VObj (entry :: entries)) path depth addComma key
  = (repeat_string indentText depth
     +:+ match key with
         | Some k => JSON_quote k +:+ ": "
         | None => EmptyString
         end +:+ "{", path)
    :: each (fun index x =>
               rendering indentText (snd x) (childPath path (fst x)) (S depth)
                 (Nat.ltb index (length (entry :: entries) - 1)) (Some (fst x)))
            (entry :: entries) 0
    ++ [(repeat_string indentText depth +:+ "}" +:+ (if addComma then "," else EmptyString),
         EmptyString)].
Proof. reflexivity. Qed.

(** [appendValue] adds the lines of [rendering], one after the other. *)
Lemma appendValue_rendering (v : value) :
  forall indentText path depth addComma key st,
    appendValue indentText v path depth addComma key st
    = fold_left emit (rendering indentText v path depth addComma key) st.
Proof.
  induction v as [ | | b | x | s | items IH | entries IH | name | ] using value_ind';
    intros indentText path depth addComma key st; try reflexivity.
  - destruct items as [|item items]; [reflexivity|].
    rewrite appendValue_array, rendering_array.
    cbn [fold_left]. rewrite fold_left_app. cbn [fold_left]. f_equal.
    apply for_each_emit. intros index x st' Hx.
    rewrite List.Forall_forall in IH. apply (IH x Hx).
  - destruct entries as [|entry entries]; [reflexivity|].
    rewrite appendValue_object, rendering_object.
    cbn [fold_left]. rewrite fold_left_app. cbn [fold_left]. f_equal.
    apply for_each_emit. intros index x st' Hx.
    rewrite List.Forall_forall in IH. apply (IH x Hx).
Qed.

Lemma lines_emit_one (st : printer) (line : string * string) :
  lines (emit st line) = lines st ++ [fst line].
Proof.
  destruct line as [t p]. unfold emit. cbn [fst snd addLine].
  destruct p; reflexivity.
Qed.

Lemma lines_emit (r : list (string * string)) (st : printer) :
  lines (fold_left emit r st) = lines st ++ map fst r.
Proof.
  revert st. induction r as [|line r IH]; intros st; simpl.
  - rewrite app_nil_r. reflexivity.
  - rewrite IH, lines_emit_one, <- app_assoc. reflexivity.
Qed.

Lemma lookup_emit (st : printer) (t p q : string) (n : nat) :
  pathToLine (emit st (t, p)) !! q = Some n ->
  pathToLine st !! q = Some n \/ (q = p /\ p <> EmptyString /\ n = S (length (lines st))).
Proof.
  unfold emit. cbn [fst snd addLine]. destruct p as [|c p]; cbn [set_line pathToLine].
  - auto.
  - rewrite lookup_insert. case_decide as E.
    + intros [= <-]. right. repeat split; [congruence | discriminate |].
      rewrite length_app. simpl. lia.
    + auto.
Qed.

(** A line number the map holds is that of a line. *)
Lemma lookup_emit_range (r : list (string * string)) :
  forall st q n,
    pathToLine (fold_left emit r st) !! q = Some n ->
    pathToLine st !! q = Some n
    \/ (length (lines st) < n <= length (lines st) + length r).
Proof.
  induction r as [|[t p] r IH]; intros st q n; simpl; [auto|].
  intros H. apply IH in H as [H | H].
  - apply lookup_emit in H as [H | [_ [_ ->]]]; [auto | right; lia].
  - right. rewrite lines_emit_one, length_app in H. simpl in H. lia.
Qed.



Lemma rendering_not_nil (indentText : string) (v : value) (path : string)
    (depth : nat) (addComma : bool) (key : option string) :
  rendering indentText v path depth addComma key <> [].
Proof.
  destruct v as [ | | b | x | s | [|item items] | [|entry entries] | name | ];
    try discriminate.
Qed.


Lemma each_In {A B : Type} (f : nat -> A -> list B) (l : list A) (y : B) :
  forall start, In y (each f l start) -> exists i x, In x l /\ In y (f i x).
Proof.
  induction l as [|x l IH]; intros start; simpl; [tauto|].
  intros H. apply in_app_or in H as [H | H].
  - exists start, x. auto.
  - destruct (IH _ H) as [i [x' [Hx Hy]]]. exists i, x'. auto.
Qed.





Lemma stringifyWithPathMap_rendering (v : value) (indent : nat) :
  stringifyWithPathMap v indent
  = (join newline (map fst (rendering (repeat_string " " indent) v EmptyString 0 false None)),
     pathToLine (fold_left emit
                   (rendering (repeat_string " " indent) v EmptyString 0 false None)
                   {| lines := []; pathToLine := ∅ |})).
Proof.
  unfold stringifyWithPathMap. rewrite appendValue_rendering, lines_emit. reflexivity.
Qed.

(** *** The marked lines are lines of the text *)

Lemma split_not_nil (sep : ascii) (s : string) : 1 <= length (split sep s).
Proof.
  induction s as [|c s IH]; simpl; [lia|].
  destruct (Ascii.eqb c sep); simpl; [lia|].
  destruct (split sep s); simpl in *; lia.
Qed.

Lemma length_split_cons (sep c : ascii) (s : string) :
  length (split sep (String c s))
  = if Ascii.eqb c sep then S (length (split sep s)) else length (split sep s).
Proof.
  simpl. destruct (Ascii.eqb c sep); [reflexivity|].
  pose proof (split_not_nil sep s). destruct (split sep s); simpl in *; [lia | reflexivity].
Qed.

Lemma length_split_append (sep : ascii) (a b : string) :
  length (split sep (a +:+ b)) + 1 = length (split sep a) + length (split sep b).
Proof.
  induction a as [|c a IH].
  - change (EmptyString +:+ b) with b. simpl. lia.
  - change (String c a +:+ b) with (String c (a +:+ b)).
    rewrite !length_split_cons. destruct (Ascii.eqb c sep); lia.
Qed.

Lemma line_count_fold (others : list string) :
  forall first,
    line_count first + length others
    <= line_count (fold_left (fun acc y => acc +:+ newline +:+ y) others first).
Proof.
  unfold line_count.
  induction others as [|y others IH]; intros first; simpl; [lia|].
  specialize (IH (first +:+ newline +:+ y)).
  pose proof (length_split_append (ascii_of_nat 10) first (newline +:+ y)) as H1.
  pose proof (length_split_append (ascii_of_nat 10) newline y) as H2.
  pose proof (split_not_nil (ascii_of_nat 10) y) as H3.
  change (length (split (ascii_of_nat 10) newline)) with 2 in H2. lia.
Qed.

Lemma line_count_join (first : string) (others : list string) :
  length (first :: others) <= line_count (join newline (first :: others)).
Proof.
  unfold join. pose proof (line_count_fold others first) as H.
  pose proof (split_not_nil (ascii_of_nat 10) first) as H1.
  unfold line_count in *. simpl. lia.
Qed.

Lemma resolve_loop_value (fuel : nat) (m : gmap string nat) :
  forall path line,
    resolve_loop fuel path m = Some line ->
    line = 1 \/ exists q, m !! q = Some line.
Proof.
  induction fuel as [|fuel IH]; intros path line; simpl; [discriminate|].
  destruct path as [|c s]; [intros [= <-]; auto|].
  destruct (m !! getParentPath (String c s)) as [n|] eqn:E.
  - intros [= <-]. eauto.
  - apply IH.
Qed.

(** The resolver answers 1 or a line number of the map. *)
Lemma resolvePathLine_value (path : string) (m : gmap string nat) :
  resolvePathLine path m = 1 \/ exists q, m !! q = Some (resolvePathLine path m).
Proof.
  unfold resolvePathLine. destruct path as [|c s]; [auto|].
  destruct (m !! String c s) as [n|] eqn:E; [eauto|].
  destruct (resolve_loop _ _ m) as [line|] eqn:R; [|auto].
  apply resolve_loop_value in R as [-> | [q Hq]]; eauto.
Qed.

Lemma stringifyWithPathMap_lines (v : value) (indent : nat) (q : string) (n : nat) :
  snd (stringifyWithPathMap v indent) !! q = Some n ->
  1 <= n <= line_count (fst (stringifyWithPathMap v indent)).
Proof.
  rewrite stringifyWithPathMap_rendering. cbn [fst snd].
  set (r := rendering _ v EmptyString 0 false None).
  intros H. apply lookup_emit_range in H as [H | H].
  - cbn [pathToLine] in H. rewrite lookup_empty in H. discriminate.
  - simpl in H. split; [lia|].
    assert (Hr : r <> []) by apply rendering_not_nil.
    destruct r as [|line r]; [congruence|].
    pose proof (line_count_join (fst line) (map fst r)) as Hc.
    cbn [map]. cbn [length] in Hc, H. rewrite length_map in Hc. lia.
Qed.

Lemma resolvePathLine_in_text (v : value) (indent : nat) (path : string) :
  1 <= resolvePathLine path (snd (stringifyWithPathMap v indent))
    <= line_count (fst (stringifyWithPathMap v indent)).
Proof.
  destruct (resolvePathLine_value path (snd (stringifyWithPathMap v indent)))
    as [-> | [q Hq]].
  - split; [lia|]. unfold line_count. apply split_not_nil.
  - apply (stringifyWithPathMap_lines v indent q). exact Hq.
Qed.

(** X14: whatever the list of changes, every line that
    [collectDiffLineKinds] marks for an editor is a line of the text that
    [stringifyWithPathMap] made for it: its number lies between 1 and the
    number of lines of that text. *)
Theorem collectDiffLineKinds_lines_exist (changes : list change) (json1 json2 : value)
    (indent : nat) (line : nat) (kind : line_kind) :
  let left := stringifyWithPathMap json1 indent in
  let right := stringifyWithPathMap json2 indent in
  (fst (collectDiffLineKinds changes (snd left) (snd right)) !! line = Some kind ->
   1 <= line <= line_count (fst left))
  /\ (snd (collectDiffLineKinds changes (snd left) (snd right)) !! line = Some kind ->
      1 <= line <= line_count (fst right)).
Proof.
  cbv zeta. unfold collectDiffLineKinds. rewrite collect_change_sides. cbn [fst snd].
  split; intros H; apply mark_lines_from in H as [H | [c [_ [_ <-]]]];
    try (rewrite lookup_empty in H; discriminate); apply resolvePathLine_in_text.
Qed.

(** *** The changes of a diff and the lines of their paths *)










(** ** The text of [stringifyWithPathMap] is that of [JSON.stringify] *)

Lemma append_assoc (a b c : string) : (a +:+ b) +:+ c = a +:+ b +:+ c.
Proof.
  induction a as [|x a IH]; [reflexivity|].
  change ((String x a +:+ b) +:+ c) with (String x ((a +:+ b) +:+ c)).
  rewrite IH. reflexivity.
Qed.

Lemma fold_join (sep : string) (l : list string) (a b : string) :
  fold_left (fun acc y => acc +:+ sep +:+ y) l (a +:+ b)
  = a +:+ fold_left (fun acc y => acc +:+ sep +:+ y) l b.
Proof.
  revert b. induction l as [|y l IH]; intros b; simpl; [reflexivity|].
  rewrite append_assoc. apply IH.
Qed.

Lemma join_cons (sep x y : string) (l : list string) :
  join sep (x :: y :: l) = x +:+ sep +:+ join sep (y :: l).
Proof.
  unfold join. cbn [fold_left]. rewrite fold_join, fold_join. reflexivity.
Qed.

Lemma join_app (sep : string) (l1 l2 : list string) :
  l1 <> [] -> l2 <> [] ->
  join sep (l1 ++ l2) = join sep l1 +:+ sep +:+ join sep l2.
Proof.
  intros H1 H2. induction l1 as [|x l1 IH]; [congruence|].
  destruct l1 as [|y l1].
  - destruct l2 as [|z l2]; [congruence|]. cbn [app]. rewrite join_cons. reflexivity.
  - cbn [app] in *. rewrite !join_cons, IH by discriminate.
    rewrite !append_assoc. reflexivity.
Qed.

Lemma repeat_string_snoc (g : string) (d : nat) :
  repeat_string g d +:+ g = repeat_string g (S d).
Proof.
  induction d as [|d IH]; simpl.
  - change (EmptyString +:+ g) with g. rewrite append_nil_r. reflexivity.
  - rewrite append_assoc, IH. reflexivity.
Qed.

Lemma map_each {A B C : Type} (h : B -> C) (f : nat -> A -> list B) (l : list A) :
  forall start, map h (each f l start) = each (fun i x => map h (f i x)) l start.
Proof.
  induction l as [|x l IH]; intros start; simpl; [reflexivity|].
  rewrite map_app, IH. reflexivity.
Qed.

Lemma each_ext {A B : Type} (f g : nat -> A -> list B) (l : list A) :
  (forall i x, In x l -> f i x = g i x) ->
  forall start, each f l start = each g l start.
Proof.
  induction l as [|x l IH]; intros H start; simpl; [reflexivity|].
  rewrite (H start x (or_introl eq_refl)), IH; [reflexivity|].
  intros i y Hy. apply H. right. exact Hy.
Qed.

Lemma each_not_nil {A B : Type} (f : nat -> A -> list B) (l : list A) (start : nat) :
  l <> [] -> (forall i x, In x l -> f i x <> []) -> each f l start <> [].
Proof.
  destruct l as [|x l]; [congruence|]. intros _ H. simpl.
  specialize (H start x (or_introl eq_refl)).
  destruct (f start x); [congruence | discriminate].
Qed.

(** The lines of the blocks, joined, are the blocks, each joined. *)
Lemma join_each (sep : string) {A : Type} (f : nat -> A -> list string) (l : list A) :
  (forall i x, In x l -> f i x <> []) ->
  forall start,
    join sep (each f l start) = join sep (each (fun i x => [join sep (f i x)]) l start).
Proof.
  induction l as [|x l IH]; intros H start; [reflexivity|].
  destruct l as [|y l].
  - simpl. rewrite app_nil_r. reflexivity.
  - change (each f (x :: y :: l) start) with (f start x ++ each f (y :: l) (S start)).
    change (each (fun i x => [join sep (f i x)]) (x :: y :: l) start)
      with ([join sep (f start x)]
            ++ each (fun i x => [join sep (f i x)]) (y :: l) (S start)).
    rewrite !join_app.
    + rewrite IH; [reflexivity|]. intros i z Hz. apply H. right. exact Hz.
    + discriminate.
    + apply each_not_nil; [discriminate|]. intros i z _. discriminate.
    + apply H. left. reflexivity.
    + apply each_not_nil; [discriminate|]. intros i z Hz. apply H. right. exact Hz.
Qed.

(** The blocks of the members, with a comma after each but the last. *)
Lemma join_members {A : Type} (pre : string) (ser : A -> string) (l : list A) :
  l <> [] ->
  forall start n, n = start + length l ->
    join newline (each (fun i x => [pre +:+ ser x
                                    +:+ (if Nat.ltb i (n - 1) then "," else EmptyString)])
                       l start)
    = pre +:+ join ("," +:+ newline +:+ pre) (map ser l).
Proof.
  induction l as [|x l IH]; [congruence|]. intros _ start n Hn.
  destruct l as [|y l].
  - simpl in *. replace (Nat.ltb start (n - 1)) with false
      by (symmetry; apply Nat.ltb_ge; lia).
    unfold join. simpl. rewrite append_nil_r. reflexivity.
  - change (each ?f (x :: y :: l) start)
      with (f start x ++ each f (y :: l) (S start)).
    rewrite join_app;
      [| discriminate | apply each_not_nil; [discriminate | intros i z _; discriminate]].
    rewrite (IH ltac:(discriminate) (S start) n) by (simpl in *; lia).
    replace (Nat.ltb start (n - 1)) with true
      by (symmetry; apply Nat.ltb_lt; simpl in *; lia).
    cbn [map]. rewrite join_cons. unfold join at 1. cbn [fold_left].
    rewrite !append_assoc. reflexivity.
Qed.

Lemma JSON_wrap_members (gap stepback opening closing : string) (partial : list string) :
  gap <> EmptyString -> partial <> [] ->
  JSON_wrap gap stepback opening closing partial
  = opening +:+ newline +:+ (stepback +:+ gap)
    +:+ join ("," +:+ newline +:+ (stepback +:+ gap)) partial
    +:+ newline +:+ stepback +:+ closing.
Proof.
  intros Hg Hp. unfold JSON_wrap.
  destruct partial; [congruence|]. destruct gap; [congruence|]. reflexivity.
Qed.

Lemma JSON_serialize_array (gap indent : string) (items : list value) :
  JSON_serialize gap indent (VArr items)
  = Some (JSON_wrap gap indent "[" "]"
            (map (fun x => match JSON_serialize gap (indent +:+ gap) x with
                           | Some s => s
                           | None => "null"
                           end) items)).
Proof. reflexivity. Qed.

Lemma JSON_serialize_object (gap indent : string) (entries : list (string * value)) :
  JSON_serialize gap indent (VObj entries)
  = Some (JSON_wrap gap indent "{" "}"
            (flat_map (fun kv => match JSON_serialize gap (indent +:+ gap) (snd kv) with
                                 | Some s =>
                                     [JSON_quote (fst kv) +:+ ":"
                                      +:+ match gap with
                                          | EmptyString => EmptyString
                                          | _ => " "
                                          end +:+ s]
                                 | None => []
                                 end) entries)).
Proof. reflexivity. Qed.

Lemma rendering_serialize (gap : string) :
  gap <> EmptyString ->
  forall v, is_json v = true ->
  forall path depth addComma key,
  exists s,
    JSON_serialize gap (repeat_string gap depth) v = Some s
    /\ join newline (map fst (rendering gap v path depth addComma key))
       = repeat_string gap depth
         +:+ match key with
             | Some k => JSON_quote k +:+ ": "
             | None => EmptyString
             end +:+ s +:+ (if addComma then "," else EmptyString).
Proof.
  intros Hgap.
  induction v as [ | | b | x | s | items IH | entries IH | name | ] using value_ind';
    intros Hj path depth addComma key; try discriminate Hj;
    try (eexists; split; reflexivity).
  - destruct items as [|item items]; [eexists; split; reflexivity|].
    set (l := item :: items) in *.
    set (ser := fun x => match JSON_serialize gap (repeat_string gap depth +:+ gap) x with
                         | Some s => s
                         | None => "null"
                         end).
    exists (JSON_wrap gap (repeat_string gap depth) "[" "]" (map ser l)).
    split; [apply JSON_serialize_array|].
    unfold l at 1. rewrite rendering_array. fold l.
    cbn [map fst]. rewrite map_app, map_each. cbn [map fst].
    assert (Hblock : forall i x, In x l ->
              join newline (map fst (rendering gap x (itemPath path i) (S depth)
                                       (Nat.ltb i (length l - 1)) None))
              = repeat_string gap (S depth) +:+ ser x
                +:+ (if Nat.ltb i (length l - 1) then "," else EmptyString)).
    { intros i x Hx. rewrite List.Forall_forall in IH.
      assert (Hall : forallb is_json l = true) by exact Hj.
      rewrite forallb_forall in Hall.
      destruct (IH x Hx (Hall x Hx) (itemPath path i) (S depth)
                  (Nat.ltb i (length l - 1)) None) as [s [Hs Hjoin]].
      rewrite Hjoin. unfold ser. rewrite repeat_string_snoc, Hs. reflexivity. }
    match goal with
    | |- join newline (?o :: ?E ++ [?c]) = _ =>
        change (o :: E ++ [c]) with ([o] ++ (E ++ [c]));
        assert (HE : E <> [])
    end.
    { apply each_not_nil; [discriminate|]. intros i x _ Hnil.
      apply map_eq_nil in Hnil. revert Hnil. apply rendering_not_nil. }
    rewrite join_app; [| discriminate | intros Hnil; apply app_eq_nil in Hnil; tauto].
    rewrite join_app; [| exact HE | discriminate].
    rewrite join_each.
    2:{ intros i x _ Hnil. apply map_eq_nil in Hnil. revert Hnil. apply rendering_not_nil. }
    rewrite (each_ext _ (fun i x => [repeat_string gap (S depth) +:+ ser x
                                     +:+ (if Nat.ltb i (length l - 1) then ","
                                          else EmptyString)])).
    2:{ intros i x Hx. rewrite (Hblock i x Hx). reflexivity. }
    rewrite (join_members (repeat_string gap (S depth)) ser l ltac:(discriminate)
               0 (length l) eq_refl).
    rewrite JSON_wrap_members; [| exact Hgap | discriminate].
    rewrite repeat_string_snoc. unfold join at 1 3. cbn [fold_left].
    rewrite !append_assoc. reflexivity.
  - destruct entries as [|entry entries]; [eexists; split; reflexivity|].
    set (l := entry :: entries) in *.
    set (ser := fun kv : string * value =>
                  JSON_quote (fst kv) +:+ ":" +:+ " "
                  +:+ match JSON_serialize gap (repeat_string gap depth +:+ gap) (snd kv) with
                      | Some s => s
                      | None => "null"
                      end).
    assert (Hall : forallb (fun kv => is_json (snd kv)) l = true) by exact Hj.
    rewrite forallb_forall in Hall. rewrite List.Forall_forall in IH.
    assert (Hblock : forall i x, In x l ->
              JSON_serialize gap (repeat_string gap depth +:+ gap) (snd x) <> None
              /\ join newline (map fst (rendering gap (snd x) (childPath path (fst x))
                                          (S depth) (Nat.ltb i (length l - 1))
                                          (Some (fst x))))
                 = repeat_string gap (S depth) +:+ ser x
                   +:+ (if Nat.ltb i (length l - 1) then "," else EmptyString)).
    { intros i x Hx.
      destruct (IH x Hx (Hall x Hx) (childPath path (fst x)) (S depth)
                  (Nat.ltb i (length l - 1)) (Some (fst x))) as [s [Hs Hjoin]].
      rewrite Hjoin. unfold ser. rewrite repeat_string_snoc, Hs.
      split; [discriminate|]. rewrite !append_assoc. reflexivity. }
    assert (Hpartial : forall l', incl l' l ->
              flat_map (fun kv => match JSON_serialize gap (repeat_string gap depth +:+ gap)
                                          (snd kv) with
                                  | Some s =>
                                      [JSON_quote (fst kv) +:+ ":"
                                       +:+ match gap with
                                           | EmptyString => EmptyString
                                           | _ => " "
                                           end +:+ s]
                                  | None => []
                                  end) l'
              = map ser l').
    { induction l' as [|kv l' IHl]; intros Hincl; [reflexivity|].
      cbn [flat_map map]. rewrite IHl by (intros y Hy; apply Hincl; right; exact Hy).
      destruct (Hblock 0 kv (Hincl kv (or_introl eq_refl))) as [Hsome _].
      unfold ser.
      destruct (JSON_serialize gap (repeat_string gap depth +:+ gap) (snd kv));
        [|congruence].
      destruct gap; [congruence | reflexivity]. }
    exists (JSON_wrap gap (repeat_string gap depth) "{" "}" (map ser l)).
    split; [rewrite JSON_serialize_object, Hpartial by apply incl_refl; reflexivity|].
    unfold l at 1. rewrite rendering_object. fold l.
    cbn [map fst]. rewrite map_app, map_each. cbn [map fst].
    match goal with
    | |- join newline (?o :: ?E ++ [?c]) = _ =>
        change (o :: E ++ [c]) with ([o] ++ (E ++ [c]));
        assert (HE : E <> [])
    end.
    { apply each_not_nil; [discriminate|]. intros i x _ Hnil.
      apply map_eq_nil in Hnil. revert Hnil. apply rendering_not_nil. }
    rewrite join_app; [| discriminate | intros Hnil; apply app_eq_nil in Hnil; tauto].
    rewrite join_app; [| exact HE | discriminate].
    rewrite join_each.
    2:{ intros i x _ Hnil. apply map_eq_nil in Hnil. revert Hnil. apply rendering_not_nil. }
    rewrite (each_ext _ (fun i x => [repeat_string gap (S depth) +:+ ser x
                                     +:+ (if Nat.ltb i (length l - 1) then ","
                                          else EmptyString)])).
    2:{ intros i x Hx. rewrite (proj2 (Hblock i x Hx)). reflexivity. }
    rewrite (join_members (repeat_string gap (S depth)) ser l ltac:(discriminate)
               0 (length l) eq_refl).
    rewrite JSON_wrap_members; [| exact Hgap | discriminate].
    rewrite repeat_string_snoc. unfold join at 1 3. cbn [fold_left].
    rewrite !append_assoc. reflexivity.
Qed.

Lemma repeat_string_not_nil (n : nat) : 1 <= n -> repeat_string " " n <> EmptyString.
Proof. destruct n as [|n]; [lia | discriminate]. Qed.

(** X16: for a parsed document and an indentation of one to ten spaces, the
    text that [stringifyWithPathMap] builds line by line is the text of
    [JSON.stringify(value, null, indent)]. *)
Theorem stringifyWithPathMap_is_JSON_stringify (v : value) (indent : nat) :
  is_json v = true -> 1 <= indent <= 10 ->
  JSON_stringify v indent = Some (fst (stringifyWithPathMap v indent)).
Proof.
  intros Hj Hi. rewrite stringifyWithPathMap_rendering. cbn [fst].
  unfold JSON_stringify. rewrite Nat.min_l by lia.
  destruct (rendering_serialize (repeat_string " " indent)
              (repeat_string_not_nil indent ltac:(lia)) v Hj EmptyString 0 false None)
    as [s [Hs Hjoin]].
  cbn [repeat_string] in Hs, Hjoin. rewrite Hs, Hjoin.
  change (EmptyString +:+ EmptyString +:+ s +:+ EmptyString) with (s +:+ EmptyString).
  rewrite append_nil_r. reflexivity.
Qed.

(** ** Escaping for HTML *)

Lemma replace_all_append (c : ascii) (by_ a b : string) :
  replace_all c by_ (a +:+ b) = replace_all c by_ a +:+ replace_all c by_ b.
Proof.
  induction a as [|d a IH]; [reflexivity|].
  change (String d a +:+ b) with (String d (a +:+ b)). simpl.
  rewrite IH, append_assoc. reflexivity.
Qed.

Lemma escapeHtml_cons (c : ascii) (s : string) :
  escapeHtml (String c s) = escape_char c +:+ escapeHtml s.
Proof.
  unfold escapeHtml. cbn [replace_all]. rewrite !replace_all_append. f_equal.
  unfold escape_char.
  destruct (Ascii.eqb_spec c "&") as [-> | H1]; [reflexivity|].
  cbn [replace_all]. change (String c EmptyString +:+ EmptyString) with (String c EmptyString).
  cbn [replace_all].
  destruct (Ascii.eqb_spec c "<") as [-> | H2]; [reflexivity|].
  change (String c EmptyString +:+ EmptyString) with (String c EmptyString).
  cbn [replace_all].
  destruct (Ascii.eqb_spec c ">") as [-> | H3]; [reflexivity|].
  change (String c EmptyString +:+ EmptyString) with (String c EmptyString).
  cbn [replace_all].
  destruct (Ascii.eqb_spec c (ascii_of_nat 34)) as [-> | H4]; reflexivity.
Qed.

Lemma escapeHtml_each (s : string) : escapeHtml s = escape_each s.
Proof.
  induction s as [|c s IH]; [reflexivity|].
  rewrite escapeHtml_cons, IH. reflexivity.
Qed.

Lemma includes_append (a b : string) (c : ascii) :
  includes (a +:+ b) c = includes a c || includes b c.
Proof.
  induction a as [|d a IH]; [reflexivity|].
  change (String d a +:+ b) with (String d (a +:+ b)). simpl.
  rewrite IH, orb_assoc. reflexivity.
Qed.

Lemma escape_char_clean (d c : ascii) :
  c = "<"%char \/ c = ">"%char \/ c = ascii_of_nat 34 ->
  includes (escape_char d) c = false.
Proof.
  intros Hc. unfold escape_char.
  destruct (Ascii.eqb_spec d "&") as [-> | H1];
    [destruct Hc as [-> | [-> | ->]]; reflexivity|].
  destruct (Ascii.eqb_spec d "<") as [-> | H2];
    [destruct Hc as [-> | [-> | ->]]; reflexivity|].
  destruct (Ascii.eqb_spec d ">") as [-> | H3];
    [destruct Hc as [-> | [-> | ->]]; reflexivity|].
  destruct (Ascii.eqb_spec d (ascii_of_nat 34)) as [-> | H4];
    [destruct Hc as [-> | [-> | ->]]; reflexivity|].
  simpl. rewrite orb_false_r. apply Ascii.eqb_neq.
  destruct Hc as [-> | [-> | ->]]; assumption.
Qed.

Lemma escape_char_injective (c d : ascii) (x y : string) :
  escape_char c +:+ x = escape_char d +:+ y -> c = d /\ x = y.
Proof.
  unfold escape_char.
  destruct (Ascii.eqb_spec c "&") as [-> | C1];
    [|destruct (Ascii.eqb_spec c "<") as [-> | C2];
      [|destruct (Ascii.eqb_spec c ">") as [-> | C3];
        [|destruct (Ascii.eqb_spec c (ascii_of_nat 34)) as [-> | C4]]]];
  (destruct (Ascii.eqb_spec d "&") as [-> | D1];
    [|destruct (Ascii.eqb_spec d "<") as [-> | D2];
      [|destruct (Ascii.eqb_spec d ">") as [-> | D3];
        [|destruct (Ascii.eqb_spec d (ascii_of_nat 34)) as [-> | D4]]]]);
  intros H; cbv beta iota delta [String.append] in H; try discriminate H;
  try (injection H; intros; subst; first [split; reflexivity | congruence]).
Qed.

(** X17: [escapeHtml] replaces each of the four characters by its entity
    and leaves the others, the four replacements not interfering; its
    result holds no [<], no [>] and no quotation mark; and two different
    texts are never escaped to the same one. *)
Theorem escapeHtml_spec (str other : string) :
  escapeHtml str = escape_each str
  /\ includes (escapeHtml str) "<" = false
  /\ includes (escapeHtml str) ">" = false
  /\ includes (escapeHtml str) (ascii_of_nat 34) = false
  /\ (escapeHtml str = escapeHtml other -> str = other).
Proof.
  split; [apply escapeHtml_each|].
  assert (Hclean : forall c, c = "<"%char \/ c = ">"%char \/ c = ascii_of_nat 34 ->
                             includes (escapeHtml str) c = false).
  { intros c Hc. rewrite escapeHtml_each.
    induction str as [|d s IH]; [reflexivity|].
    simpl. rewrite includes_append, IH, (escape_char_clean d c Hc). reflexivity. }
  split; [apply Hclean; auto|]. split; [apply Hclean; auto|]. split; [apply Hclean; auto|].
  clear Hclean. rewrite !escapeHtml_each. revert other.
  induction str as [|c s IH]; intros [|d t] H.
  - reflexivity.
  - exfalso. simpl in H. unfold escape_char in H.
    repeat match type of H with
           | context [if ?b then _ else _] => destruct b
           end; discriminate H.
  - exfalso. simpl in H. unfold escape_char in H.
    repeat match type of H with
           | context [if ?b then _ else _] => destruct b
           end; discriminate H.
  - simpl in H. apply escape_char_injective in H as [-> H]. rewrite (IH t H). reflexivity.
Qed.

(** ** The diff as HTML *)

Lemma fold_left_append {A : Type} (f : A -> string) (l : list A) (acc : string) :
  fold_left (fun output x => output +:+ f x) l acc
  = acc +:+ fold_left (fun output x => output +:+ f x) l EmptyString.
Proof.
  revert acc. induction l as [|x l IH]; intros acc; simpl.
  - rewrite append_nil_r. reflexivity.
  - rewrite IH, (IH (EmptyString +:+ f x)), append_assoc. reflexivity.
Qed.

Lemma filter_is_type (c : change) (changes : list change) :
  In c changes -> In c (List.filter (is_type (change_type_of c)) changes).
Proof.
  intros H. apply filter_In. split; [exact H|].
  unfold is_type. destruct (change_type_of c); reflexivity.
Qed.

(** The twenty-third character tells the first box of a list of changes
    from the box of an empty one. *)
Lemma formatDiffOutput_first_box (c : change) (changes : list change) :
  exists letter,
    String.get 22 (formatDiffOutput (c :: changes)) = Some letter
    /\ letter <> "u"%char.
Proof.
  unfold formatDiffOutput.
  set (cs := c :: changes).
  assert (Hin : In c cs) by (left; reflexivity).
  apply filter_is_type in Hin.
  rewrite (fold_left_append _ (List.filter (is_type changed) cs)).
  rewrite (fold_left_append _ (List.filter (is_type removed) cs)).
  rewrite !append_assoc.
  destruct (List.filter (is_type added) cs) as [|x xs] eqn:Ea.
  - destruct (List.filter (is_type removed) cs) as [|y ys] eqn:Er.
    + destruct (List.filter (is_type changed) cs) as [|z zs] eqn:Ec.
      * exfalso. destruct (change_type_of c); [rewrite Ea in Hin | rewrite Er in Hin
                                                | rewrite Ec in Hin]; destruct Hin.
      * cbn [fold_left]. rewrite (fold_left_append _ zs), !append_assoc.
        exists "c"%char. split; [vm_compute; reflexivity | discriminate].
    + cbn [fold_left]. rewrite (fold_left_append _ ys), !append_assoc.
      exists "r"%char. split; [vm_compute; reflexivity | discriminate].
  - cbn [fold_left]. rewrite (fold_left_append _ xs), !append_assoc.
    exists "a"%char. split; [vm_compute; reflexivity | discriminate].
Qed.

Lemma formatDiffOutput_differences (changes : list change) :
  formatDiffOutput changes = formatDiffOutput [] -> changes = [].
Proof.
  destruct changes as [|c changes]; [reflexivity|]. intros H. exfalso.
  destruct (formatDiffOutput_first_box c changes) as [letter [Hl Hne]].
  rewrite H in Hl. vm_compute in Hl. congruence.
Qed.

(** X18: for two parsed documents none of whose keys is the name of a
    member of [Object.prototype], the output of [formatDiffOutput] on their
    diff is the box that reads "No differences found" exactly when the
    documents are deep-equal. *)
Theorem formatDiffOutput_no_differences (json1 json2 : value) :
  is_json json1 = true -> is_json json2 = true -> distinct_keys json1 ->
  plain_keys json1 = true -> plain_keys json2 = true ->
  formatDiffOutput (diffJSON json1 json2) = formatDiffOutput []
  <-> deep_equal json1 json2 = true.
Proof.
  intros J1 J2 D1 P1 P2. split.
  - intros H. apply formatDiffOutput_differences in H.
    unfold diffJSON in H. apply (compare_nil_deep_equal json1 json2 EmptyString); assumption.
  - intros H. unfold diffJSON. rewrite (compare_deep_equal json1 json2 H). reflexivity.
Qed.

(** ** The position of a parse error *)

Lemma substring_0_append (n : nat) (s : string) :
  exists rest, s = substring 0 n s +:+ rest.
Proof.
  revert n. induction s as [|c s IH]; intros [|n]; simpl.
  - exists EmptyString. reflexivity.
  - exists EmptyString. reflexivity.
  - exists (String c s). reflexivity.
  - destruct (IH n) as [rest Hr]. exists rest.
    change (String c (substring 0 n s) +:+ rest) with (String c (substring 0 n s +:+ rest)).
    rewrite <- Hr. reflexivity.
Qed.

Lemma split_cons (sep c : ascii) (s : string) :
  exists piece rest,
    split sep s = piece :: rest
    /\ split sep (String c s)
       = if Ascii.eqb c sep then EmptyString :: piece :: rest else String c piece :: rest.
Proof.
  pose proof (split_not_nil sep s) as H. simpl.
  destruct (split sep s) as [|piece rest]; [simpl in H; lia|].
  exists piece, rest. split; reflexivity.
Qed.

(** The lines of a prefix are lines of the text, the last one cut short. *)
Lemma split_prefix (sep : ascii) (a b : string) :
  length (split sep a) <= length (split sep (a +:+ b))
  /\ String.length (List.last (split sep a) EmptyString)
     <= String.length (nth (length (split sep a) - 1) (split sep (a +:+ b)) EmptyString).
Proof.
  induction a as [|c a [IH1 IH2]].
  - change (EmptyString +:+ b) with b. simpl. split; [apply split_not_nil | lia].
  - change (String c a +:+ b) with (String c (a +:+ b)).
    destruct (split_cons sep c a) as [p [r [Ha Hca]]].
    destruct (split_cons sep c (a +:+ b)) as [p' [r' [Hab Hcab]]].
    rewrite Hca, Hcab. rewrite Ha, Hab in IH1, IH2.
    destruct (Ascii.eqb c sep).
    + split; [simpl in *; lia|].
      change (List.last (EmptyString :: p :: r) EmptyString)
        with (List.last (p :: r) EmptyString).
      simpl length in *.
      replace (S (S (length r)) - 1) with (S (S (length r) - 1)) by lia. exact IH2.
    + split; [simpl in *; lia|].
      destruct r as [|q r].
      * simpl in *. lia.
      * change (List.last (String c p :: q :: r) EmptyString)
          with (List.last (p :: q :: r) EmptyString).
        simpl length in *.
        replace (S (S (length r)) - 1) with (S (length r)) in * by lia.
        exact IH2.
Qed.

(** X19: the line and the column that [getErrorPosition] reports are in the
    input: the line is one of its lines, and the column is within that line
    or just after its end. *)
Theorem getErrorPosition_in_input (message input : string) (pos : error_position) :
  getErrorPosition message input = Some pos ->
  1 <= position_line pos <= line_count input
  /\ 1 <= position_column pos
     <= String.length (nth (position_line pos - 1) (split (ascii_of_nat 10) input)
                           EmptyString) + 1.
Proof.
  unfold getErrorPosition. destruct (position_match message) as [digits|]; [|discriminate].
  intros [= <-]. cbn [position_line position_column].
  set (stop := match parseInt digits with
               | Some p => Z.to_nat (Z.min p (Z.of_nat (String.length input)))
               | None => 0
               end).
  destruct (substring_0_append stop input) as [rest Hrest].
  pose proof (split_prefix (ascii_of_nat 10) (substring 0 stop input) rest) as [H1 H2].
  rewrite <- Hrest in H1, H2.
  pose proof (split_not_nil (ascii_of_nat 10) (substring 0 stop input)) as H3.
  unfold line_count. lia.
Qed.

(** ** Sorted keys: the order of strings *)

Lemma code_injective (c d : ascii) : code c = code d -> c = d.
Proof.
  unfold code. intros H.
  rewrite <- (ascii_nat_embedding c), <- (ascii_nat_embedding d), H. reflexivity.
Qed.

Lemma string_ltb_antisym (a b : string) :
  string_ltb a b = false -> string_ltb b a = false -> a = b.
Proof.
  revert b. induction a as [|c a IH]; intros [|d b]; simpl; try discriminate.
  - reflexivity.
  - destruct (Nat.ltb_spec (code c) (code d)); [discriminate|].
    destruct (Nat.ltb_spec (code d) (code c)); [discriminate|].
    intros H1 H2. f_equal; [apply code_injective; lia | apply IH; assumption].
Qed.

Lemma string_ltb_trans (a b c : string) :
  string_ltb a b = true -> string_ltb b c = true -> string_ltb a c = true.
Proof.
  revert b c. induction a as [|x a IH]; intros [|y b] [|z c]; simpl; try discriminate;
    try reflexivity.
  destruct (Nat.ltb_spec (code x) (code y)), (Nat.ltb_spec (code y) (code z)),
    (Nat.ltb_spec (code x) (code z)); try reflexivity; try lia;
    destruct (Nat.ltb_spec (code y) (code x)); try discriminate;
    destruct (Nat.ltb_spec (code z) (code y)); try discriminate;
    destruct (Nat.ltb_spec (code z) (code x)); try lia.
  apply IH.
Qed.

Lemma string_ltb_irrefl (a : string) : string_ltb a a = false.
Proof.
  induction a as [|x a IH]; simpl; [reflexivity|].
  rewrite Nat.ltb_irrefl. exact IH.
Qed.

Lemma string_le_trans_lt (k x y : string) :
  string_ltb k x = true -> string_le x y -> string_le k y.
Proof.
  unfold string_le. intros H1 H2.
  destruct (string_ltb y k) eqn:E; [|reflexivity].
  rewrite (string_ltb_trans y k x E H1) in H2. discriminate.
Qed.

Lemma insert_sorted_Permutation (k : string) (l : list string) :
  Permutation (k :: l) (insert_sorted k l).
Proof.
  induction l as [|x l IH]; simpl; [reflexivity|].
  destruct (string_ltb k x); [reflexivity|].
  rewrite perm_swap. apply perm_skip, IH.
Qed.

Lemma sort_Permutation (l : list string) : Permutation l (sort l).
Proof.
  induction l as [|x l IH]; simpl; [reflexivity|].
  rewrite <- insert_sorted_Permutation. apply perm_skip, IH.
Qed.

Lemma insert_sorted_sorted (k : string) (l : list string) :
  StronglySorted string_le l -> StronglySorted string_le (insert_sorted k l).
Proof.
  induction 1 as [|x l Hl IH Hx]; simpl.
  - constructor; constructor.
  - destruct (string_ltb k x) eqn:E.
    + constructor; [constructor; assumption|].
      constructor.
      * unfold string_le. destruct (string_ltb x k) eqn:E'; [|reflexivity].
        pose proof (string_ltb_trans x k x E' E) as T.
        rewrite string_ltb_irrefl in T. discriminate.
      * rewrite List.Forall_forall in *. intros y Hy.
        apply (string_le_trans_lt k x y E). apply Hx, Hy.
    + constructor; [exact IH|].
      rewrite List.Forall_forall in *. intros y Hy.
      apply (Permutation_in _ (Permutation_sym (insert_sorted_Permutation k l))) in Hy.
      destruct Hy as [<- | Hy]; [exact E | apply Hx, Hy].
Qed.

Lemma sort_sorted (l : list string) : StronglySorted string_le (sort l).
Proof.
  induction l as [|x l IH]; simpl; [constructor | apply insert_sorted_sorted, IH].
Qed.

Lemma sorted_unique (l1 l2 : list string) :
  StronglySorted string_le l1 -> StronglySorted string_le l2 ->
  Permutation l1 l2 -> l1 = l2.
Proof.
  intros H1. revert l2. induction H1 as [|x l1 Hl1 IH Hx]; intros l2 H2 Hp.
  - apply Permutation_nil in Hp. congruence.
  - destruct H2 as [|y l2 Hl2 Hy].
    + apply Permutation_sym, Permutation_nil in Hp. discriminate.
    + assert (x = y).
      { rewrite List.Forall_forall in Hx, Hy.
        assert (Hxin : In x (y :: l2)) by (apply (Permutation_in _ Hp); left; reflexivity).
        assert (Hyin : In y (x :: l1))
          by (apply (Permutation_in _ (Permutation_sym Hp)); left; reflexivity).
        destruct Hxin as [-> | Hxin]; [reflexivity|].
        destruct Hyin as [-> | Hyin]; [reflexivity|].
        apply string_ltb_antisym; [apply (Hy x Hxin) | apply (Hx y Hyin)]. }
      subst y. f_equal. apply IH; [exact Hl2|].
      apply (Permutation_cons_inv Hp).
Qed.

(** Sorting does not depend on the order of what is sorted. *)
Lemma sort_unique (l l' : list string) : Permutation l l' -> sort l = sort l'.
Proof.
  intros Hp. apply sorted_unique; try apply sort_sorted.
  rewrite <- (sort_Permutation l), <- (sort_Permutation l'). exact Hp.
Qed.

(** ** Sorted keys: the object that [sortObjectKeys] builds *)

Lemma place_Permutation (i : Z) (key : string) (v : value) (entries : list (string * value)) :
  Permutation ((key, v) :: entries) (place i key v entries).
Proof.
  induction entries as [|kw rest IH]; simpl; [reflexivity|].
  destruct (index_key (fst kw)) as [j|]; [|reflexivity].
  destruct (j <? i)%Z; [|reflexivity].
  rewrite perm_swap. apply perm_skip, IH.
Qed.

(** An assignment to a name the object does not hold adds the property. *)
Lemma assign_Permutation (entries : list (string * value)) (key : string) (v : value) :
  key <> "__proto__" -> own entries key = None ->
  Permutation ((key, v) :: entries) (assign entries key v).
Proof.
  intros Hk Hown. unfold assign.
  rewrite (proj2 (String.eqb_neq _ _) Hk), Hown.
  destruct (index_key key) as [i|]; [apply place_Permutation | apply Permutation_cons_append].
Qed.

Lemma build_Permutation (copies : list (string * value)) (ks : list string) :
  List.NoDup ks ->
  (forall k, In k ks -> k <> "__proto__") ->
  forall acc,
    (forall k, In k ks -> own acc k = None) ->
    Permutation
      (fold_left (fun sorted key => match own copies key with
                                    | Some v => assign sorted key v
                                    | None => sorted
                                    end) ks acc)
      (acc ++ flat_map (fun k => match own copies k with
                                 | Some v => [(k, v)]
                                 | None => []
                                 end) ks).
Proof.
  intros Hnd. induction Hnd as [|k ks Hk Hnd IH]; intros Hp acc Hacc; simpl.
  - rewrite app_nil_r. reflexivity.
  - assert (Hp' : forall k', In k' ks -> k' <> "__proto__")
      by (intros k' Hk'; apply Hp; right; exact Hk').
    destruct (own copies k) as [v|] eqn:E.
    + pose proof (assign_Permutation acc k v (Hp k (or_introl eq_refl))
                    (Hacc k (or_introl eq_refl))) as Ha.
      rewrite (IH Hp').
      * rewrite <- Ha. simpl. apply Permutation_middle.
      * intros k' Hk'. apply own_None_not_in. intros Hin.
        apply (Permutation_in _ (Permutation_map fst (Permutation_sym Ha))) in Hin.
        destruct Hin as [<- | Hin]; [exact (Hk Hk')|].
        revert Hin. apply own_None_not_in. apply Hacc. right. exact Hk'.
    + simpl. apply (IH Hp'). intros k' Hk'. apply Hacc. right. exact Hk'.
Qed.

Lemma entries_of_keys (e : list (string * value)) :
  List.NoDup (map fst e) ->
  flat_map (fun k => match own e k with
                     | Some v => [(k, v)]
                     | None => []
                     end) (map fst e) = e.
Proof.
  intros Hnd. rewrite flat_map_concat_map, map_map.
  rewrite (map_ext_in _ (fun kv => [kv])).
  - induction e as [|kv e IH]; [reflexivity|]. simpl. f_equal. apply IH.
    inversion Hnd. assumption.
  - intros [k v] Hin. simpl. rewrite (in_own e k v Hnd Hin). reflexivity.
Qed.

Lemma no_proto_key_entries (e : list (string * value)) :
  no_proto_key (VObj e) = true ->
  (forall k, In k (map fst e) -> k <> "__proto__")
  /\ (forall kv, In kv e -> no_proto_key (snd kv) = true).
Proof.
  simpl. rewrite forallb_forall. intros H. split.
  - intros k Hk. apply in_map_iff in Hk as [kv [<- Hin]].
    specialize (H kv Hin). apply andb_true_iff in H as [H _].
    apply negb_true_iff, String.eqb_neq in H. exact H.
  - intros kv Hin. specialize (H kv Hin). apply andb_true_iff in H as [_ H]. exact H.
Qed.

Lemma sortObjectKeys_object (e : list (string * value)) :
  sortObjectKeys (VObj e)
  = VObj (fold_left
            (fun sorted key =>
               match own (map (fun kv => (fst kv, sortObjectKeys (snd kv))) e) key with
               | Some v => assign sorted key v
               | None => sorted
               end)
            (sort (map fst e)) []).
Proof. reflexivity. Qed.

Lemma map_fst_copies (e : list (string * value)) :
  map fst (map (fun kv => (fst kv, sortObjectKeys (snd kv))) e) = map fst e.
Proof. rewrite map_map. reflexivity. Qed.

(** The sorted object holds the sorted copies of the values under the same
    keys. *)
Lemma sortObjectKeys_entries (e : list (string * value)) :
  List.NoDup (map fst e) -> (forall k, In k (map fst e) -> k <> "__proto__") ->
  exists sorted,
    sortObjectKeys (VObj e) = VObj sorted
    /\ Permutation sorted (map (fun kv => (fst kv, sortObjectKeys (snd kv))) e).
Proof.
  intros Hnd Hp. eexists. split; [apply sortObjectKeys_object|].
  set (copies := map (fun kv => (fst kv, sortObjectKeys (snd kv))) e).
  rewrite build_Permutation.
  - cbn [app].
    rewrite <- (Permutation_flat_map _ (sort_Permutation (map fst e))).
    rewrite <- (map_fst_copies e). apply Permutation_refl'.
    apply entries_of_keys. rewrite map_fst_copies. exact Hnd.
  - apply (Permutation_NoDup (sort_Permutation _)). exact Hnd.
  - intros k Hk. apply Hp.
    apply (Permutation_in _ (Permutation_sym (sort_Permutation _))). exact Hk.
  - reflexivity.
Qed.

Lemma sortObjectKeys_permuted (e e' : list (string * value)) :
  List.NoDup (map fst e) -> Permutation e e' ->
  sortObjectKeys (VObj e) = sortObjectKeys (VObj e').
Proof.
  intros Hnd Hp. rewrite !sortObjectKeys_object.
  rewrite (sort_unique (map fst e) (map fst e')) by (apply Permutation_map, Hp).
  f_equal. apply fold_left_ext_in. intros sorted key _.
  rewrite (own_Permutation (map (fun kv => (fst kv, sortObjectKeys (snd kv))) e)
             (map (fun kv => (fst kv, sortObjectKeys (snd kv))) e') key).
  - reflexivity.
  - rewrite map_fst_copies. exact Hnd.
  - apply Permutation_map, Hp.
Qed.

(** X20: two objects with distinct keys that hold the same values under the
    same keys, in whatever order, are sorted to the same object. *)
Theorem sortObjectKeys_canonical (e e' : list (string * value)) :
  List.NoDup (map fst e) -> Permutation e e' ->
  sortObjectKeys (VObj e) = sortObjectKeys (VObj e').
Proof.
  intros Hnd Hp. apply sortObjectKeys_permuted; assumption.
Qed.

Lemma distinct_keys_copies (e : list (string * value)) :
  List.NoDup (map fst e) ->
  List.NoDup (map fst (map (fun kv => (fst kv, sortObjectKeys (snd kv))) e)).
Proof. rewrite map_fst_copies. auto. Qed.

Lemma sortObjectKeys_twice (v : value) :
  distinct_keys v -> no_proto_key v = true ->
  sortObjectKeys (sortObjectKeys v) = sortObjectKeys v.
Proof.
  induction v as [ | | b | x | s | items IH | entries IH | name | ] using value_ind';
    intros Hd Hp; try reflexivity.
  - simpl. f_equal. rewrite map_map. apply map_ext_in. intros x Hx.
    apply distinct_keys_arr in Hd. rewrite List.Forall_forall in IH, Hd.
    simpl in Hp. rewrite forallb_forall in Hp. apply (IH x Hx (Hd x Hx) (Hp x Hx)).
  - apply distinct_keys_obj in Hd. destruct Hd as [Hnd Hd].
    destruct (no_proto_key_entries entries Hp) as [Hk Hv].
    destruct (sortObjectKeys_entries entries Hnd Hk) as [sorted [Hs Hperm]].
    rewrite Hs.
    rewrite (sortObjectKeys_permuted sorted
               (map (fun kv => (fst kv, sortObjectKeys (snd kv))) entries)).
    + rewrite <- Hs, !sortObjectKeys_object. rewrite map_fst_copies, map_map. cbn [fst snd].
      rewrite (map_ext_in (fun kv => (fst kv, sortObjectKeys (sortObjectKeys (snd kv))))
                 (fun kv => (fst kv, sortObjectKeys (snd kv)))); [reflexivity|].
      intros kv Hin. f_equal. rewrite List.Forall_forall in IH, Hd.
      apply (IH kv Hin (Hd kv Hin) (Hv kv Hin)).
    + apply (Permutation_NoDup (Permutation_map fst (Permutation_sym Hperm))).
      apply distinct_keys_copies, Hnd.
    + exact Hperm.
Qed.

Lemma forall2b_map {A : Type} (f : A -> A -> bool) (g : A -> A) (l : list A) :
  (forall x, In x l -> f x (g x) = true) -> forall2b f l (map g l) = true.
Proof.
  induction l as [|x l IH]; intros H; simpl; [reflexivity|].
  rewrite (H x (or_introl eq_refl)), IH; [reflexivity|].
  intros y Hy. apply H. right. exact Hy.
Qed.

Lemma sortObjectKeys_deep_equal (v : value) :
  is_json v = true -> nan_free v = true -> distinct_keys v -> no_proto_key v = true ->
  deep_equal v (sortObjectKeys v) = true.
Proof.
  induction v as [ | | b | x | s | items IH | entries IH | name | ] using value_ind';
    intros Hj Hn Hd Hp; try discriminate Hj.
  - reflexivity.
  - simpl. apply eqb_reflx.
  - simpl. apply num_eqb_refl. simpl in Hn. apply negb_true_iff in Hn. exact Hn.
  - simpl. apply String.eqb_refl.
  - change (sortObjectKeys (VArr items)) with (VArr (map sortObjectKeys items)).
    rewrite deep_equal_arr. apply forall2b_map. intros x Hx.
    apply distinct_keys_arr in Hd. rewrite List.Forall_forall in IH, Hd.
    simpl in Hj, Hn, Hp. rewrite forallb_forall in Hj, Hn, Hp.
    apply (IH x Hx (Hj x Hx) (Hn x Hx) (Hd x Hx) (Hp x Hx)).
  - apply distinct_keys_obj in Hd. destruct Hd as [Hnd Hd].
    destruct (no_proto_key_entries entries Hp) as [Hk Hv].
    destruct (sortObjectKeys_entries entries Hnd Hk) as [sorted [Hs Hperm]].
    rewrite Hs, deep_equal_obj. apply andb_true_iff. split.
    + apply forallb_forall. intros k Hin. apply existsb_eqb_in.
      apply (Permutation_in _ (Permutation_map fst Hperm)) in Hin.
      rewrite map_fst_copies in Hin. exact Hin.
    + apply forallb_forall. intros [k w] Hin. cbn [fst snd].
      rewrite <- (own_Permutation _ sorted k (distinct_keys_copies entries Hnd)
                    (Permutation_sym Hperm)).
      rewrite (in_own _ k (sortObjectKeys w) (distinct_keys_copies entries Hnd)).
      * rewrite List.Forall_forall in IH, Hd.
        simpl in Hj, Hn. rewrite forallb_forall in Hj, Hn.
        apply (IH (k, w) Hin (Hj _ Hin) (Hn _ Hin) (Hd _ Hin) (Hv _ Hin)).
      * apply in_map_iff. exists (k, w). split; [reflexivity | exact Hin].
Qed.

Lemma similarity_no_change (v1 v2 : value) :
  diffJSON v1 v2 = [] -> (spec_nodeCount v1 + spec_nodeCount v2 < 2 ^ 53)%Z ->
  calculateSimilarity v1 v2 = Z2F 100.
Proof.
  intros Hd Hlt. rewrite calculateSimilarity_binary64. unfold spec_similarity_binary64.
  rewrite Hd. simpl length.
  set (total := (spec_nodeCount v1 + spec_nodeCount v2)%Z) in *.
  destruct (Z.eqb_spec total 0) as [E | E]; [reflexivity|].
  pose proof (spec_nodeCount_nonneg v1). pose proof (spec_nodeCount_nonneg v2).
  replace (total - Z.of_nat 0 * 2)%Z with total by lia.
  destruct (Z2F_finite total ltac:(unfold total in *; lia)) as [m [e Ht]].
  rewrite Ht, SFdiv_same. vm_compute. reflexivity.
Qed.

(** X21: sorting the keys of a parsed document, whose keys are distinct and
    none of them [__proto__], a second time changes nothing; the sorted
    document is deep-equal to the document, the diff of the two is empty in
    both directions, and their similarity is 100 (the node counts staying
    below 2^53). *)
Theorem sortObjectKeys_same_document (v : value) :
  is_json v = true -> nan_free v = true -> distinct_keys v -> no_proto_key v = true ->
  sortObjectKeys (sortObjectKeys v) = sortObjectKeys v
  /\ deep_equal v (sortObjectKeys v) = true
  /\ diffJSON v (sortObjectKeys v) = []
  /\ diffJSON (sortObjectKeys v) v = []
  /\ ((spec_nodeCount v + spec_nodeCount (sortObjectKeys v) < 2 ^ 53)%Z ->
      calculateSimilarity v (sortObjectKeys v) = Z2F 100).
Proof.
  intros Hj Hn Hd Hp.
  pose proof (sortObjectKeys_deep_equal v Hj Hn Hd Hp) as He.
  assert (H1 : diffJSON v (sortObjectKeys v) = [])
    by (unfold diffJSON; apply compare_deep_equal, He).
  split; [apply sortObjectKeys_twice; assumption|].
  split; [exact He|]. split; [exact H1|]. split.
  - apply length_zero_iff_nil.
    unfold diffJSON, compare. rewrite (Nat.add_comm (rank (sortObjectKeys v))).
    rewrite (compare_fuel_length_sym _ _ _ EmptyString EmptyString).
    change (length (diffJSON v (sortObjectKeys v)) = 0). rewrite H1. reflexivity.
  - intros Hlt. apply similarity_no_change; assumption.
Qed.

(** ** Sorted keys: the order of the keys *)

Lemma StronglySorted_snoc {A : Type} (R : A -> A -> Prop) (l : list A) (x : A) :
  StronglySorted R l -> Forall (fun y => R y x) l -> StronglySorted R (l ++ [x]).
Proof.
  induction 1 as [|y l Hl IH Hy]; intros Hx; simpl.
  - constructor; constructor.
  - inversion Hx as [|? ? Hyx Hlx]; subst. constructor; [apply IH, Hlx|].
    apply Forall_app. split; [exact Hy | constructor; [exact Hyx | constructor]].
Qed.

(** The place of an array index among the keys. *)
Lemma place_keys (i : Z) (key : string) (v : value) (names : list string) :
  index_key key = Some i ->
  Forall (fun k => is_index k = false) names ->
  forall indices entries,
    map fst entries = indices ++ names ->
    Forall (fun k => is_index k = true) indices ->
    StronglySorted index_le indices ->
    exists indices',
      map fst (place i key v entries) = indices' ++ names
      /\ Forall (fun k => is_index k = true) indices'
      /\ StronglySorted index_le indices'
      /\ (forall x, In x indices' -> x = key \/ In x indices).
Proof.
  intros Hkey Hnames.
  assert (Hidx : is_index key = true) by (unfold is_index; rewrite Hkey; reflexivity).
  induction indices as [|j0 indices IH]; intros entries He Hi Hs.
  - exists [key]. simpl in He.
    assert (Hplace : place i key v entries = (key, v) :: entries).
    { destruct entries as [|kw rest]; [reflexivity|]. simpl.
      destruct names as [|n names]; [discriminate|]. simpl in He.
      injection He as Hn _. inversion Hnames as [|? ? Hn0 _]; subst.
      unfold is_index in Hn0. destruct (index_key (fst kw)); [discriminate | reflexivity]. }
    rewrite Hplace. simpl. rewrite He. repeat split.
    + constructor; [exact Hidx | constructor].
    + constructor; constructor.
    + intros x [<- | []]. left. reflexivity.
  - destruct entries as [|kw rest]; [discriminate|]. simpl in He.
    injection He as Hj0 Hrest.
    inversion Hi as [|? ? Hj0i Hi']; subst.
    inversion Hs as [|? ? Hs' Hle]; subst.
    simpl. unfold is_index in Hj0i.
    destruct (index_key (fst kw)) as [j|] eqn:Ej; [|discriminate].
    destruct (Z.ltb_spec j i) as [Hlt | Hge].
    + destruct (IH rest Hrest Hi' Hs') as [indices' [Hk [Hi2 [Hs2 Hin]]]].
      exists (fst kw :: indices'). simpl. rewrite Hk. repeat split.
      * constructor; [unfold is_index; rewrite Ej; reflexivity | exact Hi2].
      * constructor; [exact Hs2|]. rewrite List.Forall_forall in *.
        intros x Hx. destruct (Hin x Hx) as [-> | Hx'].
        -- unfold index_le. rewrite Ej, Hkey. lia.
        -- apply Hle, Hx'.
      * intros x [<- | Hx]; [right; left; reflexivity|].
        destruct (Hin x Hx) as [-> | Hx']; [left; reflexivity | right; right; exact Hx'].
    + exists (key :: fst kw :: indices). simpl. rewrite Hrest. repeat split.
      * constructor; [exact Hidx|]. constructor; [|exact Hi'].
        unfold is_index. rewrite Ej. reflexivity.
      * constructor; [constructor; assumption|].
        constructor; [unfold index_le; rewrite Ej, Hkey; lia|].
        rewrite List.Forall_forall in *. intros x Hx.
        specialize (Hle x Hx). specialize (Hi' x Hx).
        unfold index_le, is_index in *. rewrite Hkey. rewrite Ej in Hle.
        destruct (index_key x); [lia | discriminate].
      * intros x [<- | Hx]; [left; reflexivity | right; exact Hx].
Qed.

Lemma assign_keys_in_order (entries : list (string * value)) (key : string) (v : value)
    (indices names : list string) :
  key <> "__proto__" -> own entries key = None ->
  map fst entries = indices ++ names ->
  Forall (fun k => is_index k = true) indices ->
  Forall (fun k => is_index k = false) names ->
  StronglySorted index_le indices ->
  StronglySorted string_le names ->
  Forall (fun n => string_le n key) names ->
  exists indices' names',
    map fst (assign entries key v) = indices' ++ names'
    /\ Forall (fun k => is_index k = true) indices'
    /\ Forall (fun k => is_index k = false) names'
    /\ StronglySorted index_le indices'
    /\ StronglySorted string_le names'
    /\ (forall n, In n names' -> n = key \/ In n names).
Proof.
  intros Hk Hown He Hi Hn Hsi Hsn Hlast. unfold assign.
  rewrite (proj2 (String.eqb_neq _ _) Hk), Hown.
  destruct (index_key key) as [i|] eqn:Ei.
  - destruct (place_keys i key v names Ei Hn indices entries He Hi Hsi)
      as [indices' [Hk' [Hi' [Hs' _]]]].
    exists indices', names. repeat split; auto.
  - exists indices, (names ++ [key]). rewrite map_app, He, <- app_assoc. repeat split; auto.
    + apply Forall_app. split; [exact Hn|]. constructor; [|constructor].
      unfold is_index. rewrite Ei. reflexivity.
    + apply StronglySorted_snoc; assumption.
    + intros n Hin. apply in_app_or in Hin as [Hin | [<- | []]]; auto.
Qed.

Lemma build_keys_in_order (copies : list (string * value)) (ks : list string) :
  List.NoDup ks -> StronglySorted string_le ks ->
  (forall k, In k ks -> k <> "__proto__") ->
  forall acc indices names,
    (forall k, In k ks -> own acc k = None) ->
    map fst acc = indices ++ names ->
    Forall (fun k => is_index k = true) indices ->
    Forall (fun k => is_index k = false) names ->
    StronglySorted index_le indices ->
    StronglySorted string_le names ->
    (forall n k, In n names -> In k ks -> string_le n k) ->
    keys_in_order
      (map fst (fold_left (fun sorted key => match own copies key with
                                             | Some v => assign sorted key v
                                             | None => sorted
                                             end) ks acc)).
Proof.
  intros Hnd. induction Hnd as [|k ks Hk Hnd IH];
    intros Hsorted Hp acc indices names Hacc He Hi Hn Hsi Hsn Hlast; simpl.
  - exists indices, names. auto.
  - inversion Hsorted as [|? ? Hsorted' Hkle]; subst.
    assert (Hp' : forall k', In k' ks -> k' <> "__proto__")
      by (intros k' Hk'; apply Hp; right; exact Hk').
    destruct (own copies k) as [v|] eqn:E.
    + pose proof (assign_Permutation acc k v (Hp k (or_introl eq_refl))
                    (Hacc k (or_introl eq_refl))) as Ha.
      destruct (assign_keys_in_order acc k v indices names
                  (Hp k (or_introl eq_refl)) (Hacc k (or_introl eq_refl))
                  He Hi Hn Hsi Hsn) as [indices' [names' [He' [Hi' [Hn' [Hsi' [Hsn' Hin]]]]]]].
      { rewrite List.Forall_forall. intros n Hn0. apply Hlast; [exact Hn0 | left; reflexivity]. }
      apply (IH Hsorted' Hp' (assign acc k v) indices' names'); auto.
      * intros k' Hk'. apply own_None_not_in. intros Hin'.
        apply (Permutation_in _ (Permutation_map fst (Permutation_sym Ha))) in Hin'.
        destruct Hin' as [<- | Hin']; [exact (Hk Hk')|].
        revert Hin'. apply own_None_not_in. apply Hacc. right. exact Hk'.
      * intros n k' Hn0 Hk'. destruct (Hin n Hn0) as [-> | Hn1].
        -- rewrite List.Forall_forall in Hkle. apply Hkle, Hk'.
        -- apply Hlast; [exact Hn1 | right; exact Hk'].
    + apply (IH Hsorted' Hp' acc indices names); auto.
      * intros k' Hk'. apply Hacc. right. exact Hk'.
      * intros n k' Hn0 Hk'. apply Hlast; [exact Hn0 | right; exact Hk'].
Qed.

(** X22: the keys of the object that [sortObjectKeys] returns for an object
    with distinct keys, none of them [__proto__], are the keys of that
    object, in this order: first the keys that are array indices, by
    ascending value, then the other keys, ascending by code units. *)
Theorem sortObjectKeys_order (e : list (string * value)) :
  List.NoDup (map fst e) -> (forall k, In k (map fst e) -> k <> "__proto__") ->
  Permutation (keys (sortObjectKeys (VObj e))) (map fst e)
  /\ keys_in_order (keys (sortObjectKeys (VObj e))).
Proof.
  intros Hnd Hp. split.
  - destruct (sortObjectKeys_entries e Hnd Hp) as [sorted [Hs Hperm]].
    rewrite Hs. cbn [keys]. rewrite (Permutation_map fst Hperm), map_fst_copies. reflexivity.
  - rewrite sortObjectKeys_object. cbn [keys].
    apply (build_keys_in_order _ _
             (Permutation_NoDup (sort_Permutation _) Hnd) (sort_sorted _)) with
      (indices := []) (names := []); try constructor; try reflexivity.
    + intros k Hk. apply Hp.
      apply (Permutation_in _ (Permutation_sym (sort_Permutation _))). exact Hk.
    + intros n k [].
Qed.

(** ** Sorted keys: the statistics *)

Lemma sum_Permutation {A : Type} (f : A -> Z) (l l' : list A) :
  Permutation l l' ->
  fold_right Z.add 0%Z (map f l) = fold_right Z.add 0%Z (map f l').
Proof.
  induction 1; simpl; lia.
Qed.

Lemma max_of_fold (d : Z) (ds : list Z) :
  (0 <= d)%Z -> max_of d ds = fold_left Z.max (d :: ds) 0%Z.
Proof. intros H. unfold max_of. simpl. rewrite Z.max_r by lia. reflexivity. Qed.

Lemma depth_of_Permutation (l l' : list Z) :
  Forall (fun d => (0 <= d)%Z) l -> Permutation l l' -> depth_of l = depth_of l'.
Proof.
  intros Hl Hp.
  assert (Hl' : Forall (fun d => (0 <= d)%Z) l').
  { rewrite List.Forall_forall in *. intros d Hd. apply Hl.
    apply (Permutation_in _ (Permutation_sym Hp)). exact Hd. }
  destruct l as [|d ds], l' as [|d' ds'].
  - reflexivity.
  - apply Permutation_nil in Hp. discriminate.
  - apply Permutation_sym, Permutation_nil in Hp. discriminate.
  - unfold depth_of. inversion Hl; inversion Hl'; subst.
    rewrite !max_of_fold by assumption. f_equal.
    apply fold_left_Permutation; [|exact Hp]. intros a x y. lia.
Qed.

Lemma getDepth_nonneg (v : value) : (0 <= getDepth v)%Z.
Proof.
  assert (Hmax : forall ds d, (0 <= d)%Z -> (0 <= max_of d ds)%Z).
  { unfold max_of. induction ds as [|x ds IH]; intros d Hd; simpl; [exact Hd|].
    apply IH. lia. }
  induction v as [ | | b | x | s | items IH | entries IH | name | ] using value_ind';
    simpl; try lia.
  - destruct items as [|item items]; simpl; [lia|].
    inversion IH; subst. specialize (Hmax (map getDepth items) (getDepth item)). lia.
  - destruct entries as [|entry entries]; simpl; [lia|].
    inversion IH; subst.
    specialize (Hmax (map (fun kv => getDepth (snd kv)) entries) (getDepth (snd entry))). lia.
Qed.

Lemma getDepth_object (e : list (string * value)) :
  getDepth (VObj e) = depth_of (map (fun kv => getDepth (snd kv)) e).
Proof. reflexivity. Qed.

Lemma getDepth_array (items : list value) :
  getDepth (VArr items) = depth_of (map getDepth items).
Proof. reflexivity. Qed.

Lemma countKeys_object (e : list (string * value)) :
  countKeys (VObj e)
  = (Z.of_nat (length e) + fold_right Z.add 0 (map (fun kv => countKeys (snd kv)) e))%Z.
Proof.
  simpl. rewrite (fold_left_sum (fun kv => countKeys (snd kv))), length_map. lia.
Qed.

Lemma countKeys_array (items : list value) :
  countKeys (VArr items) = fold_right Z.add 0%Z (map countKeys items).
Proof. simpl. rewrite (fold_left_sum countKeys). lia. Qed.

(** X23: sorting the keys of a document with distinct keys, none of them
    [__proto__], changes neither the number of its keys nor its depth nor
    the number of its nodes. *)
Theorem sortObjectKeys_statistics (v : value) :
  distinct_keys v -> no_proto_key v = true ->
  countKeys (sortObjectKeys v) = countKeys v
  /\ getDepth (sortObjectKeys v) = getDepth v
  /\ countNodes (sortObjectKeys v) = countNodes v.
Proof.
  induction v as [ | | b | x | s | items IH | entries IH | name | ] using value_ind';
    intros Hd Hp; try (repeat split; reflexivity).
  - apply distinct_keys_arr in Hd. rewrite List.Forall_forall in IH, Hd.
    simpl in Hp. rewrite forallb_forall in Hp.
    change (sortObjectKeys (VArr items)) with (VArr (map sortObjectKeys items)).
    rewrite !countKeys_array, !getDepth_array, !countNodes_spec. cbn [spec_nodeCount].
    rewrite !map_map. repeat split.
    + f_equal. apply map_ext_in. intros x Hx. apply (IH x Hx (Hd x Hx) (Hp x Hx)).
    + f_equal. apply map_ext_in. intros x Hx. apply (IH x Hx (Hd x Hx) (Hp x Hx)).
    + f_equal. f_equal. apply map_ext_in. intros x Hx.
      rewrite <- !countNodes_spec. apply (IH x Hx (Hd x Hx) (Hp x Hx)).
  - apply distinct_keys_obj in Hd. destruct Hd as [Hnd Hd].
    destruct (no_proto_key_entries entries Hp) as [Hk Hv].
    destruct (sortObjectKeys_entries entries Hnd Hk) as [sorted [Hs Hperm]].
    rewrite List.Forall_forall in IH, Hd.
    rewrite Hs, !countKeys_object, !getDepth_object, !countNodes_spec. cbn [spec_nodeCount].
    rewrite (Permutation_length Hperm), length_map.
    rewrite (sum_Permutation (fun kv => countKeys (snd kv)) _ _ Hperm).
    rewrite (sum_Permutation (fun kv => spec_nodeCount (snd kv)) _ _ Hperm).
    assert (Hnn : Forall (fun d => (0 <= d)%Z) (map (fun kv => getDepth (snd kv)) sorted)).
    { apply List.Forall_forall. intros d Hin. apply in_map_iff in Hin as [kv [<- _]].
      apply getDepth_nonneg. }
    rewrite (depth_of_Permutation _ _ Hnn
               (Permutation_map (fun kv => getDepth (snd kv)) Hperm)).
    rewrite !map_map. cbn [snd]. repeat split.
    + f_equal. f_equal. apply map_ext_in. intros x Hx. apply (IH x Hx (Hd x Hx) (Hv x Hx)).
    + f_equal. apply map_ext_in. intros x Hx. apply (IH x Hx (Hd x Hx) (Hv x Hx)).
    + f_equal. f_equal. apply map_ext_in. intros x Hx.
      rewrite <- !countNodes_spec. apply (IH x Hx (Hd x Hx) (Hv x Hx)).
Qed.

End WithHost.

(** * Instances *)

(** The properties above hold for every host; the instances below take
    [plain_host]. *)

Lemma diffJSON_same_witness :
  nan_free scenario_A_left = true
  /\ diffJSON plain_host scenario_A_left scenario_A_left = [].
Proof.
  split; [reflexivity | apply (diffJSON_same plain_host scenario_A_left); reflexivity].
Defined.

Lemma diffJSON_key_order_witness :
  List.NoDup (map fst [("a", num 1); ("b", num 2)])
  /\ List.NoDup (map fst [("b", num 2); ("a", num 1)])
  /\ Permutation [("a", num 1); ("b", num 2)] [("b", num 2); ("a", num 1)]
  /\ Permutation [("b", num 2); ("a", num 1)] [("a", num 1); ("b", num 2)]
  /\ (Permutation
        (diffJSON plain_host (VObj [("a", num 1); ("b", num 2)])
                             (VObj [("b", num 2); ("a", num 1)]))
        (diffJSON plain_host (VObj [("b", num 2); ("a", num 1)])
                             (VObj [("a", num 1); ("b", num 2)]))
      /\ (deep_equal (VObj [("a", num 1); ("b", num 2)])
                     (VObj [("b", num 2); ("a", num 1)]) = true ->
          diffJSON plain_host (VObj [("a", num 1); ("b", num 2)])
                              (VObj [("b", num 2); ("a", num 1)]) = []
          /\ diffJSON plain_host (VObj [("b", num 2); ("a", num 1)])
                                 (VObj [("a", num 1); ("b", num 2)]) = [])).
Proof.
  assert (N1 : List.NoDup (map fst [("a", num 1); ("b", num 2)])).
  { simpl. repeat constructor; simpl; intuition discriminate. }
  assert (N2 : List.NoDup (map fst [("b", num 2); ("a", num 1)])).
  { simpl. repeat constructor; simpl; intuition discriminate. }
  assert (P1 : Permutation [("a", num 1); ("b", num 2)] [("b", num 2); ("a", num 1)])
    by apply perm_swap.
  assert (P2 : Permutation [("b", num 2); ("a", num 1)] [("a", num 1); ("b", num 2)])
    by apply perm_swap.
  split; [exact N1|]. split; [exact N2|]. split; [exact P1|]. split; [exact P2|].
  exact (diffJSON_key_order plain_host _ _ _ _ N1 N2 P1 P2).
Defined.

(** C5 as stated fails: 80 nodes and 17 changes give the raw percentage 57.5,
    which rounds half up to 58; in binary64 46/80 times 100 is just below
    57.5, and the code answers 57. *)
Lemma calculateSimilarity_rounding :
  (spec_nodeCount rounding_left + spec_nodeCount rounding_right = 80)%Z
  /\ length (diffJSON plain_host rounding_left rounding_right) = 17
  /\ spec_similarity plain_host rounding_left rounding_right = 58%Z
  /\ calculateSimilarity plain_host rounding_left rounding_right = Z2F 57
  /\ calculateSimilarity plain_host rounding_left rounding_right
     <> Z2F (spec_similarity plain_host rounding_left rounding_right).
Proof.
  assert (E : calculateSimilarity plain_host rounding_left rounding_right = Z2F 57)
    by (vm_compute; reflexivity).
  assert (S : spec_similarity plain_host rounding_left rounding_right = 58%Z)
    by (vm_compute; reflexivity).
  split; [vm_compute; reflexivity|]. split; [vm_compute; reflexivity|].
  split; [exact S|]. split; [exact E|].
  rewrite E, S. vm_compute. discriminate.
Qed.

Lemma calculateSimilarity_spec_witness :
  (spec_nodeCount scenario_A_left + spec_nodeCount scenario_A_right < 2 ^ 53)%Z
  /\ nan_free scenario_A_left = true
  /\ calculateSimilarity plain_host scenario_A_left scenario_A_right
     = spec_similarity_binary64 plain_host scenario_A_left scenario_A_right
  /\ calculateSimilarity plain_host scenario_A_left scenario_A_right = Z2F 60.
Proof.
  split; [reflexivity|]. split; [reflexivity|].
  split; [|vm_compute; reflexivity].
  exact (proj1 (proj2 (calculateSimilarity_spec plain_host scenario_A_left scenario_A_right
                         eq_refl))).
Defined.

(** C3 as stated fails: the filter text [(foo)] does not match the grammar,
    and the query succeeds, with zero matches. *)
Lemma queryJSONPath_malformed_filter :
  filter_match "(foo)" = None
  /\ queryJSONPath plain_host (VArr [num 1; num 2]) "$[?(foo)]" = Success [] [] 0
  /\ success (queryJSONPath plain_host (VArr [num 1; num 2]) "$[?(foo)]") = true.
Proof. repeat split; vm_compute; reflexivity. Qed.

Lemma queryJSONPath_no_match_witness :
  tokenize "$[?(foo)]" = [] ++ TFilter "(foo)" :: []
  /\ run_tokens plain_host [] ([VArr [num 1; num 2]], [[PKey "$"]])
     = Ok ([VArr [num 1; num 2]], [[PKey "$"]])
  /\ forallb (no_match (TFilter "(foo)")) [VArr [num 1; num 2]] = true
  /\ queryJSONPath plain_host (VArr [num 1; num 2]) "$[?(foo)]" = Success [] [] 0.
Proof.
  split; [reflexivity|]. split; [reflexivity|]. split; [reflexivity|].
  apply (queryJSONPath_no_match plain_host (VArr [num 1; num 2]) "$[?(foo)]"
           [] [] (TFilter "(foo)") [VArr [num 1; num 2]] [[PKey "$"]]); reflexivity.
Defined.

Lemma queryJSONPath_filter_null_witness :
  tokenize "$[?(@.id>1)]" = [] ++ TFilter "(@.id>1)" :: []
  /\ run_tokens plain_host [] ([VArr [VObj [("id", num 2)]; VNull]], [[PKey "$"]])
     = Ok ([VArr [VObj [("id", num 2)]; VNull]], [[PKey "$"]])
  /\ nth_error [VArr [VObj [("id", num 2)]; VNull]] 0
     = Some (VArr [VObj [("id", num 2)]; VNull])
  /\ In VNull [VObj [("id", num 2)]; VNull]
  /\ filter_match "(@.id>1)" <> None
  /\ exists e,
       queryJSONPath plain_host (VArr [VObj [("id", num 2)]; VNull]) "$[?(@.id>1)]"
       = Failure e.
Proof.
  assert (Hin : In VNull [VObj [("id", num 2)]; VNull]) by (simpl; tauto).
  assert (Hm : filter_match "(@.id>1)" <> None) by (vm_compute; discriminate).
  split; [reflexivity|]. split; [reflexivity|]. split; [reflexivity|].
  split; [exact Hin|]. split; [exact Hm|].
  destruct (queryJSONPath_filter_null plain_host
              (VArr [VObj [("id", num 2)]; VNull]) "$[?(@.id>1)]" [] []
              "(@.id>1)" [VArr [VObj [("id", num 2)]; VNull]] [[PKey "$"]] 0
              [VObj [("id", num 2)]; VNull] eq_refl eq_refl eq_refl Hin Hm)
    as [e [He _]].
  exists e. exact He.
Defined.

(** C7 as stated fails: the LineMap of scenario D does not record the root. *)
Lemma stringifyWithPathMap_root_unrecorded :
  snd (stringifyWithPathMap plain_host scenario_D_value 2) !! EmptyString = None
  /\ resolvePathLine EmptyString (snd (stringifyWithPathMap plain_host scenario_D_value 2)) = 1.
Proof. split; vm_compute; reflexivity. Qed.

Lemma resolvePathLine_spec_witness :
  "a.b.c" <> EmptyString
  /\ resolvePathLine "a.b.c" (snd (stringifyWithPathMap plain_host scenario_D_value 2)) = 3.
Proof.
  assert (Hne : "a.b.c" <> EmptyString) by discriminate.
  split; [exact Hne|].
  pose proof (resolvePathLine_spec plain_host "a.b.c"
                (snd (stringifyWithPathMap plain_host scenario_D_value 2)) Hne) as H.
  destruct H as [_ [Hstep _]].
  rewrite Hstep by (vm_compute; reflexivity). vm_compute. reflexivity.
Defined.

(** ** Instances of the further properties *)

(** The text of a TypeError, for the instances. *)
Definition plain_message (e : exn) : string := "TypeError".

Definition two_keys : list (string * value) := [("b", num 1); ("a", num 2)].
Definition two_keys_swapped : list (string * value) := [("a", num 2); ("b", num 1)].
Definition nested_document : value :=
  VObj [("b", num 1); ("a", VArr [VObj [("d", num 1); ("c", num 2)]]); ("10", VNull);
        ("9", VBool true)].

Lemma two_keys_distinct : List.NoDup (map fst two_keys).
Proof. repeat constructor; simpl; intuition discriminate. Defined.

Lemma nested_document_distinct : distinct_keys nested_document.
Proof.
  simpl. repeat split; repeat constructor; simpl; intuition discriminate.
Defined.

Lemma applyToken_values_paths_witness :
  applyToken plain_host TWildcard (VArr [num 1; num 2]) (Some [PKey "$"])
  = Ok ([num 1; num 2], [[PKey "$"; PIndex 0]; [PKey "$"; PIndex 1]])
  /\ length [num 1; num 2] = length [[PKey "$"; PIndex 0]; [PKey "$"; PIndex 1]].
Proof.
  split; [reflexivity|].
  apply (applyToken_values_paths plain_host TWildcard (VArr [num 1; num 2])
           (Some [PKey "$"])).
  reflexivity.
Defined.

Lemma queryJSONPath_paths_witness :
  queryJSONPath plain_host scenario_B_root "$.items[?@.id>1]"
  = Success [VObj [("id", num 2)]; VObj [("id", num 3)]] [[PKey "$"]] 2
  /\ 2 = length [VObj [("id", num 2)]; VObj [("id", num 3)]]
  /\ ([VObj [("id", num 2)]; VObj [("id", num 3)]] = [] -> [[PKey "$"]] = [])
  /\ ([VObj [("id", num 2)]; VObj [("id", num 3)]] <> [] -> [[PKey "$"]] = [[PKey "$"]]).
Proof.
  assert (H : queryJSONPath plain_host scenario_B_root "$.items[?@.id>1]"
              = Success [VObj [("id", num 2)]; VObj [("id", num 3)]] [[PKey "$"]] 2)
    by (vm_compute; reflexivity).
  split; [exact H|].
  exact (queryJSONPath_paths plain_host scenario_B_root "$.items[?@.id>1]" _ _ _ H).
Defined.

Lemma formatQueryResult_of_query_witness :
  queryJSONPath plain_host scenario_B_root "$.items[?@.id>1]"
  = Success [VObj [("id", num 2)]; VObj [("id", num 3)]] [[PKey "$"]] 2
  /\ 2 <= 2
  /\ formatQueryResult plain_host plain_message
       (Success [VObj [("id", num 2)]; VObj [("id", num 3)]] [[PKey "$"]] 2)
     = Throw (CannotReadProperty "join").
Proof.
  assert (H : queryJSONPath plain_host scenario_B_root "$.items[?@.id>1]"
              = Success [VObj [("id", num 2)]; VObj [("id", num 3)]] [[PKey "$"]] 2)
    by (vm_compute; reflexivity).
  split; [exact H|]. split; [lia|].
  apply (formatQueryResult_of_query plain_host plain_message scenario_B_root
           "$.items[?@.id>1]" _ _ _ H).
  lia.
Defined.

Lemma getPathSuggestions_object_witness :
  own [("a", num 1)] "a" = Some (num 1)
  /\ simple_key "a" = true
  /\ exists suggestions,
       getPathSuggestions plain_host (VObj [("a", num 1)]) "$" = Some suggestions
       /\ In ".a" suggestions
       /\ queryJSONPath plain_host (VObj [("a", num 1)]) "$.a"
          = Success [num 1] [[PKey "$"]] 1.
Proof.
  split; [reflexivity|]. split; [reflexivity|].
  destruct (getPathSuggestions_object plain_host [("a", num 1)] "a" (num 1) eq_refl)
    as [suggestions [Hs [Hin Hq]]].
  exists suggestions. split; [exact Hs|]. split; [exact Hin|].
  exact (proj2 (Hq eq_refl)).
Defined.

Lemma getPathSuggestions_follows_query_witness :
  forallb is_step (tokenize "$.a") = true
  /\ queryJSONPath plain_host scenario_D_value "$.a"
     = Success [VObj [("b", num 1)]] [[PKey "$"]] 1
  /\ getPathSuggestions plain_host scenario_D_value "$.a"
     = getPathSuggestions plain_host (VObj [("b", num 1)]) "$".
Proof.
  split; [reflexivity|]. split; [reflexivity|].
  exact (proj1 (getPathSuggestions_follows_query plain_host scenario_D_value "$.a"
                  (VObj [("b", num 1)]) [[PKey "$"]] 1 eq_refl eq_refl)).
Defined.

Lemma queryJSONPath_steps_witness :
  forallb is_step (tokenize "$.a.b") = true
  /\ (queryJSONPath plain_host scenario_D_value "$.a.b" = Success [] [] 0
      \/ queryJSONPath plain_host scenario_D_value "$.a.b"
         = Success [fold_left (follow plain_host) (tokenize "$.a.b") scenario_D_value]
                   [[PKey "$"]] 1).
Proof.
  split; [reflexivity|].
  apply (queryJSONPath_steps plain_host scenario_D_value "$.a.b"). reflexivity.
Defined.

Lemma diffJSON_empty_iff_equal_witness :
  is_json (VObj two_keys) = true /\ is_json (VObj two_keys_swapped) = true
  /\ distinct_keys (VObj two_keys)
  /\ plain_keys (VObj two_keys) = true /\ plain_keys (VObj two_keys_swapped) = true
  /\ (diffJSON plain_host (VObj two_keys) (VObj two_keys_swapped) = []
      <-> deep_equal (VObj two_keys) (VObj two_keys_swapped) = true).
Proof.
  assert (D : distinct_keys (VObj two_keys)).
  { simpl. repeat split. exact two_keys_distinct. }
  split; [reflexivity|]. split; [reflexivity|]. split; [exact D|].
  split; [reflexivity|]. split; [reflexivity|].
  apply (diffJSON_empty_iff_equal plain_host (VObj two_keys) (VObj two_keys_swapped));
    try reflexivity. exact D.
Defined.

Lemma diffJSON_array_append_witness :
  nan_free (VArr [num 1]) = true
  /\ diffJSON plain_host (VArr [num 1]) (VArr ([num 1] ++ [num 2]))
     = [ {| change_type_of := added; change_path := "[1]";
            change_old := None; change_new := Some (num 2);
            change_message := "[1]: +2" |} ].
Proof.
  split; [reflexivity|].
  rewrite (proj1 (diffJSON_array_append plain_host [num 1] [num 2] eq_refl)).
  vm_compute. reflexivity.
Defined.

Lemma collectDiffLineKinds_order_witness :
  Permutation (diffJSON plain_host scenario_A_left scenario_A_right)
              (rev (diffJSON plain_host scenario_A_left scenario_A_right))
  /\ collectDiffLineKinds (diffJSON plain_host scenario_A_left scenario_A_right)
       (snd (stringifyWithPathMap plain_host scenario_A_left 2))
       (snd (stringifyWithPathMap plain_host scenario_A_right 2))
     = collectDiffLineKinds (rev (diffJSON plain_host scenario_A_left scenario_A_right))
         (snd (stringifyWithPathMap plain_host scenario_A_left 2))
         (snd (stringifyWithPathMap plain_host scenario_A_right 2)).
Proof.
  split; [apply Permutation_rev|].
  apply (collectDiffLineKinds_order _ _ _ _ (Permutation_rev _)).
Defined.


Lemma stringifyWithPathMap_is_JSON_stringify_witness :
  is_json scenario_D_value = true /\ 1 <= 2 <= 10
  /\ JSON_stringify plain_host scenario_D_value 2
     = Some (fst (stringifyWithPathMap plain_host scenario_D_value 2)).
Proof.
  split; [reflexivity|]. split; [lia|].
  apply (stringifyWithPathMap_is_JSON_stringify plain_host scenario_D_value 2);
    [reflexivity | lia].
Defined.

Lemma formatDiffOutput_no_differences_witness :
  is_json (VObj two_keys) = true /\ is_json (VObj two_keys_swapped) = true
  /\ distinct_keys (VObj two_keys)
  /\ plain_keys (VObj two_keys) = true /\ plain_keys (VObj two_keys_swapped) = true
  /\ (formatDiffOutput (diffJSON plain_host (VObj two_keys) (VObj two_keys_swapped))
      = formatDiffOutput []
      <-> deep_equal (VObj two_keys) (VObj two_keys_swapped) = true).
Proof.
  assert (D : distinct_keys (VObj two_keys)).
  { simpl. repeat split. exact two_keys_distinct. }
  split; [reflexivity|]. split; [reflexivity|]. split; [exact D|].
  split; [reflexivity|]. split; [reflexivity|].
  apply (formatDiffOutput_no_differences plain_host (VObj two_keys) (VObj two_keys_swapped));
    try reflexivity. exact D.
Defined.

Lemma getErrorPosition_in_input_witness :
  getErrorPosition "Unexpected token } in JSON at position 3"
    ("{" +:+ newline +:+ ",}")
  = Some {| position_line := 2; position_column := 2; position_index := Some 3%Z |}
  /\ 1 <= 2 <= line_count ("{" +:+ newline +:+ ",}")
  /\ 1 <= 2 <= String.length (nth (2 - 1)
                                (split (ascii_of_nat 10) ("{" +:+ newline +:+ ",}"))
                                EmptyString) + 1.
Proof.
  split; [vm_compute; reflexivity|].
  apply (getErrorPosition_in_input "Unexpected token } in JSON at position 3"
           ("{" +:+ newline +:+ ",}")
           {| position_line := 2; position_column := 2; position_index := Some 3%Z |}).
  vm_compute. reflexivity.
Defined.

Lemma sortObjectKeys_canonical_witness :
  List.NoDup (map fst two_keys) /\ Permutation two_keys two_keys_swapped
  /\ sortObjectKeys (VObj two_keys) = sortObjectKeys (VObj two_keys_swapped).
Proof.
  split; [exact two_keys_distinct|]. split; [apply perm_swap|].
  apply (sortObjectKeys_canonical two_keys two_keys_swapped two_keys_distinct).
  apply perm_swap.
Defined.

Lemma sortObjectKeys_same_document_witness :
  is_json nested_document = true /\ nan_free nested_document = true
  /\ distinct_keys nested_document /\ no_proto_key nested_document = true
  /\ sortObjectKeys (sortObjectKeys nested_document) = sortObjectKeys nested_document
  /\ diffJSON plain_host nested_document (sortObjectKeys nested_document) = []
  /\ calculateSimilarity plain_host nested_document (sortObjectKeys nested_document)
     = Z2F 100.
Proof.
  split; [reflexivity|]. split; [reflexivity|]. split; [exact nested_document_distinct|].
  split; [reflexivity|].
  destruct (sortObjectKeys_same_document plain_host nested_document eq_refl eq_refl
              nested_document_distinct eq_refl) as [H1 [_ [H3 [_ H5]]]].
  split; [exact H1|]. split; [exact H3|]. apply H5. vm_compute. reflexivity.
Defined.

Lemma sortObjectKeys_order_witness :
  List.NoDup (map fst [("b", num 1); ("10", num 2); ("a", num 3); ("9", num 4)])
  /\ (forall k, In k (map fst [("b", num 1); ("10", num 2); ("a", num 3); ("9", num 4)]) ->
      k <> "__proto__")
  /\ keys (sortObjectKeys (VObj [("b", num 1); ("10", num 2); ("a", num 3); ("9", num 4)]))
     = ["9"; "10"; "a"; "b"]
  /\ keys_in_order
       (keys (sortObjectKeys (VObj [("b", num 1); ("10", num 2); ("a", num 3); ("9", num 4)]))).
Proof.
  assert (Hnd : List.NoDup (map fst [("b", num 1); ("10", num 2); ("a", num 3); ("9", num 4)]))
    by (repeat constructor; simpl; intuition discriminate).
  assert (Hp : forall k,
             In k (map fst [("b", num 1); ("10", num 2); ("a", num 3); ("9", num 4)]) ->
             k <> "__proto__")
    by (simpl; intros k [<- | [<- | [<- | [<- | []]]]]; discriminate).
  split; [exact Hnd|]. split; [exact Hp|]. split; [vm_compute; reflexivity|].
  exact (proj2 (sortObjectKeys_order _ Hnd Hp)).
Defined.

Lemma sortObjectKeys_statistics_witness :
  distinct_keys nested_document /\ no_proto_key nested_document = true
  /\ countKeys (sortObjectKeys nested_document) = 6%Z
  /\ getDepth (sortObjectKeys nested_document) = 3%Z.
Proof.
  split; [exact nested_document_distinct|]. split; [reflexivity|].
  destruct (sortObjectKeys_statistics nested_document nested_document_distinct eq_refl)
    as [H1 [H2 _]].
  rewrite H1, H2. split; reflexivity.
Defined.
